(** * A recursive sphere ray tracer: shallow embedding and checked properties

    The development follows the multi-threaded variant of the program
    (constants, [PutPixel], the vector and colour routines,
    [IntersectRaySphere], [ComputeLighting], [TraceRay], [RenderSection]
    and the band loop of [WinMain]).

    Numbers are modelled as the program has them:
    - [float] is IEEE 754 binary32, through the executable specification
      of the Standard Library ([spec_float] at precision 24 and maximal
      exponent 128, round to nearest even); every C++ operator on [float]
      is one correctly rounded operation, evaluated left to right, with no
      contraction into fused operations; [std::sqrt] is the correctly
      rounded square root;
    - [std::pow], which the C++ library does not fix to the last bit, is a
      parameter: the statements hold for every such function, or say what
      they need of it;
    - [int] and [unsigned] are 32-bit integers carried by [Z], with the
      wrap-around written out;
    - a [const Sphere*] that is either null or points into the [spheres]
      vector is the optional index of the pointee;
    - the canvas buffer is a list of [DWORD], updated in place by index;
    - the recursion of [TraceRay] is run with a bound on the activations
      that are live at once, and shown to need no more than one plus the
      depth budget;
    - the threads of [WinMain] are run one after the other, in an
      arbitrary order.

    The line and triangle routines of the rasteriser variant
    ([Interpolate], [DrawLine], [DrawWireframeTriangle],
    [DrawFilledTriangle] and the background fill of its [WinMain]) are
    embedded beside them, on the same canvas: a [std::vector<float>] is a
    list, a read outside a vector has no result, and the points a routine
    exchanges through its references are returned with the canvas. *)

From Stdlib Require Import ZArith List Bool Lia Permutation.
From Stdlib Require Import Floats.SpecFloat.
From stdpp Require Import base list numbers.

Local Open Scope Z_scope.

(** ** Machine numbers *)

(** The C++ type [float]. *)
Definition float : Type := spec_float.

(** The C++ type [double], met only around [std::pow]. *)
Definition double : Type := spec_float.

Module F32.

Definition prec : Z := 24.
Definition emax : Z := 128.

Definition add : float -> float -> float := SFadd prec emax.
Definition sub : float -> float -> float := SFsub prec emax.
Definition mul : float -> float -> float := SFmul prec emax.
Definition div : float -> float -> float := SFdiv prec emax.
Definition sqrt : float -> float := SFsqrt prec emax.
Definition neg : float -> float := SFopp.
Definition ltb : float -> float -> bool := SFltb.
Definition leb : float -> float -> bool := SFleb.

(** Conversion of an integer value ([int] or [unsigned]) to [float]. *)
Definition of_int (n : Z) : float := binary_normalize prec emax n 0 false.

(** Conversion of a [double] to [float] (rounding). *)
Definition of_double (d : double) : float :=
  match d with
  | S754_finite s m e => binary_normalize prec emax (cond_Zopp s (Zpos m)) e s
  | _ => d
  end.

Definition zero : float := S754_zero false.
Definition infinity : float := S754_infinity false.
Definition nan : float := S754_nan.

End F32.

Module F64.

Definition prec : Z := 53.
Definition emax : Z := 1024.

Definition add : double -> double -> double := SFadd prec emax.
Definition mul : double -> double -> double := SFmul prec emax.

(** Conversion of an [int] to [double] (exact). *)
Definition of_int (n : Z) : double := binary_normalize prec emax n 0 false.

(** Conversion of a [float] to [double] (exact: the value is kept and the
    mantissa is brought to the canonical form of the wider format). *)
Definition of_float (f : float) : double :=
  match f with
  | S754_finite s m e => binary_normalize prec emax (cond_Zopp s (Zpos m)) e s
  | _ => f
  end.

End F64.

Abbreviation fadd := F32.add.
Abbreviation fsub := F32.sub.
Abbreviation fmul := F32.mul.
Abbreviation fdiv := F32.div.
Abbreviation fsqrt := F32.sqrt.
Abbreviation fneg := F32.neg.
Abbreviation flt := F32.ltb.
Abbreviation fle := F32.leb.

(** [INFINITY] of <cmath>. *)
Definition INFINITY : float := F32.infinity.

(** The value of an [int]: two's complement wrap-around to 32 bits. *)
Definition wrap_int (n : Z) : Z := (n + 2 ^ 31) mod 2 ^ 32 - 2 ^ 31.

(** The value of an [unsigned]: reduction modulo 2^32. *)
Definition wrap_unsigned (n : Z) : Z := n mod 2 ^ 32.

Definition is_int (n : Z) : Prop := - 2 ^ 31 <= n < 2 ^ 31.

(** Integer part of a [float], rounded toward zero; none for an infinity
    or a NaN. *)
Definition ftrunc (x : float) : option Z :=
  match x with
  | S754_zero _ => Some 0
  | S754_finite s m e => Some (cond_Zopp s (Z.shiftl (Zpos m) e))
  | S754_infinity _ | S754_nan => None
  end.

(** The cast [(unsigned)x] of a [float].  It truncates toward zero.  The
    language leaves the cast undefined when the truncated value is not an
    [unsigned]; the model then follows the x86-64 code of the cast (a
    64-bit truncating conversion whose low 32 bits are kept, and whose
    out-of-range result has these bits zero). *)
Definition float_to_unsigned (x : float) : Z :=
  match ftrunc x with
  | Some n =>
      if (- 2 ^ 63 <=? n) && (n <? 2 ^ 63) then wrap_unsigned n else 0
  | None => 0
  end.

(** ** Constants and data *)

Definition CANVAS_WIDTH : Z := 600.
Definition CANVAS_HEIGHT : Z := 600.
Definition RECURSION_DEPTH : Z := 3.

(** [0.001f]: the binary32 value nearest to one thousandth. *)
Definition EPSILON : float :=
  Eval vm_compute in fdiv (F32.of_int 1) (F32.of_int 1000).

Inductive LightType : Type := AMBIENT | POINT | DIRECTIONAL.

Record Vector3 : Type := mkVector3 { x : float; y : float; z : float }.

(** [Matrix3]: the nine entries, row by row; [line0], [line1] and [line2]
    are the rows, as the default member initialisers set them. *)
Record Matrix3 : Type := mkMatrix3 {
  m00 : float; m01 : float; m02 : float;
  m10 : float; m11 : float; m12 : float;
  m20 : float; m21 : float; m22 : float }.

Definition line0 (m : Matrix3) : Vector3 := mkVector3 (m00 m) (m01 m) (m02 m).
Definition line1 (m : Matrix3) : Vector3 := mkVector3 (m10 m) (m11 m) (m12 m).
Definition line2 (m : Matrix3) : Vector3 := mkVector3 (m20 m) (m21 m) (m22 m).

(** [Color]: three [unsigned] channels, in the order blue, green, red. *)
Record Color : Type := mkColor { b : Z; g : Z; r : Z }.

Record Sphere : Type := mkSphere {
  center : Vector3;
  radius : float;
  color : Color;
  specular : Z;
  reflective : float }.

Record Light : Type := mkLight {
  ltype : LightType;
  intensity : float;
  position : Vector3 }.

(** A [const Sphere*] into the vector of spheres: [None] is [nullptr],
    [Some i] is the address of element [i]. *)
Definition SpherePtr : Type := option nat.

Definition BACKGROUND_COLOR : Color := mkColor 0 0 0.

(** The canvas buffer: a vector of [DWORD]. *)
Abbreviation Canvas := (list Z).

(** The macro [RGB] of the Windows headers: three bytes packed in a
    [COLORREF], the first argument lowest. *)
Definition RGB (r0 g0 b0 : Z) : Z :=
  Z.lor (Z.lor (Z.land r0 255) (Z.shiftl (Z.land g0 255) 8))
        (Z.shiftl (Z.land b0 255) 16).

(** The macros [min] and [max] of the Windows headers, at type [unsigned]
    (an [int] operand is converted to [unsigned] before the comparison). *)
Definition max_u (a b0 : Z) : Z :=
  if wrap_unsigned b0 <? wrap_unsigned a then wrap_unsigned a else wrap_unsigned b0.
Definition min_u (a b0 : Z) : Z :=
  if wrap_unsigned a <? wrap_unsigned b0 then wrap_unsigned a else wrap_unsigned b0.

(** ** The canvas *)

Definition PutPixel (x0 y0 : Z) (c : Color) (canvasBuffer : Canvas) : Canvas :=
  let x_r := wrap_int (Z.quot CANVAS_WIDTH 2 + x0) in
  let y_r := wrap_int (Z.quot CANVAS_HEIGHT 2 - y0) in
  if (0 <=? x_r) && (x_r <? CANVAS_WIDTH) && (0 <=? y_r) && (y_r <? CANVAS_HEIGHT)
  then
    let offset := wrap_int (x_r + wrap_int (CANVAS_WIDTH * y_r)) in
    <[Z.to_nat offset := RGB (b c) (g c) (r c)]> canvasBuffer
  else canvasBuffer.

(** ** Vector3 operating routines *)

Definition DotProduct (v1 v2 : Vector3) : float :=
  fadd (fadd (fmul (x v1) (x v2)) (fmul (y v1) (y v2))) (fmul (z v1) (z v2)).

Definition Subtract (v1 v2 : Vector3) : Vector3 :=
  mkVector3 (fsub (x v1) (x v2)) (fsub (y v1) (y v2)) (fsub (z v1) (z v2)).

Definition Length (v : Vector3) : float := fsqrt (DotProduct v v).

Definition Multiply (k : float) (v : Vector3) : Vector3 :=
  mkVector3 (fmul k (x v)) (fmul k (y v)) (fmul k (z v)).

Definition Add (v1 v2 : Vector3) : Vector3 :=
  mkVector3 (fadd (x v1) (x v2)) (fadd (y v1) (y v2)) (fadd (z v1) (z v2)).

(** ** Color operating routines *)

Module Col.

Definition Multiply (i : float) (c : Color) : Color :=
  mkColor (float_to_unsigned (fmul i (F32.of_int (b c))))
          (float_to_unsigned (fmul i (F32.of_int (g c))))
          (float_to_unsigned (fmul i (F32.of_int (r c)))).

Definition Add (c1 c2 : Color) : Color :=
  mkColor (wrap_unsigned (b c1 + b c2))
          (wrap_unsigned (g c1 + g c2))
          (wrap_unsigned (r c1 + r c2)).

Definition Clamp (c : Color) : Color :=
  mkColor (min_u 255 (max_u 0 (b c)))
          (min_u 255 (max_u 0 (g c)))
          (min_u 255 (max_u 0 (r c))).

End Col.

(** ** Matrix operating routines *)

Definition MultiplyMV (mat : Matrix3) (vec : Vector3) : Vector3 :=
  mkVector3 (DotProduct (line0 mat) vec)
            (DotProduct (line1 mat) vec)
            (DotProduct (line2 mat) vec).

Definition ReflectRayDirection (ray normal : Vector3) : Vector3 :=
  Subtract (Multiply (fmul (F32.of_int 2) (DotProduct ray normal)) normal) ray.

Definition CanvasToViewport (canvas_x canvas_y : Z) : Vector3 :=
  let viewportSize_x := F32.of_int 1 in
  let viewportSize_y := F32.of_int 1 in
  let projectionPlaneZ := F32.of_int 1 in
  mkVector3
    (fdiv (fmul (F32.of_int canvas_x) viewportSize_x) (F32.of_int CANVAS_WIDTH))
    (fdiv (fmul (F32.of_int canvas_y) viewportSize_y) (F32.of_int CANVAS_HEIGHT))
    projectionPlaneZ.

(** ** Ray and sphere *)

(** The coefficients of the quadratic and its discriminant, as
    [IntersectRaySphere] computes them. *)
Definition ray_k1 (direction : Vector3) : float := DotProduct direction direction.

Definition ray_k2 (origin direction : Vector3) (sphere : Sphere) : float :=
  fmul (F32.of_int 2) (DotProduct (Subtract origin (center sphere)) direction).

Definition ray_k3 (origin : Vector3) (sphere : Sphere) : float :=
  let oc := Subtract origin (center sphere) in
  fsub (DotProduct oc oc) (fmul (radius sphere) (radius sphere)).

Definition ray_discriminant (origin direction : Vector3) (sphere : Sphere) : float :=
  let k1 := ray_k1 direction in
  let k2 := ray_k2 origin direction sphere in
  let k3 := ray_k3 origin sphere in
  fsub (fmul k2 k2) (fmul (fmul (F32.of_int 4) k1) k3).

Definition IntersectRaySphere (origin direction : Vector3) (sphere : Sphere)
  : float * float :=
  let oc := Subtract origin (center sphere) in
  let k1 := DotProduct direction direction in
  let k2 := fmul (F32.of_int 2) (DotProduct oc direction) in
  let k3 := fsub (DotProduct oc oc) (fmul (radius sphere) (radius sphere)) in
  let discriminant := fsub (fmul k2 k2) (fmul (fmul (F32.of_int 4) k1) k3) in
  if flt discriminant (F32.of_int 0) then (INFINITY, INFINITY)
  else
    let t1 := fdiv (fadd (fneg k2) (fsqrt discriminant)) (fmul (F32.of_int 2) k1) in
    let t2 := fdiv (fsub (fneg k2) (fsqrt discriminant)) (fmul (F32.of_int 2) k1) in
    (t1, t2).

(** ** The scene *)

(** A decimal literal [n/d] of type [float], for [n] and [d] that are
    themselves floats: the quotient is rounded once, to the nearest float. *)
Definition float_lit (n d : Z) : float := fdiv (F32.of_int n) (F32.of_int d).

Definition vector_lit (a b0 c : Z) : Vector3 :=
  mkVector3 (F32.of_int a) (F32.of_int b0) (F32.of_int c).

Definition CAMERA_POSITION : Vector3 := vector_lit 3 0 1.

Definition CAMERA_ROTATION : Matrix3 :=
  mkMatrix3 (float_lit 7071 10000) (F32.of_int 0) (fneg (float_lit 7071 10000))
            (F32.of_int 0) (F32.of_int 1) (F32.of_int 0)
            (float_lit 7071 10000) (F32.of_int 0) (float_lit 7071 10000).

Definition SPHERES : list Sphere :=
  [ mkSphere (vector_lit 0 (-1) 3) (F32.of_int 1) (mkColor 0 0 255) 500
      (float_lit 2 10);
    mkSphere (vector_lit 2 0 4) (F32.of_int 1) (mkColor 255 0 0) 500
      (float_lit 3 10);
    mkSphere (vector_lit (-2) 0 4) (F32.of_int 1) (mkColor 0 255 0) 10
      (float_lit 4 10);
    mkSphere (vector_lit 0 (-5001) 0) (F32.of_int 5000) (mkColor 0 255 255) 1000
      (float_lit 5 10) ].

Definition LIGHTS : list Light :=
  [ mkLight AMBIENT (float_lit 2 10) (mkVector3 INFINITY INFINITY INFINITY);
    mkLight POINT (float_lit 6 10) (vector_lit 2 1 0);
    mkLight DIRECTIONAL (float_lit 2 10) (vector_lit 1 4 4) ].

(** An instance of [std::pow], to run the program: one at exponent zero,
    the product by repeated squaring at a positive integer exponent, and a
    NaN elsewhere (the program raises to the specular exponent only). *)
Definition pow_by_squaring (base exponent : double) : double :=
  match ftrunc exponent with
  | Some (Zpos p) => Pos.iter_op F64.mul p base
  | Some 0 => F64.of_int 1
  | _ => S754_nan
  end.

(** [lo < t && t < hi] on [float]: false as soon as one side is a NaN. *)
Definition strictly_inside (lo hi t : float) : bool := flt lo t && flt t hi.

Section Tracer.

(** [std::pow] called on a [float] and an [int]: the overload converts both
    arguments to [double] and returns a [double].  The C++ library fixes the
    result up to an unspecified rounding error only, so the function is a
    parameter of the development. *)
Variable pow : double -> double -> double.

(** ** Lighting *)

(** The light vector and the maximal shadow distance of a light that is not
    ambient. *)
Definition light_vector (light : Light) (point : Vector3) : Vector3 * float :=
  match ltype light with
  | POINT => (Subtract (position light) point, F32.of_int 1)
  | _ => (position light, INFINITY)
  end.

(** The shadow loop of [ComputeLighting] over the spheres from address [idx]
    on: the final value of [is_shadow]. *)
Fixpoint shadow_scan (point vec_l : Vector3) (t_max : float)
    (sphere_tag : SpherePtr) (idx : nat) (spheres : list Sphere) : bool :=
  match spheres with
  | [] => false
  | sphere :: rest =>
      if decide (sphere_tag = Some idx)
      then shadow_scan point vec_l t_max sphere_tag (S idx) rest
      else
        let ts := IntersectRaySphere point vec_l sphere in
        if flt EPSILON ts.1 && flt ts.1 t_max then true
        else if flt EPSILON ts.2 && flt ts.2 t_max then true
        else shadow_scan point vec_l t_max sphere_tag (S idx) rest
  end.

(** Diffuse reflection: the accumulator after the diffuse statement. *)
Definition diffuse (intensity0 : float) (light : Light)
    (normal vec_l : Vector3) (length_n : float) : float :=
  let n_dot_l := DotProduct normal vec_l in
  if flt (F32.of_int 0) n_dot_l
  then fadd intensity0
         (fdiv (fmul (intensity light) n_dot_l) (fmul length_n (Length vec_l)))
  else intensity0.

(** Specular reflection: the accumulator after the specular statement.  The
    product and the sum are taken in [double], where [std::pow] returns,
    and the sum is rounded back into the [float] accumulator. *)
Definition specular_reflection (intensity0 : float) (light : Light)
    (normal view vec_l : Vector3) (length_v : float) (specular0 : Z) : float :=
  if 0 <=? specular0 then
    let vec_r := ReflectRayDirection vec_l normal in
    let r_dot_v := DotProduct vec_r view in
    if flt (F32.of_int 0) r_dot_v
    then F32.of_double
           (F64.add (F64.of_float intensity0)
              (F64.mul (F64.of_float (intensity light))
                 (pow (F64.of_float (fdiv r_dot_v (fmul (Length vec_r) length_v)))
                      (F64.of_int specular0))))
    else intensity0
  else intensity0.

(** One turn of the loop over the lights. *)
Definition light_step (point normal view : Vector3) (spheres : list Sphere)
    (specular0 : Z) (sphere_tag : SpherePtr) (length_n length_v : float)
    (intensity0 : float) (light : Light) : float :=
  match ltype light with
  | AMBIENT => fadd intensity0 (intensity light)
  | _ =>
      let '(vec_l, t_max) := light_vector light point in
      if shadow_scan point vec_l t_max sphere_tag 0 spheres then intensity0
      else
        specular_reflection (diffuse intensity0 light normal vec_l length_n)
          light normal view vec_l length_v specular0
  end.

Definition ComputeLighting (point normal view : Vector3) (lights : list Light)
    (spheres : list Sphere) (specular0 : Z) (sphere_tag : SpherePtr) : float :=
  let length_n := Length normal in
  let length_v := Length view in
  foldl (light_step point normal view spheres specular0 sphere_tag length_n length_v)
        F32.zero lights.

(** ** Tracing *)

(** The first loop of [TraceRay] over the spheres from address [idx] on:
    the final values of [closest_t] and [closest_sphere].  A non-null
    [closest_sphere] is kept as the address together with the pointee. *)
Fixpoint closest_scan (origin direction : Vector3) (min_t max_t : float)
    (sphere_tag : SpherePtr) (idx : nat) (spheres : list Sphere)
    (closest_t : float) (closest_sphere : option (nat * Sphere))
  : float * option (nat * Sphere) :=
  match spheres with
  | [] => (closest_t, closest_sphere)
  | sphere :: rest =>
      if decide (sphere_tag = Some idx)
      then closest_scan origin direction min_t max_t sphere_tag (S idx) rest
             closest_t closest_sphere
      else
        let ts := IntersectRaySphere origin direction sphere in
        let '(closest_t1, closest_sphere1) :=
          if flt ts.1 closest_t && flt min_t ts.1 && flt ts.1 max_t
          then (ts.1, Some (idx, sphere)) else (closest_t, closest_sphere) in
        let '(closest_t2, closest_sphere2) :=
          if flt ts.2 closest_t1 && flt min_t ts.2 && flt ts.2 max_t
          then (ts.2, Some (idx, sphere)) else (closest_t1, closest_sphere1) in
        closest_scan origin direction min_t max_t sphere_tag (S idx) rest
          closest_t2 closest_sphere2
  end.

(** The whole loop, from its initial state. *)
Definition ClosestIntersection (origin direction : Vector3) (min_t max_t : float)
    (spheres : list Sphere) (sphere_tag : SpherePtr)
  : float * option (nat * Sphere) :=
  closest_scan origin direction min_t max_t sphere_tag 0 spheres INFINITY None.

(** The hit point, the unit normal and the view vector at a hit. *)
Definition hit_point (origin direction : Vector3) (closest_t : float) : Vector3 :=
  Add origin (Multiply closest_t direction).

Definition hit_normal (point : Vector3) (sphere : Sphere) : Vector3 :=
  let normal := Subtract point (center sphere) in
  Multiply (fdiv (F32.of_int 1) (Length normal)) normal.

Definition hit_view (direction : Vector3) : Vector3 :=
  Multiply (F32.of_int (-1)) direction.

(** [local_color] at a hit. *)
Definition local_color (origin direction : Vector3) (closest_t : float)
    (spheres : list Sphere) (lights : list Light) (hit : nat * Sphere) : Color :=
  let point := hit_point origin direction closest_t in
  let normal := hit_normal point hit.2 in
  let view := hit_view direction in
  let light_intensity :=
    ComputeLighting point normal view lights spheres (specular hit.2) (Some hit.1) in
  Col.Multiply light_intensity (color hit.2).

(** [TraceRay] run with a bound on the number of its activations that may
    be live at once: [fuel] frames are available, and [None] reports that a
    further one was needed. *)
Fixpoint TraceRay_fuel (fuel : nat) (origin direction : Vector3)
    (min_t max_t : float) (spheres : list Sphere) (lights : list Light)
    (depth : Z) (sphere_tag : SpherePtr) : option Color :=
  match fuel with
  | O => None
  | S fuel' =>
      let '(closest_t, closest_sphere) :=
        ClosestIntersection origin direction min_t max_t spheres sphere_tag in
      match closest_sphere with
      | None => Some BACKGROUND_COLOR
      | Some hit =>
          let point := Add origin (Multiply closest_t direction) in
          let normal := Subtract point (center hit.2) in
          let normal := Multiply (fdiv (F32.of_int 1) (Length normal)) normal in
          let view := Multiply (F32.of_int (-1)) direction in
          let light_intensity :=
            ComputeLighting point normal view lights spheres
              (specular hit.2) (Some hit.1) in
          let local_color := Col.Multiply light_intensity (color hit.2) in
          if fle (reflective hit.2) (F32.of_int 0) || (depth <=? 0)
          then Some local_color
          else
            let reflected_ray_direction := ReflectRayDirection view normal in
            match TraceRay_fuel fuel' point reflected_ray_direction EPSILON
                    INFINITY spheres lights (depth - 1) (Some hit.1) with
            | None => None
            | Some reflected_color =>
                Some (Col.Add
                        (Col.Multiply (fsub (F32.of_int 1) (reflective hit.2))
                           local_color)
                        (Col.Multiply (reflective hit.2) reflected_color))
            end
      end
  end.

(** [TraceRay]: the run with one frame more than the depth budget, which
    [TraceRay_fuel_enough] below shows to be the result of every run with
    at least as many frames. *)
Definition TraceRay (origin direction : Vector3) (min_t max_t : float)
    (spheres : list Sphere) (lights : list Light) (depth : Z)
    (sphere_tag : SpherePtr) : Color :=
  default BACKGROUND_COLOR
    (TraceRay_fuel (S (Z.to_nat depth)) origin direction min_t max_t spheres
       lights depth sphere_tag).

(** ** Rendering *)

(** The colour [RenderSection] puts at canvas position [(x0, y0)]. *)
Definition pixel_color (spheres : list Sphere) (lights : list Light)
    (camera_rotation : Matrix3) (camera_position : Vector3) (x0 y0 : Z) : Color :=
  let direction := CanvasToViewport x0 y0 in
  let direction := MultiplyMV camera_rotation direction in
  let color0 := TraceRay camera_position direction (F32.of_int 1) INFINITY
                  spheres lights RECURSION_DEPTH None in
  Col.Clamp color0.

(** The inner loop of [RenderSection]: one row. *)
Definition render_row (spheres : list Sphere) (lights : list Light)
    (camera_rotation : Matrix3) (camera_position : Vector3)
    (canvasBuffer : Canvas) (y0 : Z) : Canvas :=
  foldl (fun buf x0 =>
           PutPixel x0 y0
             (pixel_color spheres lights camera_rotation camera_position x0 y0) buf)
        canvasBuffer
        (seqZ (Z.quot (- CANVAS_WIDTH) 2)
              (Z.quot CANVAS_WIDTH 2 - Z.quot (- CANVAS_WIDTH) 2)).

Definition RenderSection (start_y end_y : Z) (spheres : list Sphere)
    (lights : list Light) (camera_rotation : Matrix3) (camera_position : Vector3)
    (canvasBuffer : Canvas) : Canvas :=
  foldl (render_row spheres lights camera_rotation camera_position)
        canvasBuffer (seqZ start_y (end_y - start_y)).

(** The band of rows [WinMain] gives to thread [i] of [num_threads]
    ([i] and [num_threads] are [unsigned], the bounds are [int]). *)
Definition section_width (num_threads : Z) : Z :=
  wrap_int (wrap_unsigned CANVAS_HEIGHT `div` num_threads).

Definition band (num_threads i : Z) : Z * Z :=
  let start_y :=
    wrap_int (wrap_unsigned
                (wrap_unsigned (i * wrap_unsigned (section_width num_threads))
                 - wrap_unsigned (Z.quot CANVAS_HEIGHT 2))) in
  let end_y :=
    wrap_int (wrap_unsigned
                (wrap_unsigned (wrap_unsigned (i + 1)
                                * wrap_unsigned (section_width num_threads))
                 - wrap_unsigned (Z.quot CANVAS_HEIGHT 2))) in
  (start_y,
   if i =? wrap_unsigned (num_threads - 1) then Z.quot CANVAS_HEIGHT 2 else end_y).

(** The threads of [WinMain] write one canvas; the model runs their
    sections one after the other in the order [schedule] lists the thread
    numbers. *)
Definition render_bands (num_threads : Z) (schedule : list Z)
    (spheres : list Sphere) (lights : list Light) (camera_rotation : Matrix3)
    (camera_position : Vector3) (canvasBuffer : Canvas) : Canvas :=
  foldl (fun buf i =>
           RenderSection (band num_threads i).1 (band num_threads i).2
             spheres lights camera_rotation camera_position buf)
        canvasBuffer schedule.

End Tracer.

(** ** The rasteriser *)

Record PointOnCanvas : Type := mkPoint { px : Z; py : Z }.

(** The cast [static_cast<int>(x)] of a [float]: truncation toward zero.
    The language leaves the cast undefined when the truncated value is not
    an [int]; the model then returns the value the x86-64 conversion
    returns, the smallest [int]. *)
Definition float_to_int (x0 : float) : Z :=
  match ftrunc x0 with
  | Some n => if (- 2 ^ 31 <=? n) && (n <? 2 ^ 31) then n else - 2 ^ 31
  | None => - 2 ^ 31
  end.

(** The element [v[n]] of a vector, for an [int] index [n]: none when the
    index is outside the vector, where the read is undefined. *)
Definition vec_get {A : Type} (v : list A) (n : Z) : option A :=
  if 0 <=? n then v !! Z.to_nat n else None.

(** The loop of [Interpolate], with [n] turns left. *)
Fixpoint interpolate_loop (n : nat) (d a : float) (ds : list float) : list float :=
  match n with
  | O => ds
  | S n' => interpolate_loop n' (fadd d a) a (ds ++ [d])
  end.

(** [Interpolate], on [i1] below the largest [int] (on the largest one the
    loop of the program does not end): the vector [ds] after the call. *)
Definition Interpolate (i0 d0 i1 d1 : Z) (ds : list float) : list float :=
  let ds1 := if i0 =? i1 then ds ++ [F32.of_int d0] else ds in
  let a := fdiv (F32.of_int (wrap_int (d1 - d0))) (F32.of_int (wrap_int (i1 - i0))) in
  let d := F32.of_int d0 in
  interpolate_loop (Z.to_nat (i1 - i0 + 1)) d a ds1.

(** The drawing loops of [DrawLine], with [n] turns left: [i] runs along
    the main axis from [first], and the other coordinate is read in [ds]. *)
Fixpoint plot_loop (horizontal : bool) (n : nat) (i first : Z) (ds : list float)
    (color0 : Color) (canvasBuffer : Canvas) : option Canvas :=
  match n with
  | O => Some canvasBuffer
  | S n' =>
      match vec_get ds (Z.lor (wrap_int (i - first)) 0) with
      | None => None
      | Some d =>
          plot_loop horizontal n' (wrap_int (i + 1)) first ds color0
            (if horizontal
             then PutPixel i (float_to_int d) color0 canvasBuffer
             else PutPixel (float_to_int d) i color0 canvasBuffer)
      end
  end.

(** [DrawLine]: the two points as the call leaves them (it exchanges them
    through the references it is given) and the canvas; none when a read
    of [ds] falls outside the vector. *)
Definition DrawLine (p0 p1 : PointOnCanvas) (color0 : Color) (canvasBuffer : Canvas)
  : option (PointOnCanvas * PointOnCanvas * Canvas) :=
  let dx := wrap_int (px p1 - px p0) in
  let dy := wrap_int (py p1 - py p0) in
  if Z.abs dy <? Z.abs dx then
    let '(p0, p1) := if dx <? 0 then (p1, p0) else (p0, p1) in
    let ds := Interpolate (px p0) (py p0) (px p1) (py p1) [] in
    match plot_loop true (Z.to_nat (px p1 - px p0 + 1)) (px p0) (px p0) ds color0
            canvasBuffer with
    | None => None
    | Some buf => Some (p0, p1, buf)
    end
  else
    let '(p0, p1) := if dy <? 0 then (p1, p0) else (p0, p1) in
    let ds := Interpolate (py p0) (px p0) (py p1) (px p1) [] in
    match plot_loop false (Z.to_nat (py p1 - py p0 + 1)) (py p0) (py p0) ds color0
            canvasBuffer with
    | None => None
    | Some buf => Some (p0, p1, buf)
    end.

(** [DrawWireframeTriangle], on three distinct point objects: the points as
    the three calls of [DrawLine] leave them, and the canvas. *)
Definition DrawWireframeTriangle (p0 p1 p2 : PointOnCanvas) (color0 : Color)
    (canvasBuffer : Canvas)
  : option (PointOnCanvas * PointOnCanvas * PointOnCanvas * Canvas) :=
  match DrawLine p0 p1 color0 canvasBuffer with
  | None => None
  | Some (p0, p1, buf) =>
      match DrawLine p1 p2 color0 buf with
      | None => None
      | Some (p1, p2, buf) =>
          match DrawLine p0 p2 color0 buf with
          | None => None
          | Some (p0, p2, buf) => Some (p0, p1, p2, buf)
          end
      end
  end.

(** [x01.pop_back()]: undefined on an empty vector. *)
Definition pop_back {A : Type} (v : list A) : option (list A) :=
  match v with
  | [] => None
  | _ => Some (removelast v)
  end.

(** The rows of [DrawFilledTriangle], with [n] turns left. *)
Fixpoint fill_rows (n : nat) (y0 first : Z) (x_left x_right : list float)
    (color0 : Color) (canvasBuffer : Canvas) : option Canvas :=
  match n with
  | O => Some canvasBuffer
  | S n' =>
      match vec_get x_left (wrap_int (y0 - first)),
            vec_get x_right (wrap_int (y0 - first)) with
      | Some l, Some r0 =>
          fill_rows n' (wrap_int (y0 + 1)) first x_left x_right color0
            (foldl (fun buf x0 => PutPixel x0 y0 color0 buf) canvasBuffer
               (seqZ (float_to_int l) (float_to_int r0 - float_to_int l + 1)))
      | _, _ => None
      end
  end.

Definition DrawFilledTriangle (p0 p1 p2 : PointOnCanvas) (color0 : Color)
    (canvasBuffer : Canvas)
  : option (PointOnCanvas * PointOnCanvas * PointOnCanvas * Canvas) :=
  let '(p0, p1) := if py p1 <? py p0 then (p1, p0) else (p0, p1) in
  let '(p0, p2) := if py p2 <? py p0 then (p2, p0) else (p0, p2) in
  let '(p1, p2) := if py p2 <? py p1 then (p2, p1) else (p1, p2) in
  let x01 := [] in
  let x12 := [] in
  let x02 := [] in
  let x01 := Interpolate (py p0) (px p0) (py p1) (px p1) x01 in
  let x12 := Interpolate (py p1) (px p1) (py p2) (px p2) x12 in
  let x01 := Interpolate (py p0) (px p0) (py p2) (px p2) x01 in
  match pop_back x01 with
  | None => None
  | Some x01 =>
      let x01 := x01 ++ x12 in
      let m := Z.of_nat (length x02) / 2 in
      match vec_get x02 m, vec_get x01 m with
      | Some a, Some c =>
          let '(x_left, x_right) := if flt a c then (x02, x01) else (x01, x02) in
          match fill_rows (Z.to_nat (py p2 - py p0 + 1)) (py p0) (py p0)
                  x_left x_right color0 canvasBuffer with
          | None => None
          | Some buf => Some (p0, p1, p2, buf)
          end
      | _, _ => None
      end
  end.

(** The loop of [WinMain] that fills the canvas with the background
    colour before the triangles are drawn: columns outside, rows inside. *)
Definition fill_background (color0 : Color) (canvasBuffer : Canvas) : Canvas :=
  foldl (fun buf x0 =>
           foldl (fun buf y0 => PutPixel x0 y0 color0 buf) buf
             (seqZ (Z.quot (- CANVAS_HEIGHT) 2)
                (Z.quot CANVAS_HEIGHT 2 - Z.quot (- CANVAS_HEIGHT) 2)))
        canvasBuffer
        (seqZ (Z.quot (- CANVAS_WIDTH) 2)
           (Z.quot CANVAS_WIDTH 2 - Z.quot (- CANVAS_WIDTH) 2)).

(** ** Vocabulary of the statements *)

(** A sphere has a valid root on a ray: one of the two values of
    [IntersectRaySphere] lies strictly inside the bounds. *)
Definition valid_root (origin direction : Vector3) (min_t max_t : float)
    (sphere : Sphere) : bool :=
  strictly_inside min_t max_t (IntersectRaySphere origin direction sphere).1
  || strictly_inside min_t max_t (IntersectRaySphere origin direction sphere).2.

(** The state of the scan of [TraceRay] is sound: a recorded sphere lies in
    the vector at the recorded address, is not the excluded one, and
    [closest_t] is one of its roots, strictly inside the bounds. *)
Definition hit_sound (origin direction : Vector3) (min_t max_t : float)
    (sphere_tag : SpherePtr) (spheres : list Sphere) (closest_t : float)
    (closest_sphere : option (nat * Sphere)) : Prop :=
  match closest_sphere with
  | None => closest_t = INFINITY
  | Some (i, sphere) =>
      spheres !! i = Some sphere /\ sphere_tag <> Some i /\
      strictly_inside min_t max_t closest_t = true /\
      (closest_t = (IntersectRaySphere origin direction sphere).1 \/
       closest_t = (IntersectRaySphere origin direction sphere).2)
  end.

(** No root accepted on the spheres [seen] is smaller than [closest_t]. *)
Definition no_closer (origin direction : Vector3) (min_t max_t : float)
    (sphere_tag : SpherePtr) (seen : list Sphere) (closest_t : float) : Prop :=
  forall i sphere, seen !! i = Some sphere -> sphere_tag <> Some i ->
    (strictly_inside min_t max_t (IntersectRaySphere origin direction sphere).1 = true ->
     flt (IntersectRaySphere origin direction sphere).1 closest_t = false)
    /\ (strictly_inside min_t max_t (IntersectRaySphere origin direction sphere).2 = true ->
        flt (IntersectRaySphere origin direction sphere).2 closest_t = false).

(** The reflected ray at a hit, and the blend of the local and the
    reflected colour, as the last statements of [TraceRay] form them. *)
Definition reflected_origin (origin direction : Vector3) (closest_t : float)
  : Vector3 :=
  hit_point origin direction closest_t.

Definition reflected_direction (origin direction : Vector3) (closest_t : float)
    (sphere : Sphere) : Vector3 :=
  ReflectRayDirection (hit_view direction)
    (hit_normal (hit_point origin direction closest_t) sphere).

Definition blend (sphere : Sphere) (local reflected_color : Color) : Color :=
  Col.Add (Col.Multiply (fsub (F32.of_int 1) (reflective sphere)) local)
          (Col.Multiply (reflective sphere) reflected_color).

(** The device coordinates of a canvas position, the test [PutPixel] makes
    on them, and the offset it writes. *)
Definition device_x (x0 : Z) : Z := Z.quot CANVAS_WIDTH 2 + x0.
Definition device_y (y0 : Z) : Z := Z.quot CANVAS_HEIGHT 2 - y0.

Definition on_canvas (x0 y0 : Z) : bool :=
  (0 <=? device_x x0) && (device_x x0 <? CANVAS_WIDTH)
  && (0 <=? device_y y0) && (device_y y0 <? CANVAS_HEIGHT).

Definition pixel_offset (x0 y0 : Z) : Z := device_x x0 + CANVAS_WIDTH * device_y y0.

(** The canvas position that is written at offset [k]. *)
Definition x_of_offset (k : nat) : Z :=
  Z.of_nat k mod CANVAS_WIDTH - Z.quot CANVAS_WIDTH 2.
Definition y_of_offset (k : nat) : Z :=
  Z.quot CANVAS_HEIGHT 2 - Z.of_nat k / CANVAS_WIDTH.

(** The [COLORREF] that [PutPixel] stores for a colour. *)
Definition colorref (c : Color) : Z := RGB (b c) (g c) (r c).

(** [PutPixel x0 y0] writes offset [k]. *)
Definition writes_to (x0 y0 : Z) (k : nat) : bool :=
  on_canvas x0 y0 && (Z.of_nat k =? pixel_offset x0 y0).

(** A canvas with the offsets selected by [P] overwritten by [v]. *)
Definition paint (P : nat -> bool) (v : nat -> Z) (canvasBuffer : Canvas) : Canvas :=
  imap (fun k old => if P k then v k else old) canvasBuffer.

(** The columns [RenderSection] walks in a row, and the rows of a section. *)
Definition columns : list Z :=
  seqZ (Z.quot (- CANVAS_WIDTH) 2) (Z.quot CANVAS_WIDTH 2 - Z.quot (- CANVAS_WIDTH) 2).

Definition rows (start_y end_y : Z) : list Z := seqZ start_y (end_y - start_y).

(** Some position of the rows [ys] writes offset [k]. *)
Definition rows_write (ys : list Z) (k : nat) : bool :=
  existsb (fun y0 => existsb (fun x0 => writes_to x0 y0 k) columns) ys.

(** The value [RenderSection] stores at offset [k]: the clamped colour of
    the position written there. *)
Definition painted_value (pow : double -> double -> double) (spheres : list Sphere)
    (lights : list Light) (camera_rotation : Matrix3) (camera_position : Vector3)
    (k : nat) : Z :=
  colorref (pixel_color pow spheres lights camera_rotation camera_position
              (x_of_offset k) (y_of_offset k)).

(** Some thread of the schedule writes offset [k]. *)
Definition bands_write (num_threads : Z) (schedule : list Z) (k : nat) : bool :=
  existsb (fun i => rows_write (rows (band num_threads i).1 (band num_threads i).2) k)
          schedule.

(** The sign of a float: [has_sign s x] when the sign bit of [x] is [s];
    a NaN has no sign and passes for both.  [sign_clear x] says that [x] is
    a NaN or has its sign bit clear, and [not_negative x] that [x] is a
    NaN, a zero of either sign, or has its sign bit clear: the floats that
    the test [x < 0] rejects. *)
Definition has_sign (s : bool) (x : spec_float) : Prop :=
  match x with
  | S754_zero s' | S754_infinity s' | S754_finite s' _ _ => s' = s
  | S754_nan => True
  end.

Definition sign_clear (x : spec_float) : Prop := has_sign false x.

Definition not_negative (x : spec_float) : Prop :=
  match x with
  | S754_zero _ => True
  | _ => sign_clear x
  end.

(** Coordinates for which no [int] operation of the rasteriser wraps
    around. *)
Definition small_point (p : PointOnCanvas) : Prop :=
  - 32768 <= px p <= 32768 /\ - 32768 <= py p <= 32768.

(** [DrawLine] takes its first branch: the line is wider than tall. *)
Definition line_horizontal (p0 p1 : PointOnCanvas) : bool :=
  Z.abs (wrap_int (py p1 - py p0)) <? Z.abs (wrap_int (px p1 - px p0)).

(** [DrawLine] exchanges its two points. *)
Definition line_swaps (p0 p1 : PointOnCanvas) : bool :=
  if line_horizontal p0 p1 then wrap_int (px p1 - px p0) <? 0
  else wrap_int (py p1 - py p0) <? 0.

(** The two points as [DrawLine] leaves them. *)
Definition line_order (p0 p1 : PointOnCanvas) : PointOnCanvas * PointOnCanvas :=
  if line_swaps p0 p1 then (p1, p0) else (p0, p1).

(** The positions [DrawLine] plots for two points in drawing order: the
    loop variable paired with the truncated values of [ds]. *)
Definition line_positions (p0 p1 : PointOnCanvas) : list (Z * Z) :=
  if line_horizontal p0 p1
  then zip (seqZ (px p0) (px p1 - px p0 + 1))
           (float_to_int <$> Interpolate (px p0) (py p0) (px p1) (py p1) [])
  else zip (float_to_int <$> Interpolate (py p0) (px p0) (py p1) (px p1) [])
           (seqZ (py p0) (py p1 - py p0 + 1)).

(** One call of [PutPixel] on a position. *)
Definition plot (color0 : Color) (canvasBuffer : Canvas) (p : Z * Z) : Canvas :=
  PutPixel p.1 p.2 color0 canvasBuffer.

(** Some position of [ps] writes offset [k]. *)
Definition positions_write (ps : list (Z * Z)) (k : nat) : bool :=
  existsb (fun p => writes_to p.1 p.2 k) ps.

(** [P] holds of the [n] integers from [m] on. *)
Fixpoint holds_from (P : Z -> bool) (n : nat) (m : Z) : bool :=
  match n with
  | O => true
  | S n' => P m && holds_from P n' (m + 1)
  end.

(** The position of the fraction [A / Dk] between the integers around
    it, as the rounding of the operations records it: exact, or below,
    at, or above the middle. *)
Definition loc_of (A Dk : Z) : location :=
  if A mod Dk =? 0 then loc_Exact else loc_Inexact (2 * (A mod Dk) ?= Dk).

(** A shift record holds the integer part and the position of [A / Dk]. *)
Definition tracks (A Dk : Z) (mrs : shr_record) : Prop :=
  0 < Dk /\ 0 <= A /\ shr_m mrs = A / Dk /\ loc_of_shr_record mrs = loc_of A Dk.

(** The float of a mantissa and an exponent after rounding: zero, a
    finite number, or an infinity past the largest exponent. *)
Definition rounded (s : bool) (R E : Z) : float :=
  match R with
  | Z0 => S754_zero s
  | Zpos p => if E <=? 104 then S754_finite s p E else S754_infinity s
  | Zneg _ => S754_nan
  end.

(** The mantissa and exponent after the second shift of the rounding: a
    mantissa that reached 2^24 moves to the next exponent. *)
Definition renormalized (R E : Z) : Z * Z :=
  if R =? 2 ^ 24 then (2 ^ 23, E + 1) else (R, E).

(** A mantissa and exponent in canonical form for binary32. *)
Definition canonical (R E : Z) : Prop :=
  0 <= R < 2 ^ 24 /\ - 149 <= E /\ (- 149 < E -> 2 ^ 23 <= R).

(** Order on canonical pairs: by exponent, then by mantissa. *)
Definition pair_le (R1 E1 R2 E2 : Z) : Prop :=
  E1 < E2 \/ (E1 = E2 /\ R1 <= R2).

(** The integer nearest to [A / K], ties to even. *)
Definition round_at (A K : Z) : Z := round_nearest_even (A / K) (loc_of A K).

(** The sign of an infinity or of a finite number that is not a zero. *)
Definition sign_of_nonzero (a : float) : option bool :=
  match a with
  | S754_infinity s | S754_finite s _ _ => Some s
  | _ => None
  end.

(** ** Inputs of the examples *)

(** A ray of the scene that misses every sphere, and one that hits the
    first sphere: the rays [RenderSection] casts through the canvas
    positions (0, 250) and (0, -100). *)
Definition ray_up : Vector3 := MultiplyMV CAMERA_ROTATION (CanvasToViewport 0 250).
Definition ray_down : Vector3 := MultiplyMV CAMERA_ROTATION (CanvasToViewport 0 (-100)).

(** A ray cast from inside a sphere of radius 3 along a very long
    direction vector: (1.5 * 2^63, 0, 0) from the origin, the centre being
    (2, 0, 0). *)
Definition long_direction : Vector3 :=
  mkVector3 (S754_finite false 12582912 40) (F32.of_int 0) (F32.of_int 0).

Definition near_sphere : Sphere :=
  mkSphere (vector_lit 2 0 0) (F32.of_int 3) (mkColor 0 0 255) 500 (float_lit 2 10).

(** A point behind the first sphere of the scene, as seen from the point
    light: the centre of the sphere is halfway between them. *)
Definition shadowed_point : Vector3 := vector_lit (-2) (-3) 6.

Definition point_light : Light := mkLight POINT (float_lit 6 10) (vector_lit 2 1 0).

(** A directional light of intensity 2 whose direction vector is
    (2^127, 0, 0). *)
Definition far_light : Light :=
  mkLight DIRECTIONAL (F32.of_int 2)
    (mkVector3 (S754_finite false 8388608 104) (F32.of_int 0) (F32.of_int 0)).

(** A ray cast from far away along a very short direction vector, toward
    the unit sphere at the origin: from (-2^60, 0, 0) along (2^-74, 0, 0). *)
Definition far_origin : Vector3 :=
  mkVector3 (S754_finite true 8388608 37) (F32.of_int 0) (F32.of_int 0).

Definition short_direction : Vector3 :=
  mkVector3 (S754_finite false 8388608 (-97)) (F32.of_int 0) (F32.of_int 0).

Definition unit_sphere : Sphere :=
  mkSphere (vector_lit 0 0 0) (F32.of_int 1) (mkColor 0 0 255) 500 (float_lit 2 10).

(** The first sphere of the scene. *)
Definition red_sphere : Sphere :=
  mkSphere (vector_lit 0 (-1) 3) (F32.of_int 1) (mkColor 0 0 255) 500 (float_lit 2 10).

(** * Properties *)

(** ** Runs of the program *)

Example EPSILON_bits : EPSILON = S754_finite false 8589935 (-33).
Proof. reflexivity. Qed.

(** A ray along the z axis meets the unit sphere centred at (0, 0, 3) at
    distances 4 and 2, the "+" root first. *)
Example IntersectRaySphere_axis :
  IntersectRaySphere (vector_lit 0 0 0) (vector_lit 0 0 1)
    (mkSphere (vector_lit 0 0 3) (F32.of_int 1) (mkColor 0 0 255) 500 (float_lit 2 10))
  = (F32.of_int 4, F32.of_int 2).
Proof. vm_compute. reflexivity. Qed.

(** A ray along the x axis misses it. *)
Example IntersectRaySphere_away :
  IntersectRaySphere (vector_lit 0 0 0) (vector_lit 1 0 0)
    (mkSphere (vector_lit 0 0 3) (F32.of_int 1) (mkColor 0 0 255) 500 (float_lit 2 10))
  = (INFINITY, INFINITY).
Proof. vm_compute. reflexivity. Qed.

Example Clamp_channels : Col.Clamp (mkColor 300 7 255) = mkColor 255 7 255.
Proof. reflexivity. Qed.

Example Multiply_truncates :
  Col.Multiply (float_lit 1 2) (mkColor 0 255 3) = mkColor 0 127 1.
Proof. vm_compute. reflexivity. Qed.

(** The colours of two pixels of the scene, and the activations the second
    one needs. *)
Example pixel_sky :
  pixel_color pow_by_squaring SPHERES LIGHTS CAMERA_ROTATION CAMERA_POSITION 0 250
  = mkColor 0 0 0.
Proof. vm_compute. reflexivity. Qed.

Example pixel_red_sphere :
  pixel_color pow_by_squaring SPHERES LIGHTS CAMERA_ROTATION CAMERA_POSITION 0 (-100)
  = mkColor 7 0 83.
Proof. vm_compute. reflexivity. Qed.

Example pixel_red_sphere_frames :
  map (fun fuel => TraceRay_fuel pow_by_squaring fuel CAMERA_POSITION ray_down
                     (F32.of_int 1) INFINITY SPHERES LIGHTS RECURSION_DEPTH None)
      [2; 3; 4]%nat
  = [None; Some (mkColor 7 0 83); Some (mkColor 7 0 83)].
Proof. vm_compute. reflexivity. Qed.

(** The bands of the sixteen threads of [WinMain]: 37 rows each, the last
    one taking the 45 rows that remain. *)
Example bands_of_sixteen :
  map (band 16) [0; 1; 14; 15]
  = [(-300, -263); (-263, -226); (218, 255); (255, 300)].
Proof. vm_compute. reflexivity. Qed.

(** The row y = -300 of the first band lies below the canvas. *)
Example lowest_row_off_canvas : on_canvas 0 (-300) = false.
Proof. reflexivity. Qed.

(** ** Comparisons of floats *)

Lemma flt_below_infinity (t hi : float) : flt t hi = true -> flt t INFINITY = true.
Proof.
  unfold F32.ltb, SFltb, INFINITY, F32.infinity.
  destruct t as [s|s| |s m e], hi as [s'|s'| |s' m' e']; simpl;
    try discriminate; try reflexivity; destruct s; try reflexivity;
    destruct s'; simpl; discriminate.
Qed.

Lemma flt_irrefl (a : float) : flt a a = false.
Proof.
  destruct a as [s|[]| |[] m e]; simpl; try reflexivity;
    unfold F32.ltb, SFltb; simpl; rewrite Z.compare_refl, Pos.compare_cont_refl;
    reflexivity.
Qed.

Lemma finite_lt_trans (e1 e2 e3 : Z) (m1 m2 m3 : positive) :
  match e1 ?= e2 with Lt => Lt | Gt => Gt | Eq => Pos.compare_cont Eq m1 m2 end = Lt ->
  match e2 ?= e3 with Lt => Lt | Gt => Gt | Eq => Pos.compare_cont Eq m2 m3 end = Lt ->
  match e1 ?= e3 with Lt => Lt | Gt => Gt | Eq => Pos.compare_cont Eq m1 m3 end = Lt.
Proof.
  change (Pos.compare_cont Eq m1 m2) with (m1 ?= m2)%positive.
  change (Pos.compare_cont Eq m2 m3) with (m2 ?= m3)%positive.
  change (Pos.compare_cont Eq m1 m3) with (m1 ?= m3)%positive.
  destruct (Z.compare_spec e1 e2), (Z.compare_spec e2 e3), (Z.compare_spec e1 e3);
    try discriminate; try reflexivity; try lia;
    rewrite ?Pos.compare_lt_iff; lia.
Qed.

Lemma finite_gt_trans (e1 e2 e3 : Z) (m1 m2 m3 : positive) :
  match e1 ?= e2 with Lt => Gt | Gt => Lt | Eq => CompOpp (Pos.compare_cont Eq m1 m2) end = Lt ->
  match e2 ?= e3 with Lt => Gt | Gt => Lt | Eq => CompOpp (Pos.compare_cont Eq m2 m3) end = Lt ->
  match e1 ?= e3 with Lt => Gt | Gt => Lt | Eq => CompOpp (Pos.compare_cont Eq m1 m3) end = Lt.
Proof.
  change (Pos.compare_cont Eq m1 m2) with (m1 ?= m2)%positive.
  change (Pos.compare_cont Eq m2 m3) with (m2 ?= m3)%positive.
  change (Pos.compare_cont Eq m1 m3) with (m1 ?= m3)%positive.
  destruct (Z.compare_spec e1 e2), (Z.compare_spec e2 e3), (Z.compare_spec e1 e3);
    try discriminate; try reflexivity; try lia;
    destruct (Pos.compare_spec m1 m2), (Pos.compare_spec m2 m3),
      (Pos.compare_spec m1 m3); simpl; try discriminate; try reflexivity; lia.
Qed.

Lemma flt_trans (a c d : float) :
  flt a c = true -> flt c d = true -> flt a d = true.
Proof.
  unfold F32.ltb, SFltb.
  destruct a as [sa|sa| |sa ma ea], c as [sc|sc| |sc mc ec], d as [sd|sd| |sd md ed];
    simpl; try discriminate; try reflexivity;
    try (destruct sa; simpl; try discriminate; try reflexivity);
    try (destruct sc; simpl; try discriminate; try reflexivity);
    try (destruct sd; simpl; try discriminate; try reflexivity).
  - intros H1 H2.
    rewrite (finite_gt_trans ea ec ed ma mc md); [reflexivity| |].
    + destruct (match ea ?= ec with Lt => Gt | Gt => Lt | Eq => _ end); congruence.
    + destruct (match ec ?= ed with Lt => Gt | Gt => Lt | Eq => _ end); congruence.
  - intros H1 H2.
    rewrite (finite_lt_trans ea ec ed ma mc md); [reflexivity| |].
    + destruct (match ea ?= ec with Lt => Lt | Gt => Gt | Eq => _ end); congruence.
    + destruct (match ec ?= ed with Lt => Lt | Gt => Gt | Eq => _ end); congruence.
Qed.

Lemma strictly_inside_spec (lo hi t : float) :
  strictly_inside lo hi t = true <-> flt lo t = true /\ flt t hi = true.
Proof. unfold strictly_inside. apply andb_true_iff. Qed.

(** The discriminant that [IntersectRaySphere] tests is [ray_discriminant]. *)
Lemma IntersectRaySphere_discriminant (origin direction : Vector3) (sphere : Sphere) :
  flt (ray_discriminant origin direction sphere) (F32.of_int 0) = true ->
  IntersectRaySphere origin direction sphere = (INFINITY, INFINITY).
Proof.
  intros H. unfold IntersectRaySphere.
  change (flt (ray_discriminant origin direction sphere) (F32.of_int 0))
    with (flt (fsub (fmul (fmul (F32.of_int 2)
                             (DotProduct (Subtract origin (center sphere)) direction))
                          (fmul (F32.of_int 2)
                             (DotProduct (Subtract origin (center sphere)) direction)))
                    (fmul (fmul (F32.of_int 4) (DotProduct direction direction))
                          (fsub (DotProduct (Subtract origin (center sphere))
                                   (Subtract origin (center sphere)))
                                (fmul (radius sphere) (radius sphere)))))
               (F32.of_int 0)) in H.
  cbv zeta. now rewrite H.
Qed.

(** ** The scan for the closest intersection *)

Section Scan.

Variables (origin direction : Vector3) (min_t max_t : float) (sphere_tag : SpherePtr).

(** The scan leaves its state alone when nothing it meets has a valid root. *)
Lemma closest_scan_miss (spheres : list Sphere) :
  forall (idx : nat) (closest_t : float) (closest_sphere : option (nat * Sphere)),
    (forall i sphere, spheres !! i = Some sphere -> sphere_tag <> Some (idx + i)%nat ->
                      valid_root origin direction min_t max_t sphere = false) ->
    closest_scan origin direction min_t max_t sphere_tag idx spheres
      closest_t closest_sphere = (closest_t, closest_sphere).
Proof.
  induction spheres as [|sphere rest IH]; intros idx ct cs Hmiss;
    cbn [closest_scan]; [reflexivity|].
  assert (Hrest : forall i s, rest !! i = Some s ->
                              sphere_tag <> Some (S idx + i)%nat ->
                              valid_root origin direction min_t max_t s = false).
  { intros i s Hi Htag. apply (Hmiss (S i) s); [exact Hi|].
    now replace (idx + S i)%nat with (S idx + i)%nat by lia. }
  destruct (decide (sphere_tag = Some idx)) as [Heq|Hne]; [now apply IH|].
  assert (Hv : valid_root origin direction min_t max_t sphere = false).
  { apply (Hmiss 0%nat sphere); [reflexivity|]. now rewrite Nat.add_0_r. }
  unfold valid_root, strictly_inside in Hv. apply orb_false_iff in Hv as [H1 H2].
  rewrite <- andb_assoc, H1, andb_false_r.
  rewrite <- andb_assoc, H2, andb_false_r.
  now apply IH.
Qed.

(** Once a sphere is recorded, one stays recorded. *)
Lemma closest_scan_keeps_hit (spheres : list Sphere) :
  forall (idx : nat) (closest_t : float) (hit : nat * Sphere),
    exists t' hit',
      closest_scan origin direction min_t max_t sphere_tag idx spheres
        closest_t (Some hit) = (t', Some hit').
Proof.
  induction spheres as [|sphere rest IH]; intros idx ct hit;
    cbn [closest_scan]; [eauto|].
  destruct (decide (sphere_tag = Some idx)); [apply IH|].
  repeat match goal with |- context [if ?c then _ else _] => destruct c end; apply IH.
Qed.

Lemma closest_scan_sound (rest : list Sphere) :
  forall (done : list Sphere) (closest_t : float)
         (closest_sphere : option (nat * Sphere)),
    hit_sound origin direction min_t max_t sphere_tag (done ++ rest) closest_t closest_sphere ->
    let res := closest_scan origin direction min_t max_t sphere_tag
                 (length done) rest closest_t closest_sphere in
    hit_sound origin direction min_t max_t sphere_tag (done ++ rest) res.1 res.2.
Proof.
  induction rest as [|sphere rest IH]; intros done ct cs Hs;
    cbn [closest_scan]; [exact Hs|].
  assert (Hstep : forall ct' cs',
            hit_sound origin direction min_t max_t sphere_tag
              (done ++ sphere :: rest) ct' cs' ->
            hit_sound origin direction min_t max_t sphere_tag (done ++ sphere :: rest)
              (closest_scan origin direction min_t max_t sphere_tag
                 (S (length done)) rest ct' cs').1
              (closest_scan origin direction min_t max_t sphere_tag
                 (S (length done)) rest ct' cs').2).
  { intros ct' cs' Hs'.
    specialize (IH (done ++ [sphere]) ct' cs').
    rewrite <- app_assoc in IH. cbn [app] in IH.
    rewrite length_app in IH. cbn [length] in IH.
    replace (length done + 1)%nat with (S (length done)) in IH by lia.
    now apply IH. }
  destruct (decide (sphere_tag = Some (length done))) as [Heq|Hne]; [now apply Hstep|].
  assert (Hhere : (done ++ sphere :: rest) !! length done = Some sphere).
  { rewrite lookup_app_r by lia. now rewrite Nat.sub_diag. }
  set (ts := IntersectRaySphere origin direction sphere).
  destruct (flt ts.1 ct && flt min_t ts.1 && flt ts.1 max_t) eqn:E1;
    cbv beta iota zeta;
    match goal with
    | |- context [if ?c then _ else _] => destruct c eqn:E2
    end;
    cbv beta iota zeta; apply Hstep;
    repeat match goal with
           | H : _ && _ = true |- _ => apply andb_true_iff in H as [? ?]
           end;
    try exact Hs;
    simpl; repeat split; auto; unfold strictly_inside;
    apply andb_true_iff; split; assumption.
Qed.

(** From its initial state, the scan records a sphere as soon as one with
    a valid root is met. *)
Lemma closest_scan_finds (spheres : list Sphere) :
  forall idx : nat,
    (exists i sphere, spheres !! i = Some sphere /\
                      sphere_tag <> Some (idx + i)%nat /\
                      valid_root origin direction min_t max_t sphere = true) ->
    exists t hit,
      closest_scan origin direction min_t max_t sphere_tag idx spheres
        INFINITY None = (t, Some hit).
Proof.
  induction spheres as [|sphere rest IH]; intros idx (i & s & Hi & Htag & Hv).
  - rewrite lookup_nil in Hi. discriminate.
  - cbn [closest_scan].
    assert (Hrest : i <> 0%nat ->
              exists t hit,
                closest_scan origin direction min_t max_t sphere_tag (S idx) rest
                  INFINITY None = (t, Some hit)).
    { intros Hpos. apply IH. destruct i as [|j]; [congruence|].
      exists j, s. repeat split; auto.
      now replace (S idx + j)%nat with (idx + S j)%nat by lia. }
    destruct (decide (sphere_tag = Some idx)) as [Heq|Hne].
    { apply Hrest. intros ->. now rewrite Nat.add_0_r in Htag. }
    set (ts := IntersectRaySphere origin direction sphere).
    destruct (flt ts.1 INFINITY && flt min_t ts.1 && flt ts.1 max_t) eqn:E1;
      cbv beta iota zeta.
    { match goal with
      | |- context [if ?c then _ else _] => destruct c
      end; apply closest_scan_keeps_hit. }
    destruct (flt ts.2 INFINITY && flt min_t ts.2 && flt ts.2 max_t) eqn:E2;
      cbv beta iota zeta; [apply closest_scan_keeps_hit|].
    apply Hrest. intros ->. simpl in Hi. injection Hi as <-.
    unfold valid_root in Hv. fold ts in Hv.
    apply orb_true_iff in Hv as [Hv|Hv];
      apply strictly_inside_spec in Hv as [Ha Hb];
      [ rewrite (flt_below_infinity _ _ Hb), Ha, Hb in E1
      | rewrite (flt_below_infinity _ _ Hb), Ha, Hb in E2 ]; discriminate.
Qed.

(** The scan of the whole vector misses exactly when no sphere other than
    the excluded one has a valid root. *)
Lemma ClosestIntersection_miss_iff (spheres : list Sphere) :
  (ClosestIntersection origin direction min_t max_t spheres sphere_tag).2 = None
  <-> (forall i sphere, spheres !! i = Some sphere -> sphere_tag <> Some i ->
                        valid_root origin direction min_t max_t sphere = false).
Proof.
  unfold ClosestIntersection. split.
  - intros Hnone i sphere Hi Htag.
    destruct (valid_root origin direction min_t max_t sphere) eqn:Hv; [|reflexivity].
    destruct (closest_scan_finds spheres 0) as (t & hit & Hscan).
    { exists i, sphere. now repeat split. }
    rewrite Hscan in Hnone. discriminate.
  - intros Hmiss. now rewrite closest_scan_miss.
Qed.

Lemma ClosestIntersection_miss (spheres : list Sphere) :
  (forall i sphere, spheres !! i = Some sphere -> sphere_tag <> Some i ->
                    valid_root origin direction min_t max_t sphere = false) ->
  ClosestIntersection origin direction min_t max_t spheres sphere_tag
  = (INFINITY, None).
Proof. intros Hmiss. unfold ClosestIntersection. now rewrite closest_scan_miss. Qed.

(** What a hit is: the recorded sphere is an element of the vector other
    than the excluded one, and the recorded distance is one of its two
    roots, strictly inside the bounds. *)
Lemma ClosestIntersection_hit (spheres : list Sphere) (closest_t : float)
    (i : nat) (sphere : Sphere) :
  ClosestIntersection origin direction min_t max_t spheres sphere_tag
  = (closest_t, Some (i, sphere)) ->
  spheres !! i = Some sphere /\ sphere_tag <> Some i /\
  strictly_inside min_t max_t closest_t = true /\
  (closest_t = (IntersectRaySphere origin direction sphere).1 \/
   closest_t = (IntersectRaySphere origin direction sphere).2).
Proof.
  intros Hscan. unfold ClosestIntersection in Hscan.
  pose proof (closest_scan_sound spheres [] INFINITY None eq_refl) as Hs.
  simpl in Hs. rewrite Hscan in Hs. exact Hs.
Qed.

(** The test of the loop, on one root: the new value of [closest_t] is not
    above a root that was not below the old value, and not above the root
    itself when the bounds accept it. *)
Lemma closer_update (ct root t' : float) :
  let ct' := if flt root ct && flt min_t root && flt root max_t then root else ct in
  (flt t' ct = false -> flt t' ct' = false)
  /\ (strictly_inside min_t max_t root = true -> flt root ct' = false).
Proof.
  unfold strictly_inside.
  destruct (flt root ct) eqn:Hlt, (flt min_t root), (flt root max_t);
    cbn [andb]; split; intros H; try discriminate; try exact H;
    try apply flt_irrefl; try exact Hlt.
  destruct (flt t' root) eqn:Ht; [|reflexivity].
  rewrite (flt_trans _ _ _ Ht Hlt) in H. discriminate.
Qed.

Lemma no_closer_skip (seen : list Sphere) (sphere : Sphere) (ct : float) :
  sphere_tag = Some (length seen) ->
  no_closer origin direction min_t max_t sphere_tag seen ct ->
  no_closer origin direction min_t max_t sphere_tag (seen ++ [sphere]) ct.
Proof.
  intros Htag Hseen i s Hi Hne.
  destruct (lookup_app_Some seen [sphere] i s) as [[H|[Hlen H]] _]; [exact Hi| |].
  - now apply (Hseen i s).
  - destruct (i - length seen)%nat as [|n] eqn:En; [|discriminate H].
    exfalso. apply Hne. rewrite Htag. f_equal. lia.
Qed.

Lemma no_closer_step (seen : list Sphere) (sphere : Sphere) (ct ct' : float) :
  no_closer origin direction min_t max_t sphere_tag seen ct ->
  (forall t', flt t' ct = false -> flt t' ct' = false) ->
  (strictly_inside min_t max_t (IntersectRaySphere origin direction sphere).1 = true ->
   flt (IntersectRaySphere origin direction sphere).1 ct' = false) ->
  (strictly_inside min_t max_t (IntersectRaySphere origin direction sphere).2 = true ->
   flt (IntersectRaySphere origin direction sphere).2 ct' = false) ->
  no_closer origin direction min_t max_t sphere_tag (seen ++ [sphere]) ct'.
Proof.
  intros Hseen Hmono H1 H2 i s Hi Hne.
  destruct (lookup_app_Some seen [sphere] i s) as [[H|[Hlen H]] _]; [exact Hi| |].
  - destruct (Hseen i s H Hne) as [Ha Hb]. split; intros Hv; apply Hmono; auto.
  - destruct (i - length seen)%nat as [|n]; [|discriminate H].
    injection H as <-. split; assumption.
Qed.

(** The scan keeps the smallest accepted root. *)
Lemma closest_scan_minimal (rest : list Sphere) :
  forall (seen : list Sphere) (closest_t : float)
         (closest_sphere : option (nat * Sphere)),
    no_closer origin direction min_t max_t sphere_tag seen closest_t ->
    no_closer origin direction min_t max_t sphere_tag (seen ++ rest)
      (closest_scan origin direction min_t max_t sphere_tag (length seen) rest
         closest_t closest_sphere).1.
Proof.
  induction rest as [|sphere rest IH]; intros seen ct cs Hseen;
    cbn [closest_scan]; [now rewrite app_nil_r|].
  assert (Hnext : forall ct' cs',
            no_closer origin direction min_t max_t sphere_tag (seen ++ [sphere]) ct' ->
            no_closer origin direction min_t max_t sphere_tag (seen ++ sphere :: rest)
              (closest_scan origin direction min_t max_t sphere_tag
                 (S (length seen)) rest ct' cs').1).
  { intros ct' cs' Hs'. specialize (IH (seen ++ [sphere]) ct' cs' Hs').
    rewrite <- app_assoc, length_app in IH. cbn [app length] in IH.
    now replace (length seen + 1)%nat with (S (length seen)) in IH by lia. }
  destruct (decide (sphere_tag = Some (length seen))) as [Heq|Hne].
  { apply Hnext. now apply no_closer_skip. }
  set (ts := IntersectRaySphere origin direction sphere).
  pose proof (fun t' => closer_update ct ts.1 t') as U1.
  cbv zeta in U1.
  destruct (flt ts.1 ct && flt min_t ts.1 && flt ts.1 max_t); cbv beta iota zeta.
  - pose proof (fun t' => closer_update ts.1 ts.2 t') as U2. cbv zeta in U2.
    destruct (flt ts.2 ts.1 && flt min_t ts.2 && flt ts.2 max_t);
      cbv beta iota zeta; apply Hnext;
      apply (no_closer_step seen sphere ct); auto;
      try (intros t' Ht'; apply U2, U1, Ht');
      try (intros Hv; apply (U2 ts.1), (U1 ts.1), Hv);
      try (intros Hv; apply (U2 ts.2), Hv);
      try (intros t' Ht'; apply U1, Ht');
      try (intros Hv; apply (U1 ts.1), Hv).
  - pose proof (fun t' => closer_update ct ts.2 t') as U2. cbv zeta in U2.
    destruct (flt ts.2 ct && flt min_t ts.2 && flt ts.2 max_t);
      cbv beta iota zeta; apply Hnext;
      apply (no_closer_step seen sphere ct); auto;
      try (intros t' Ht'; apply U2, U1, Ht');
      try (intros Hv; apply (U2 ts.1), (U1 ts.1), Hv);
      try (intros Hv; apply (U2 ts.2), Hv);
      try (intros t' Ht'; apply U1, Ht');
      try (intros Hv; apply (U1 ts.1), Hv).
Qed.

(** The distance [ClosestIntersection] returns is the closest: no sphere
    other than the excluded one has an accepted root below it. *)
Lemma ClosestIntersection_closest (spheres : list Sphere) :
  no_closer origin direction min_t max_t sphere_tag spheres
    (ClosestIntersection origin direction min_t max_t spheres sphere_tag).1.
Proof.
  unfold ClosestIntersection.
  apply (closest_scan_minimal spheres [] INFINITY None).
  intros i s Hi. rewrite lookup_nil in Hi. discriminate.
Qed.

End Scan.

(** ** The recursion of [TraceRay] *)

Lemma fle_zero_of_positive (a : float) :
  flt (F32.of_int 0) a = true -> fle a (F32.of_int 0) = false.
Proof. destruct a as [s|[]| |[] m e]; simpl; intros H; try discriminate; reflexivity. Qed.

Section Recursion.

Variable pow : double -> double -> double.

Variables (origin direction : Vector3) (min_t max_t : float).
Variables (spheres : list Sphere) (lights : list Light).

(** The three ways out of one activation. *)
Lemma TraceRay_fuel_miss (fuel : nat) (depth : Z) (sphere_tag : SpherePtr) (t : float) :
  ClosestIntersection origin direction min_t max_t spheres sphere_tag = (t, None) ->
  TraceRay_fuel pow (S fuel) origin direction min_t max_t spheres lights depth
    sphere_tag = Some BACKGROUND_COLOR.
Proof. intros H. cbn [TraceRay_fuel]. now rewrite H. Qed.

Lemma TraceRay_fuel_local (fuel : nat) (depth : Z) (sphere_tag : SpherePtr)
    (t : float) (hit : nat * Sphere) :
  ClosestIntersection origin direction min_t max_t spheres sphere_tag
  = (t, Some hit) ->
  fle (reflective hit.2) (F32.of_int 0) || (depth <=? 0) = true ->
  TraceRay_fuel pow (S fuel) origin direction min_t max_t spheres lights depth
    sphere_tag
  = Some (local_color pow origin direction t spheres lights hit).
Proof.
  intros H Hb. cbn [TraceRay_fuel]. rewrite H. cbv beta iota zeta.
  now rewrite Hb.
Qed.

Lemma TraceRay_fuel_reflect (fuel : nat) (depth : Z) (sphere_tag : SpherePtr)
    (t : float) (hit : nat * Sphere) :
  ClosestIntersection origin direction min_t max_t spheres sphere_tag
  = (t, Some hit) ->
  fle (reflective hit.2) (F32.of_int 0) || (depth <=? 0) = false ->
  TraceRay_fuel pow (S fuel) origin direction min_t max_t spheres lights depth
    sphere_tag
  = match TraceRay_fuel pow fuel (reflected_origin origin direction t)
            (reflected_direction origin direction t hit.2)
            EPSILON INFINITY spheres lights (depth - 1) (Some hit.1) with
    | None => None
    | Some reflected_color =>
        Some (blend hit.2 (local_color pow origin direction t spheres lights hit)
                reflected_color)
    end.
Proof.
  intros H Hb. cbn [TraceRay_fuel]. rewrite H. cbv beta iota zeta.
  now rewrite Hb.
Qed.

End Recursion.

Section Termination.

Variable pow : double -> double -> double.
Variables (spheres : list Sphere) (lights : list Light).

(** One frame more than the depth budget is enough on every input. *)
Lemma TraceRay_fuel_total (fuel : nat) :
  forall (origin direction : Vector3) (min_t max_t : float) (depth : Z)
         (sphere_tag : SpherePtr),
    (Z.to_nat depth < fuel)%nat ->
    is_Some (TraceRay_fuel pow fuel origin direction min_t max_t spheres lights
               depth sphere_tag).
Proof.
  induction fuel as [|fuel IH]; intros origin direction min_t max_t depth tag Hlt; [lia|].
  destruct (ClosestIntersection origin direction min_t max_t spheres tag)
    as [t [hit|]] eqn:Hscan.
  - destruct (fle (reflective hit.2) (F32.of_int 0) || (depth <=? 0)) eqn:Hb.
    + erewrite TraceRay_fuel_local by eassumption. eauto.
    + erewrite TraceRay_fuel_reflect by eassumption.
      apply orb_false_iff in Hb as [_ Hd]. apply Z.leb_gt in Hd.
      destruct (IH (reflected_origin origin direction t)
                   (reflected_direction origin direction t hit.2)
                   EPSILON INFINITY (depth - 1) (Some hit.1)) as [c Hc]; [lia|].
      rewrite Hc. eauto.
  - erewrite TraceRay_fuel_miss by eassumption. eauto.
Qed.

(** A result does not depend on the frames left over. *)
Lemma TraceRay_fuel_mono (fuel : nat) :
  forall (origin direction : Vector3) (min_t max_t : float) (depth : Z)
         (sphere_tag : SpherePtr) (c : Color),
    TraceRay_fuel pow fuel origin direction min_t max_t spheres lights depth
      sphere_tag = Some c ->
    forall fuel' : nat, (fuel <= fuel')%nat ->
    TraceRay_fuel pow fuel' origin direction min_t max_t spheres lights depth
      sphere_tag = Some c.
Proof.
  induction fuel as [|fuel IH]; intros origin direction min_t max_t depth tag c Hc
    fuel' Hle; [discriminate|].
  destruct fuel' as [|fuel']; [lia|].
  destruct (ClosestIntersection origin direction min_t max_t spheres tag)
    as [t [hit|]] eqn:Hscan.
  - destruct (fle (reflective hit.2) (F32.of_int 0) || (depth <=? 0)) eqn:Hb.
    + erewrite TraceRay_fuel_local in Hc |- * by eassumption. exact Hc.
    + erewrite TraceRay_fuel_reflect in Hc |- * by eassumption.
      destruct (TraceRay_fuel pow fuel _ _ _ _ _ _ _ _) as [rc|] eqn:Hrc;
        [|discriminate].
      rewrite (IH _ _ _ _ _ _ _ Hrc fuel') by lia. exact Hc.
  - erewrite TraceRay_fuel_miss in Hc |- * by eassumption. exact Hc.
Qed.

Lemma TraceRay_fuel_enough (fuel : nat) (origin direction : Vector3)
    (min_t max_t : float) (depth : Z) (sphere_tag : SpherePtr) :
  (Z.to_nat depth < fuel)%nat ->
  TraceRay_fuel pow fuel origin direction min_t max_t spheres lights depth sphere_tag
  = Some (TraceRay pow origin direction min_t max_t spheres lights depth sphere_tag).
Proof.
  intros Hlt. unfold TraceRay.
  destruct (TraceRay_fuel_total (S (Z.to_nat depth)) origin direction min_t max_t
              depth sphere_tag) as [c Hc]; [lia|].
  rewrite Hc. simpl. apply (TraceRay_fuel_mono _ _ _ _ _ _ _ _ Hc). lia.
Qed.

(** The equations of [TraceRay], as the body of the C++ function reads. *)
Lemma TraceRay_miss (origin direction : Vector3) (min_t max_t : float)
    (depth : Z) (sphere_tag : SpherePtr) (t : float) :
  ClosestIntersection origin direction min_t max_t spheres sphere_tag = (t, None) ->
  TraceRay pow origin direction min_t max_t spheres lights depth sphere_tag
  = BACKGROUND_COLOR.
Proof.
  intros H. unfold TraceRay. now erewrite TraceRay_fuel_miss by eassumption.
Qed.

Lemma TraceRay_local (origin direction : Vector3) (min_t max_t : float)
    (depth : Z) (sphere_tag : SpherePtr) (t : float) (hit : nat * Sphere) :
  ClosestIntersection origin direction min_t max_t spheres sphere_tag
  = (t, Some hit) ->
  fle (reflective hit.2) (F32.of_int 0) || (depth <=? 0) = true ->
  TraceRay pow origin direction min_t max_t spheres lights depth sphere_tag
  = local_color pow origin direction t spheres lights hit.
Proof.
  intros H Hb. unfold TraceRay. now erewrite TraceRay_fuel_local by eassumption.
Qed.

Lemma TraceRay_reflect (origin direction : Vector3) (min_t max_t : float)
    (depth : Z) (sphere_tag : SpherePtr) (t : float) (hit : nat * Sphere) :
  ClosestIntersection origin direction min_t max_t spheres sphere_tag
  = (t, Some hit) ->
  fle (reflective hit.2) (F32.of_int 0) || (depth <=? 0) = false ->
  TraceRay pow origin direction min_t max_t spheres lights depth sphere_tag
  = blend hit.2 (local_color pow origin direction t spheres lights hit)
      (TraceRay pow (reflected_origin origin direction t)
         (reflected_direction origin direction t hit.2) EPSILON INFINITY
         spheres lights (depth - 1) (Some hit.1)).
Proof.
  intros H Hb.
  assert (Hd : 0 < depth).
  { apply orb_false_iff in Hb as [_ Hd]. now apply Z.leb_gt in Hd. }
  unfold TraceRay at 1.
  erewrite TraceRay_fuel_reflect by eassumption.
  rewrite TraceRay_fuel_enough by lia. reflexivity.
Qed.

End Termination.

(** ** The colour of a ray *)

(** C1.  A ray on which no sphere other than the excluded one has a root
    strictly inside (min_t, max_t) is given the background colour, whatever
    the lights, the depth and the excluded sphere; the run needs a single
    activation of [TraceRay]. *)
Theorem C1_TraceRay_miss_is_background
    (pow : double -> double -> double) (origin direction : Vector3)
    (min_t max_t : float) (spheres : list Sphere) (lights : list Light)
    (depth : Z) (sphere_tag : SpherePtr) :
  (forall i sphere, spheres !! i = Some sphere -> sphere_tag <> Some i ->
     strictly_inside min_t max_t (IntersectRaySphere origin direction sphere).1 = false
     /\ strictly_inside min_t max_t (IntersectRaySphere origin direction sphere).2 = false) ->
  TraceRay pow origin direction min_t max_t spheres lights depth sphere_tag
  = BACKGROUND_COLOR
  /\ forall fuel : nat,
       TraceRay_fuel pow (S fuel) origin direction min_t max_t spheres lights depth
         sphere_tag = Some BACKGROUND_COLOR.
Proof.
  intros Hmiss.
  assert (Hscan : ClosestIntersection origin direction min_t max_t spheres sphere_tag
                  = (INFINITY, None)).
  { apply ClosestIntersection_miss. intros i sphere Hi Htag.
    destruct (Hmiss i sphere Hi Htag) as [H1 H2].
    unfold valid_root. now rewrite H1, H2. }
  split.
  - eapply TraceRay_miss, Hscan.
  - intros fuel. eapply TraceRay_fuel_miss, Hscan.
Qed.

Lemma C1_witness :
  TraceRay pow_by_squaring CAMERA_POSITION ray_up (F32.of_int 1) INFINITY SPHERES
    LIGHTS RECURSION_DEPTH None = BACKGROUND_COLOR.
Proof.
  apply (C1_TraceRay_miss_is_background pow_by_squaring CAMERA_POSITION ray_up
           (F32.of_int 1) INFINITY SPHERES LIGHTS RECURSION_DEPTH None).
  intros i sphere Hi _.
  do 4 (destruct i as [|i]; [injection Hi as <-; split; vm_compute; reflexivity|]).
  discriminate Hi.
Defined.

(** C2.  When the scan records a closest sphere whose [reflective] is
    positive and the depth is positive, the colour is
    Add(Multiply(1 - reflective, local_color), Multiply(reflective,
    reflected_color)), the reflected colour being that of [TraceRay] from
    the hit point along ReflectRayDirection(view, normal), between EPSILON
    and INFINITY, at depth - 1, with the hit sphere excluded. *)
Theorem C2_TraceRay_reflective_blend
    (pow : double -> double -> double) (origin direction : Vector3)
    (min_t max_t : float) (spheres : list Sphere) (lights : list Light)
    (depth : Z) (sphere_tag : SpherePtr)
    (closest_t : float) (i : nat) (sphere : Sphere) :
  ClosestIntersection origin direction min_t max_t spheres sphere_tag
  = (closest_t, Some (i, sphere)) ->
  flt (F32.of_int 0) (reflective sphere) = true ->
  0 < depth ->
  let point := Add origin (Multiply closest_t direction) in
  let normal :=
    Multiply (fdiv (F32.of_int 1) (Length (Subtract point (center sphere))))
      (Subtract point (center sphere)) in
  let view := Multiply (F32.of_int (-1)) direction in
  let local :=
    Col.Multiply
      (ComputeLighting pow point normal view lights spheres (specular sphere) (Some i))
      (color sphere) in
  let reflected_color :=
    TraceRay pow point (ReflectRayDirection view normal) EPSILON INFINITY spheres
      lights (depth - 1) (Some i) in
  TraceRay pow origin direction min_t max_t spheres lights depth sphere_tag
  = Col.Add (Col.Multiply (fsub (F32.of_int 1) (reflective sphere)) local)
            (Col.Multiply (reflective sphere) reflected_color).
Proof.
  intros Hscan Hr Hd point normal view local reflected_color.
  apply (TraceRay_reflect pow spheres lights _ _ _ _ _ _ _ _ Hscan).
  cbn [snd]. rewrite (fle_zero_of_positive _ Hr).
  apply Z.leb_gt. exact Hd.
Qed.

Lemma C2_witness :
  TraceRay pow_by_squaring CAMERA_POSITION ray_down (F32.of_int 1) INFINITY SPHERES
    LIGHTS RECURSION_DEPTH None = mkColor 7 0 83.
Proof.
  etransitivity.
  - eapply (C2_TraceRay_reflective_blend pow_by_squaring CAMERA_POSITION ray_down
              (F32.of_int 1) INFINITY SPHERES LIGHTS RECURSION_DEPTH None).
    + vm_compute. reflexivity.
    + vm_compute. reflexivity.
    + reflexivity.
  - vm_compute. reflexivity.
Defined.

(** C3.  When the scan records a closest sphere and either its
    [reflective] is at most zero or the depth is at most zero, the colour
    is the local colour Multiply(light_intensity, sphere.color), unclamped,
    and the run makes no recursive call: a single activation returns it. *)
Theorem C3_TraceRay_local_only
    (pow : double -> double -> double) (origin direction : Vector3)
    (min_t max_t : float) (spheres : list Sphere) (lights : list Light)
    (depth : Z) (sphere_tag : SpherePtr)
    (closest_t : float) (i : nat) (sphere : Sphere) :
  ClosestIntersection origin direction min_t max_t spheres sphere_tag
  = (closest_t, Some (i, sphere)) ->
  fle (reflective sphere) (F32.of_int 0) = true \/ depth <= 0 ->
  let point := Add origin (Multiply closest_t direction) in
  let normal :=
    Multiply (fdiv (F32.of_int 1) (Length (Subtract point (center sphere))))
      (Subtract point (center sphere)) in
  let view := Multiply (F32.of_int (-1)) direction in
  let light_intensity :=
    ComputeLighting pow point normal view lights spheres (specular sphere) (Some i) in
  TraceRay pow origin direction min_t max_t spheres lights depth sphere_tag
  = Col.Multiply light_intensity (color sphere)
  /\ TraceRay_fuel pow 1 origin direction min_t max_t spheres lights depth sphere_tag
     = Some (Col.Multiply light_intensity (color sphere)).
Proof.
  intros Hscan Hbase point normal view light_intensity.
  assert (Hb : fle (reflective (i, sphere).2) (F32.of_int 0) || (depth <=? 0) = true).
  { cbn [snd]. apply orb_true_iff.
    destruct Hbase as [Hr|Hd]; [now left|right; now apply Z.leb_le]. }
  split.
  - apply (TraceRay_local pow spheres lights _ _ _ _ _ _ _ _ Hscan Hb).
  - apply (TraceRay_fuel_local pow _ _ _ _ spheres lights 0 _ _ _ _ Hscan Hb).
Qed.

Lemma C3_witness :
  TraceRay pow_by_squaring CAMERA_POSITION ray_down (F32.of_int 1) INFINITY SPHERES
    LIGHTS 0 None = mkColor 0 0 104
  /\ TraceRay_fuel pow_by_squaring 1 CAMERA_POSITION ray_down (F32.of_int 1) INFINITY
       SPHERES LIGHTS 0 None = Some (mkColor 0 0 104).
Proof.
  refine (eq_ind _ (fun c => _ = c /\ _ = Some c) _ _ _).
  - eapply (C3_TraceRay_local_only pow_by_squaring CAMERA_POSITION ray_down
              (F32.of_int 1) INFINITY SPHERES LIGHTS 0 None).
    + vm_compute. reflexivity.
    + right. lia.
  - vm_compute. reflexivity.
Defined.

(** C4, as the program has it.  For every origin, direction and sphere,
    [IntersectRaySphere] forms oc = origin - center,
    k1 = dot(direction, direction), k2 = 2 dot(oc, direction),
    k3 = dot(oc, oc) - radius^2 and discriminant = k2^2 - 4 k1 k3; it
    returns (INFINITY, INFINITY) whenever the discriminant is negative, and
    otherwise the pair of (-k2 + sqrt(discriminant)) / (2 k1) and
    (-k2 - sqrt(discriminant)) / (2 k1), whatever these two quotients are. *)
Theorem C4_IntersectRaySphere_cases (origin direction : Vector3) (sphere : Sphere) :
  let oc := Subtract origin (center sphere) in
  let k1 := DotProduct direction direction in
  let k2 := fmul (F32.of_int 2) (DotProduct oc direction) in
  let k3 := fsub (DotProduct oc oc) (fmul (radius sphere) (radius sphere)) in
  let discriminant := fsub (fmul k2 k2) (fmul (fmul (F32.of_int 4) k1) k3) in
  (flt discriminant (F32.of_int 0) = true ->
   IntersectRaySphere origin direction sphere = (INFINITY, INFINITY))
  /\ (flt discriminant (F32.of_int 0) = false ->
      IntersectRaySphere origin direction sphere
      = (fdiv (fadd (fneg k2) (fsqrt discriminant)) (fmul (F32.of_int 2) k1),
         fdiv (fsub (fneg k2) (fsqrt discriminant)) (fmul (F32.of_int 2) k1))).
Proof.
  intros oc k1 k2 k3 discriminant.
  assert (Hbody : IntersectRaySphere origin direction sphere
                  = if flt discriminant (F32.of_int 0)
                    then (INFINITY, INFINITY)
                    else (fdiv (fadd (fneg k2) (fsqrt discriminant))
                               (fmul (F32.of_int 2) k1),
                          fdiv (fsub (fneg k2) (fsqrt discriminant))
                               (fmul (F32.of_int 2) k1))) by reflexivity.
  split; intros Hd; rewrite Hbody, Hd; reflexivity.
Qed.

Lemma C4_witness :
  IntersectRaySphere (vector_lit 0 0 0) (vector_lit 0 0 1)
    (mkSphere (vector_lit 0 0 3) (F32.of_int 1) (mkColor 0 0 255) 500 (float_lit 2 10))
  = (F32.of_int 4, F32.of_int 2).
Proof.
  etransitivity.
  - apply (proj2 (C4_IntersectRaySphere_cases (vector_lit 0 0 0) (vector_lit 0 0 1)
                    (mkSphere (vector_lit 0 0 3) (F32.of_int 1) (mkColor 0 0 255)
                       500 (float_lit 2 10)))).
    vm_compute. reflexivity.
  - vm_compute. reflexivity.
Defined.

(** C4, as it is stated, fails in one direction: (INFINITY, INFINITY) is
    also returned on a discriminant that is not negative.  The ray from
    (-2^60, 0, 0) along (2^-74, 0, 0) meets the unit sphere at the origin
    at distances near 2^134, beyond the largest float: k1 = 2^-148,
    k2 = -2^-13, k3 rounds to 2^120, the discriminant is zero, and both
    quotients 2^-13 / 2^-147 overflow to infinity. *)
Lemma C4_counterexample :
  flt (F32.of_int 0) (x short_direction) = true
  /\ flt (F32.of_int 0) (ray_k1 short_direction) = true
  /\ ray_discriminant far_origin short_direction unit_sphere = F32.zero
  /\ flt (ray_discriminant far_origin short_direction unit_sphere) (F32.of_int 0)
     = false
  /\ IntersectRaySphere far_origin short_direction unit_sphere
     = (INFINITY, INFINITY).
Proof. repeat split; vm_compute; reflexivity. Qed.

(** C6.  [TraceRay] terminates on every input.  A run needs no more
    activations at once than one plus the depth budget (none of the
    recursive calls, then, is nested deeper than the budget); a run whose
    depth is at most zero, or that hits nothing, or that hits a sphere
    whose [reflective] is at most zero, is a single activation; and any
    other run is one activation around a run at depth - 1. *)
Theorem C6_TraceRay_terminates
    (pow : double -> double -> double) (origin direction : Vector3)
    (min_t max_t : float) (spheres : list Sphere) (lights : list Light)
    (depth : Z) (sphere_tag : SpherePtr) :
  let scan := ClosestIntersection origin direction min_t max_t spheres sphere_tag in
  let result :=
    TraceRay pow origin direction min_t max_t spheres lights depth sphere_tag in
  (forall spare : nat,
     TraceRay_fuel pow (S (Z.to_nat depth + spare)) origin direction min_t max_t
       spheres lights depth sphere_tag = Some result)
  /\ (depth <= 0 \/ scan.2 = None
      \/ (exists hit, scan.2 = Some hit
                      /\ fle (reflective hit.2) (F32.of_int 0) = true) ->
      TraceRay_fuel pow 1 origin direction min_t max_t spheres lights depth
        sphere_tag = Some result)
  /\ (forall hit, 0 < depth -> scan.2 = Some hit ->
        fle (reflective hit.2) (F32.of_int 0) = false ->
        forall fuel : nat,
          TraceRay_fuel pow (S fuel) origin direction min_t max_t spheres lights
            depth sphere_tag
          = blend hit.2 (local_color pow origin direction scan.1 spheres lights hit)
              <$> TraceRay_fuel pow fuel (reflected_origin origin direction scan.1)
                    (reflected_direction origin direction scan.1 hit.2)
                    EPSILON INFINITY spheres lights (depth - 1) (Some hit.1)).
Proof.
  intros scan result.
  assert (Hall : forall fuel, (Z.to_nat depth < fuel)%nat ->
            TraceRay_fuel pow fuel origin direction min_t max_t spheres lights
              depth sphere_tag = Some result).
  { intros fuel Hlt. now apply TraceRay_fuel_enough. }
  split; [intros spare; apply Hall; lia|]. split.
  - intros Hbase.
    destruct (ClosestIntersection origin direction min_t max_t spheres sphere_tag)
      as [t [hit|]] eqn:Hscan; subst scan; cbn [fst snd] in *.
    + assert (Hb : fle (reflective hit.2) (F32.of_int 0) || (depth <=? 0) = true).
      { apply orb_true_iff.
        destruct Hbase as [Hd|[Hn|(hit' & Hh & Hr)]].
        - right. now apply Z.leb_le.
        - discriminate.
        - left. now injection Hh as ->. }
      subst result.
      rewrite (TraceRay_local pow spheres lights _ _ _ _ _ _ _ _ Hscan Hb).
      apply (TraceRay_fuel_local pow _ _ _ _ spheres lights 0 _ _ _ _ Hscan Hb).
    + subst result.
      rewrite (TraceRay_miss pow spheres lights _ _ _ _ depth _ _ Hscan).
      apply (TraceRay_fuel_miss pow _ _ _ _ spheres lights 0 _ _ _ Hscan).
  - intros hit Hd Hhit Hr fuel.
    destruct (ClosestIntersection origin direction min_t max_t spheres sphere_tag)
      as [t cs] eqn:Hscan; subst scan; cbn [fst snd] in *. subst cs.
    assert (Hb : fle (reflective hit.2) (F32.of_int 0) || (depth <=? 0) = false).
    { apply orb_false_iff. split; [exact Hr|]. now apply Z.leb_gt. }
    rewrite (TraceRay_fuel_reflect pow _ _ _ _ spheres lights fuel _ _ _ _ Hscan Hb).
    now destruct (TraceRay_fuel pow fuel _ _ _ _ _ _ _ _).
Qed.

Lemma C6_witness :
  TraceRay_fuel pow_by_squaring 1 CAMERA_POSITION ray_down (F32.of_int 1) INFINITY
    SPHERES LIGHTS 0 None
  = Some (TraceRay pow_by_squaring CAMERA_POSITION ray_down (F32.of_int 1) INFINITY
            SPHERES LIGHTS 0 None).
Proof.
  apply (proj1 (proj2 (C6_TraceRay_terminates pow_by_squaring CAMERA_POSITION
                         ray_down (F32.of_int 1) INFINITY SPHERES LIGHTS 0 None))).
  left. lia.
Defined.

(** ** The shadow test *)

(** The shadow loop answers yes exactly when a sphere other than the
    excluded one has a root strictly between EPSILON and [t_max]. *)
Lemma shadow_scan_spec (point vec_l : Vector3)
    (t_max : float) (sphere_tag : SpherePtr) (spheres : list Sphere) :
  forall idx : nat,
    shadow_scan point vec_l t_max sphere_tag idx spheres = true
    <-> exists i sphere,
          spheres !! i = Some sphere /\ sphere_tag <> Some (idx + i)%nat
          /\ valid_root point vec_l EPSILON t_max sphere = true.
Proof.
  induction spheres as [|sphere rest IH]; intros idx; cbn [shadow_scan].
  - split; [discriminate|]. intros (i & s & Hi & _). now rewrite lookup_nil in Hi.
  - assert (Hshift : (exists i s, rest !! i = Some s /\ sphere_tag <> Some (S idx + i)%nat
                                  /\ valid_root point vec_l EPSILON t_max s = true)
                     -> exists i s, (sphere :: rest) !! i = Some s
                                    /\ sphere_tag <> Some (idx + i)%nat
                                    /\ valid_root point vec_l EPSILON t_max s = true).
    { intros (i & s & Hi & Htag & Hv). exists (S i), s. repeat split; auto.
      now replace (idx + S i)%nat with (S idx + i)%nat by lia. }
    assert (Hunshift : forall i s, (sphere :: rest) !! i = Some s -> i <> 0%nat ->
                         sphere_tag <> Some (idx + i)%nat ->
                         valid_root point vec_l EPSILON t_max s = true ->
                         exists j s', rest !! j = Some s'
                                      /\ sphere_tag <> Some (S idx + j)%nat
                                      /\ valid_root point vec_l EPSILON t_max s' = true).
    { intros [|j] s Hi Hpos Htag Hv; [congruence|]. exists j, s. repeat split; auto.
      now replace (S idx + j)%nat with (idx + S j)%nat by lia. }
    destruct (decide (sphere_tag = Some idx)) as [Heq|Hne].
    { rewrite IH. split; [exact Hshift|].
      intros (i & s & Hi & Htag & Hv). apply (Hunshift i s); auto.
      intros ->. now rewrite Nat.add_0_r in Htag. }
    set (ts := IntersectRaySphere point vec_l sphere).
    destruct (flt EPSILON ts.1 && flt ts.1 t_max) eqn:E1.
    { split; [|reflexivity]. intros _. exists 0%nat, sphere.
      rewrite Nat.add_0_r. repeat split; auto.
      unfold valid_root, strictly_inside. fold ts. now rewrite E1. }
    destruct (flt EPSILON ts.2 && flt ts.2 t_max) eqn:E2.
    { split; [|reflexivity]. intros _. exists 0%nat, sphere.
      rewrite Nat.add_0_r. repeat split; auto.
      unfold valid_root, strictly_inside. fold ts. rewrite E2. apply orb_true_r. }
    rewrite IH. split; [exact Hshift|].
    intros (i & s & Hi & Htag & Hv). apply (Hunshift i s); auto.
    intros ->. simpl in Hi. injection Hi as <-.
    unfold valid_root, strictly_inside in Hv. fold ts in Hv.
    rewrite E1, E2 in Hv. discriminate.
Qed.

(** [ComputeLighting] takes the lights in turn. *)
Lemma ComputeLighting_snoc (pow : double -> double -> double)
    (point normal view : Vector3) (lights : list Light) (light : Light)
    (spheres : list Sphere) (specular0 : Z) (sphere_tag : SpherePtr) :
  ComputeLighting pow point normal view (lights ++ [light]) spheres specular0 sphere_tag
  = light_step pow point normal view spheres specular0 sphere_tag
      (Length normal) (Length view)
      (ComputeLighting pow point normal view lights spheres specular0 sphere_tag)
      light.
Proof. unfold ComputeLighting. now rewrite foldl_snoc. Qed.

(** C5.  What one light adds to the intensity [ComputeLighting] has
    accumulated over the lights before it.  An ambient light adds its
    intensity.  For a point light the light vector is position - point and
    t_max is 1.0; for a directional light the light vector is the position
    and t_max is INFINITY.  If some sphere other than the excluded one has a
    root strictly inside (EPSILON, t_max) on the ray from the point along
    the light vector, the light adds nothing; if none has, the diffuse and
    the specular statements are run. *)
Theorem C5_light_contribution
    (pow : double -> double -> double) (point normal view : Vector3)
    (lights : list Light) (light : Light) (spheres : list Sphere)
    (specular0 : Z) (sphere_tag : SpherePtr) :
  let before :=
    ComputeLighting pow point normal view lights spheres specular0 sphere_tag in
  let after :=
    ComputeLighting pow point normal view (lights ++ [light]) spheres specular0
      sphere_tag in
  let vec_l :=
    match ltype light with
    | POINT => Subtract (position light) point
    | _ => position light
    end in
  let t_max :=
    match ltype light with
    | POINT => F32.of_int 1
    | _ => INFINITY
    end in
  let occluded :=
    exists i sphere,
      spheres !! i = Some sphere /\ sphere_tag <> Some i
      /\ (strictly_inside EPSILON t_max (IntersectRaySphere point vec_l sphere).1 = true
          \/ strictly_inside EPSILON t_max (IntersectRaySphere point vec_l sphere).2 = true) in
  (ltype light = AMBIENT -> after = fadd before (intensity light))
  /\ (ltype light <> AMBIENT -> occluded -> after = before)
  /\ (ltype light <> AMBIENT -> ~ occluded ->
      after = specular_reflection pow
                (diffuse before light normal vec_l (Length normal))
                light normal view vec_l (Length view) specular0).
Proof.
  intros before after vec_l t_max occluded.
  assert (Hocc : shadow_scan point vec_l t_max sphere_tag 0 spheres = true <-> occluded).
  { rewrite shadow_scan_spec. unfold occluded, valid_root. simpl.
    split; intros (i & s & Hi & Htag & Hv); exists i, s; repeat split; auto.
    - now apply orb_true_iff in Hv.
    - now apply orb_true_iff. }
  subst after. rewrite ComputeLighting_snoc. fold before.
  unfold light_step, light_vector. subst vec_l t_max.
  destruct (ltype light); (split; [|split]); try congruence; intros _ Ho.
  - apply Hocc in Ho. now rewrite Ho.
  - destruct (shadow_scan _ _ _ _ _ _) eqn:E; [|reflexivity].
    exfalso. apply Ho, Hocc. reflexivity.
  - apply Hocc in Ho. now rewrite Ho.
  - destruct (shadow_scan _ _ _ _ _ _) eqn:E; [|reflexivity].
    exfalso. apply Ho, Hocc. reflexivity.
Qed.

Lemma C5_witness :
  ComputeLighting pow_by_squaring shadowed_point (vector_lit 0 1 0)
    (vector_lit 0 0 1) ([] ++ [point_light]) SPHERES 500 None
  = ComputeLighting pow_by_squaring shadowed_point (vector_lit 0 1 0)
      (vector_lit 0 0 1) [] SPHERES 500 None.
Proof.
  refine (proj1 (proj2 (C5_light_contribution pow_by_squaring shadowed_point
                          (vector_lit 0 1 0) (vector_lit 0 0 1) [] point_light
                          SPHERES 500 None)) _ _).
  - discriminate.
  - exists 0%nat, (mkSphere (vector_lit 0 (-1) 3) (F32.of_int 1) (mkColor 0 0 255)
                     500 (float_lit 2 10)).
    split; [reflexivity|]. split; [discriminate|]. left. vm_compute. reflexivity.
Defined.

(** ** Integers of the machine *)

Lemma wrap_int_id (n : Z) : is_int n -> wrap_int n = n.
Proof. unfold is_int, wrap_int. intros H. rewrite Z.mod_small; lia. Qed.

Lemma wrap_int_unsigned (n : Z) : wrap_int (wrap_unsigned n) = wrap_int n.
Proof. unfold wrap_int, wrap_unsigned. now rewrite Zplus_mod_idemp_l. Qed.

(** A sum that may overflow by less than the width of the canvas window
    lies in the window after the wrap-around exactly when it does before. *)
Lemma wrap_int_window (w m : Z) :
  0 < w <= 2 ^ 31 -> - 2 ^ 32 + w <= m < 2 ^ 32 ->
  (0 <=? wrap_int m) && (wrap_int m <? w) = (0 <=? m) && (m <? w)
  /\ (0 <= m < w -> wrap_int m = m).
Proof.
  unfold wrap_int. intros Hw Hm. split.
  - destruct (Z.leb_spec 0 m), (Z.ltb_spec m w),
      (Z.leb_spec 0 ((m + 2 ^ 31) mod 2 ^ 32 - 2 ^ 31)),
      (Z.ltb_spec ((m + 2 ^ 31) mod 2 ^ 32 - 2 ^ 31) w); simpl; try reflexivity;
      exfalso; Z.div_mod_to_equations; lia.
  - intros H. rewrite Z.mod_small; lia.
Qed.

(** ** The canvas *)

Lemma CANVAS_WIDTH_eq : CANVAS_WIDTH = 600.
Proof. reflexivity. Qed.

Lemma CANVAS_HEIGHT_eq : CANVAS_HEIGHT = 600.
Proof. reflexivity. Qed.

Lemma on_canvas_spec (x0 y0 : Z) :
  on_canvas x0 y0 = true
  <-> 0 <= device_x x0 < CANVAS_WIDTH /\ 0 <= device_y y0 < CANVAS_HEIGHT.
Proof.
  unfold on_canvas. rewrite !andb_true_iff, !Z.leb_le, !Z.ltb_lt. lia.
Qed.

(** An offset written on the canvas names its position. *)
Lemma offset_decode (x0 y0 : Z) (k : nat) :
  writes_to x0 y0 k = true -> x_of_offset k = x0 /\ y_of_offset k = y0.
Proof.
  unfold writes_to. rewrite andb_true_iff, Z.eqb_eq, on_canvas_spec.
  unfold x_of_offset, y_of_offset, pixel_offset, device_x, device_y.
  rewrite CANVAS_WIDTH_eq, CANVAS_HEIGHT_eq.
  change (Z.quot 600 2) with 300. intros [[Hx Hy] Hk]. rewrite Hk.
  split; Z.div_mod_to_equations; lia.
Qed.

Lemma offset_in_buffer (x0 y0 : Z) :
  on_canvas x0 y0 = true -> 0 <= pixel_offset x0 y0 < CANVAS_WIDTH * CANVAS_HEIGHT.
Proof.
  rewrite on_canvas_spec. unfold pixel_offset.
  rewrite CANVAS_WIDTH_eq, CANVAS_HEIGHT_eq. lia.
Qed.

(** [PutPixel] on [int] arguments, without the wrap-around. *)
Lemma PutPixel_int (x0 y0 : Z) (c : Color) (canvasBuffer : Canvas) :
  is_int x0 -> is_int y0 ->
  PutPixel x0 y0 c canvasBuffer
  = if on_canvas x0 y0
    then <[Z.to_nat (pixel_offset x0 y0) := colorref c]> canvasBuffer
    else canvasBuffer.
Proof.
  unfold is_int. intros Hx Hy. unfold PutPixel, on_canvas.
  fold (device_x x0) (device_y y0).
  assert (Hwx := wrap_int_window CANVAS_WIDTH (device_x x0)).
  assert (Hwy := wrap_int_window CANVAS_HEIGHT (device_y y0)).
  unfold device_x, device_y in Hwx, Hwy |- *.
  rewrite CANVAS_WIDTH_eq, CANVAS_HEIGHT_eq in *.
  change (Z.quot 600 2) with 300 in *.
  destruct Hwx as [Hgx Hix]; [lia|lia|]. destruct Hwy as [Hgy Hiy]; [lia|lia|].
  rewrite <- !andb_assoc. rewrite !andb_assoc, Hgx, <- !andb_assoc, Hgy.
  destruct ((0 <=? 300 + x0) && ((300 + x0 <? 600) && ((0 <=? 300 - y0)
            && (300 - y0 <? 600)))) eqn:E; [|reflexivity].
  rewrite !andb_true_iff, !Z.leb_le, !Z.ltb_lt in E.
  rewrite Hix, Hiy by lia.
  unfold colorref, pixel_offset, device_x, device_y.
  rewrite CANVAS_WIDTH_eq, CANVAS_HEIGHT_eq. change (Z.quot 600 2) with 300.
  rewrite (wrap_int_id (600 * (300 - y0))) by (unfold is_int; lia).
  rewrite wrap_int_id by (unfold is_int; lia). reflexivity.
Qed.

(** C10.  [PutPixel(x, y, color)]: when the device coordinate
    (W/2 + x, H/2 - y) falls outside [0, W) x [0, H) the canvas buffer is
    left as it is; otherwise the element at offset (W/2 + x) + W (H/2 - y)
    becomes the colour and every other element is unchanged.  The buffer
    has the W * H elements [WinMain] gives it. *)
Theorem C10_PutPixel_frame (x0 y0 : Z) (c : Color) (canvasBuffer : Canvas) :
  is_int x0 -> is_int y0 ->
  length canvasBuffer = Z.to_nat (CANVAS_WIDTH * CANVAS_HEIGHT) ->
  let x_r := Z.quot CANVAS_WIDTH 2 + x0 in
  let y_r := Z.quot CANVAS_HEIGHT 2 - y0 in
  let offset := Z.to_nat (x_r + CANVAS_WIDTH * y_r) in
  (~ (0 <= x_r < CANVAS_WIDTH /\ 0 <= y_r < CANVAS_HEIGHT) ->
   PutPixel x0 y0 c canvasBuffer = canvasBuffer)
  /\ (0 <= x_r < CANVAS_WIDTH /\ 0 <= y_r < CANVAS_HEIGHT ->
      PutPixel x0 y0 c canvasBuffer !! offset = Some (RGB (b c) (g c) (r c))
      /\ (forall k : nat, k <> offset ->
            PutPixel x0 y0 c canvasBuffer !! k = canvasBuffer !! k)
      /\ length (PutPixel x0 y0 c canvasBuffer) = length canvasBuffer).
Proof.
  intros Hx Hy Hlen x_r y_r offset.
  rewrite (PutPixel_int x0 y0 c canvasBuffer Hx Hy).
  pose proof (on_canvas_spec x0 y0) as Hon.
  pose proof (offset_in_buffer x0 y0) as Hoff.
  fold (device_x x0) in x_r. fold (device_y y0) in y_r.
  fold (pixel_offset x0 y0) in offset.
  split.
  - intros Hout. destruct (on_canvas x0 y0); [|reflexivity].
    exfalso. apply Hout. now apply Hon.
  - intros Hin. apply Hon in Hin. rewrite Hin. specialize (Hoff Hin).
    split; [|split].
    + apply list_lookup_insert_eq. rewrite Hlen. subst offset. lia.
    + intros k Hk. now apply list_lookup_insert_ne.
    + apply length_insert.
Qed.

Lemma C10_witness :
  PutPixel 0 0 (mkColor 1 2 3) (replicate (Z.to_nat (CANVAS_WIDTH * CANVAS_HEIGHT)) 0)
    !! Z.to_nat (Z.quot CANVAS_WIDTH 2 + 0
                 + CANVAS_WIDTH * (Z.quot CANVAS_HEIGHT 2 - 0))
  = Some (RGB 1 2 3).
Proof.
  apply (C10_PutPixel_frame 0 0 (mkColor 1 2 3)
           (replicate (Z.to_nat (CANVAS_WIDTH * CANVAS_HEIGHT)) 0)).
  - unfold is_int. lia.
  - unfold is_int. lia.
  - apply length_replicate.
  - vm_compute. repeat split; discriminate.
Defined.

(** ** Painting *)

Lemma paint_lookup (P : nat -> bool) (v : nat -> Z) (canvasBuffer : Canvas) (k : nat) :
  paint P v canvasBuffer !! k
  = (fun old => if P k then v k else old) <$> canvasBuffer !! k.
Proof. unfold paint. apply list_lookup_imap. Qed.

Lemma paint_length (P : nat -> bool) (v : nat -> Z) (canvasBuffer : Canvas) :
  length (paint P v canvasBuffer) = length canvasBuffer.
Proof. unfold paint. apply length_imap. Qed.

Lemma paint_ext (P Q : nat -> bool) (v : nat -> Z) (canvasBuffer : Canvas) :
  (forall k : nat, (k < length canvasBuffer)%nat -> P k = Q k) ->
  paint P v canvasBuffer = paint Q v canvasBuffer.
Proof.
  intros Hext. apply list_eq. intros k. rewrite !paint_lookup.
  destruct (canvasBuffer !! k) as [old|] eqn:Hk; [|reflexivity].
  simpl. rewrite Hext; [reflexivity|]. apply lookup_lt_is_Some. eauto.
Qed.

Lemma paint_paint (P Q : nat -> bool) (v : nat -> Z) (canvasBuffer : Canvas) :
  paint Q v (paint P v canvasBuffer) = paint (fun k => P k || Q k) v canvasBuffer.
Proof.
  apply list_eq. intros k. rewrite !paint_lookup.
  destruct (canvasBuffer !! k) as [old|]; [|reflexivity].
  simpl. now destruct (P k), (Q k).
Qed.

Lemma paint_nothing (v : nat -> Z) (canvasBuffer : Canvas) :
  paint (fun _ => false) v canvasBuffer = canvasBuffer.
Proof.
  apply list_eq. intros k. rewrite paint_lookup.
  destruct (canvasBuffer !! k); reflexivity.
Qed.

(** [PutPixel] paints the one offset it writes. *)
Lemma PutPixel_paint (x0 y0 : Z) (c : Color) (v : nat -> Z) (canvasBuffer : Canvas) :
  is_int x0 -> is_int y0 ->
  (forall k : nat, writes_to x0 y0 k = true -> v k = colorref c) ->
  PutPixel x0 y0 c canvasBuffer = paint (writes_to x0 y0) v canvasBuffer.
Proof.
  intros Hx Hy Hv. rewrite PutPixel_int by assumption.
  apply list_eq. intros k. rewrite paint_lookup.
  pose proof (offset_in_buffer x0 y0) as Hoff.
  specialize (Hv k). unfold writes_to in *.
  destruct (on_canvas x0 y0); simpl.
  - destruct (Z.eqb_spec (Z.of_nat k) (pixel_offset x0 y0)) as [Hk|Hk].
    + replace (Z.to_nat (pixel_offset x0 y0)) with k by lia.
      rewrite Hv by reflexivity.
      destruct (canvasBuffer !! k) as [old|] eqn:Hold; simpl.
      * apply list_lookup_insert_eq, lookup_lt_is_Some. eauto.
      * rewrite list_lookup_insert_None. exact Hold.
    + rewrite list_lookup_insert_ne by (specialize (Hoff eq_refl); lia).
      destruct (canvasBuffer !! k); reflexivity.
  - destruct (canvasBuffer !! k); reflexivity.
Qed.

(** ** Rendering paints *)

Lemma columns_int (x0 : Z) : In x0 columns -> is_int x0.
Proof.
  unfold columns. rewrite <- list_elem_of_In, elem_of_seqZ.
  change (Z.quot (- CANVAS_WIDTH) 2) with (-300).
  change (Z.quot CANVAS_WIDTH 2) with 300.
  unfold is_int. lia.
Qed.

Lemma rows_int (start_y end_y y0 : Z) :
  is_int start_y -> is_int end_y -> In y0 (rows start_y end_y) -> is_int y0.
Proof.
  unfold rows. rewrite <- list_elem_of_In, elem_of_seqZ. unfold is_int. lia.
Qed.

Lemma in_rows (start_y end_y y0 : Z) :
  In y0 (rows start_y end_y) <-> start_y <= y0 < end_y.
Proof. unfold rows. rewrite <- list_elem_of_In, elem_of_seqZ. lia. Qed.

Lemma rows_write_spec (ys : list Z) (k : nat) :
  rows_write ys k = true
  <-> exists y0 x0, In y0 ys /\ In x0 columns /\ writes_to x0 y0 k = true.
Proof.
  unfold rows_write. rewrite existsb_exists. split.
  - intros (y0 & Hy & Hx). apply existsb_exists in Hx as (x0 & Hx & Hw). eauto.
  - intros (y0 & x0 & Hy & Hx & Hw). exists y0. split; [exact Hy|].
    apply existsb_exists. eauto.
Qed.

Section Painting.

Variable pow : double -> double -> double.
Variables (spheres : list Sphere) (lights : list Light).
Variables (camera_rotation : Matrix3) (camera_position : Vector3).

Local Abbreviation v :=
  (painted_value pow spheres lights camera_rotation camera_position).

Lemma fold_PutPixel_paint (y0 : Z) (xs : list Z) :
  is_int y0 -> (forall x0, In x0 xs -> is_int x0) ->
  forall canvasBuffer : Canvas,
    foldl (fun buf x0 =>
             PutPixel x0 y0
               (pixel_color pow spheres lights camera_rotation camera_position x0 y0)
               buf)
          canvasBuffer xs
    = paint (fun k => existsb (fun x0 => writes_to x0 y0 k) xs) v canvasBuffer.
Proof.
  intros Hy. induction xs as [|x0 xs IH]; intros Hxs canvasBuffer;
    cbn [foldl existsb].
  - symmetry. apply paint_nothing.
  - rewrite IH by (intros; apply Hxs; now right).
    rewrite (PutPixel_paint x0 y0 _ v).
    + apply paint_paint.
    + apply Hxs. now left.
    + exact Hy.
    + intros k Hk. apply offset_decode in Hk as [Hx0 Hy0].
      unfold painted_value. now rewrite Hx0, Hy0.
Qed.

Lemma render_row_paint (y0 : Z) (canvasBuffer : Canvas) :
  is_int y0 ->
  render_row pow spheres lights camera_rotation camera_position canvasBuffer y0
  = paint (rows_write [y0]) v canvasBuffer.
Proof.
  intros Hy. unfold render_row. fold columns.
  rewrite (fold_PutPixel_paint y0 columns Hy columns_int).
  apply paint_ext. intros k _. unfold rows_write. cbn [existsb].
  now rewrite orb_false_r.
Qed.

Lemma fold_render_row_paint (ys : list Z) :
  (forall y0, In y0 ys -> is_int y0) ->
  forall canvasBuffer : Canvas,
    foldl (render_row pow spheres lights camera_rotation camera_position)
          canvasBuffer ys
    = paint (rows_write ys) v canvasBuffer.
Proof.
  induction ys as [|y0 ys IH]; intros Hys canvasBuffer; cbn [foldl].
  - symmetry. apply paint_nothing.
  - rewrite IH by (intros; apply Hys; now right).
    rewrite render_row_paint by (apply Hys; now left).
    rewrite paint_paint. apply paint_ext. intros k _.
    unfold rows_write. cbn [existsb]. now rewrite orb_false_r.
Qed.

(** A section paints the offsets of its rows. *)
Lemma RenderSection_paint (start_y end_y : Z) (canvasBuffer : Canvas) :
  is_int start_y -> is_int end_y ->
  RenderSection pow start_y end_y spheres lights camera_rotation camera_position
    canvasBuffer
  = paint (rows_write (rows start_y end_y)) v canvasBuffer.
Proof.
  intros Ha Hb. unfold RenderSection. fold (rows start_y end_y).
  apply fold_render_row_paint. intros y0. now apply rows_int.
Qed.

(** The scheduled sections paint the offsets of all their rows. *)
Lemma render_bands_paint (num_threads : Z) (schedule : list Z) :
  (forall i, In i schedule ->
             is_int (band num_threads i).1 /\ is_int (band num_threads i).2) ->
  forall canvasBuffer : Canvas,
    render_bands pow num_threads schedule spheres lights camera_rotation
      camera_position canvasBuffer
    = paint (bands_write num_threads schedule) v canvasBuffer.
Proof.
  unfold render_bands, bands_write.
  induction schedule as [|i schedule IH]; intros Hs canvasBuffer;
    cbn [foldl existsb].
  - symmetry. apply paint_nothing.
  - rewrite IH by (intros; apply Hs; now right).
    destruct (Hs i) as [Ha Hb]; [now left|].
    rewrite RenderSection_paint by assumption.
    apply paint_paint.
Qed.

End Painting.

(** ** The bands of the threads *)

Lemma wrap_unsigned_id (n : Z) : 0 <= n < 2 ^ 32 -> wrap_unsigned n = n.
Proof. unfold wrap_unsigned. intros H. now rewrite Z.mod_small. Qed.

Lemma section_width_eq (num_threads : Z) :
  0 < num_threads -> section_width num_threads = CANVAS_HEIGHT / num_threads.
Proof.
  intros HN. unfold section_width. rewrite CANVAS_HEIGHT_eq.
  change (wrap_unsigned 600) with 600.
  apply wrap_int_id. unfold is_int.
  assert (0 <= 600 / num_threads <= 600); [|lia].
  split; [apply Z.div_pos; lia|]. apply Z.div_le_upper_bound; nia.
Qed.

Lemma band_eq (num_threads i : Z) :
  0 < num_threads < 2 ^ 32 -> 0 <= i < num_threads ->
  band num_threads i
  = (i * (CANVAS_HEIGHT / num_threads) - Z.quot CANVAS_HEIGHT 2,
     if i =? num_threads - 1 then Z.quot CANVAS_HEIGHT 2
     else (i + 1) * (CANVAS_HEIGHT / num_threads) - Z.quot CANVAS_HEIGHT 2).
Proof.
  intros HN Hi. unfold band. rewrite section_width_eq by lia.
  rewrite CANVAS_HEIGHT_eq. change (Z.quot 600 2) with 300.
  set (sw := 600 / num_threads).
  assert (Hsw : 0 <= sw /\ sw * num_threads <= 600).
  { subst sw. split; [apply Z.div_pos; lia|].
    rewrite Z.mul_comm. apply Z.mul_div_le. lia. }
  assert (Hsw' : sw <= 600) by nia.
  assert (Hi1 : 0 <= i * sw <= 600) by nia.
  assert (Hi2 : 0 <= (i + 1) * sw <= 600) by nia.
  rewrite (wrap_unsigned_id sw) by lia.
  rewrite (wrap_unsigned_id (i + 1)) by lia.
  rewrite (wrap_unsigned_id (i * sw)) by lia.
  rewrite (wrap_unsigned_id ((i + 1) * sw)) by lia.
  rewrite (wrap_unsigned_id 300) by lia.
  rewrite (wrap_unsigned_id (num_threads - 1)) by lia.
  rewrite !wrap_int_unsigned.
  rewrite !wrap_int_id by (unfold is_int; lia).
  reflexivity.
Qed.

Lemma bands_tile (num_threads y0 : Z) :
  0 < num_threads < 2 ^ 32 ->
  (exists i, 0 <= i < num_threads
             /\ (band num_threads i).1 <= y0 < (band num_threads i).2)
  <-> - Z.quot CANVAS_HEIGHT 2 <= y0 < Z.quot CANVAS_HEIGHT 2.
Proof.
  intros HN.
  assert (Hsw : 0 <= CANVAS_HEIGHT / num_threads
                /\ CANVAS_HEIGHT / num_threads * num_threads <= CANVAS_HEIGHT).
  { split; [apply Z.div_pos; rewrite ?CANVAS_HEIGHT_eq; lia|].
    rewrite Z.mul_comm. apply Z.mul_div_le. lia. }
  split.
  - intros (i & Hi & Hy). rewrite band_eq in Hy by assumption.
    cbn [fst snd] in Hy. revert Hy Hsw. rewrite CANVAS_HEIGHT_eq.
    change (Z.quot 600 2) with 300.
    set (sw := 600 / num_threads). intros Hy Hsw.
    destruct (Z.eqb_spec i (num_threads - 1)); nia.
  - revert Hsw. rewrite CANVAS_HEIGHT_eq. change (Z.quot 600 2) with 300.
    intros Hsw Hy.
    set (sw := 600 / num_threads) in *.
    destruct (Z.eq_dec sw 0) as [Hz|Hnz].
    + exists (num_threads - 1). split; [lia|]. rewrite band_eq by lia.
      rewrite CANVAS_HEIGHT_eq. change (Z.quot 600 2) with 300. fold sw.
      rewrite Z.eqb_refl. cbn [fst snd]. nia.
    + set (j := (y0 + 300) / sw).
      assert (Hj : j * sw <= y0 + 300 < (j + 1) * sw).
      { subst j. pose proof (Z.div_mod (y0 + 300) sw Hnz).
        pose proof (Z.mod_pos_bound (y0 + 300) sw). nia. }
      destruct (Z_lt_le_dec j (num_threads - 1)) as [Hlt|Hge].
      * exists j. assert (0 <= j) by nia. split; [lia|]. rewrite band_eq by lia.
        rewrite CANVAS_HEIGHT_eq. change (Z.quot 600 2) with 300. fold sw.
        destruct (Z.eqb_spec j (num_threads - 1)); cbn [fst snd]; lia.
      * exists (num_threads - 1). split; [lia|]. rewrite band_eq by lia.
        rewrite CANVAS_HEIGHT_eq. change (Z.quot 600 2) with 300. fold sw.
        rewrite Z.eqb_refl. cbn [fst snd]. nia.
Qed.

Lemma band_int (num_threads i : Z) :
  0 < num_threads < 2 ^ 32 -> 0 <= i < num_threads ->
  is_int (band num_threads i).1 /\ is_int (band num_threads i).2.
Proof.
  intros HN Hi. rewrite band_eq by assumption. cbn [fst snd].
  assert (Hsw : 0 <= CANVAS_HEIGHT / num_threads
                /\ CANVAS_HEIGHT / num_threads * num_threads <= CANVAS_HEIGHT).
  { split; [apply Z.div_pos; rewrite ?CANVAS_HEIGHT_eq; lia|].
    rewrite Z.mul_comm. apply Z.mul_div_le. lia. }
  revert Hsw. rewrite CANVAS_HEIGHT_eq. change (Z.quot 600 2) with 300.
  set (sw := 600 / num_threads). intros Hsw. unfold is_int.
  destruct (Z.eqb_spec i (num_threads - 1)); nia.
Qed.

Lemma schedule_threads (num_threads : Z) (schedule : list Z) (i : Z) :
  Permutation schedule (seqZ 0 num_threads) ->
  In i schedule <-> 0 <= i < num_threads.
Proof.
  intros Hperm. rewrite <- (elem_of_seqZ 0 num_threads i), list_elem_of_In.
  split; apply Permutation_in; [exact Hperm|now symmetry].
Qed.

(** Whatever the order of the threads, their sections write the offsets
    that one section over all the rows writes. *)
Lemma bands_write_all_rows (num_threads : Z) (schedule : list Z) (k : nat) :
  0 < num_threads < 2 ^ 32 ->
  Permutation schedule (seqZ 0 num_threads) ->
  bands_write num_threads schedule k
  = rows_write (rows (- Z.quot CANVAS_HEIGHT 2) (Z.quot CANVAS_HEIGHT 2)) k.
Proof.
  intros HN Hperm. apply eq_true_iff_eq.
  unfold bands_write. rewrite existsb_exists, rows_write_spec.
  split.
  - intros (i & Hi & Hrw).
    apply rows_write_spec in Hrw as (y0 & x0 & Hy & Hx & Hw).
    apply (schedule_threads num_threads schedule i Hperm) in Hi.
    apply in_rows in Hy.
    exists y0, x0. repeat split; auto. apply in_rows.
    apply (bands_tile num_threads y0 HN). eauto.
  - intros (y0 & x0 & Hy & Hx & Hw). apply in_rows in Hy.
    destruct (proj2 (bands_tile num_threads y0 HN) Hy) as (i & Hi & Hband).
    exists i. split; [now apply (schedule_threads num_threads schedule i Hperm)|].
    apply rows_write_spec. exists y0, x0. repeat split; auto. now apply in_rows.
Qed.

(** C7.  The threads of [WinMain], one contiguous band of rows each, run
    in any order, leave the canvas buffer that one [RenderSection] over all
    the rows leaves, which is also what a single thread leaves; this holds
    for every thread count that divides the canvas height.  The colour of a
    pixel is a function of the scene and of its position, and two
    positions on the canvas that are written at one offset are the same. *)
Theorem C7_bands_render_as_one_pass
    (pow : double -> double -> double) (num_threads : Z) (schedule : list Z)
    (spheres : list Sphere) (lights : list Light) (camera_rotation : Matrix3)
    (camera_position : Vector3) (canvasBuffer : Canvas) :
  0 < num_threads < 2 ^ 32 ->
  (num_threads | CANVAS_HEIGHT) ->
  Permutation schedule (seqZ 0 num_threads) ->
  render_bands pow num_threads schedule spheres lights camera_rotation
    camera_position canvasBuffer
  = RenderSection pow (- Z.quot CANVAS_HEIGHT 2) (Z.quot CANVAS_HEIGHT 2)
      spheres lights camera_rotation camera_position canvasBuffer
  /\ render_bands pow num_threads schedule spheres lights camera_rotation
       camera_position canvasBuffer
     = render_bands pow 1 [0] spheres lights camera_rotation camera_position
         canvasBuffer
  /\ (forall x1 y1 x2 y2 : Z,
        on_canvas x1 y1 = true -> on_canvas x2 y2 = true ->
        pixel_offset x1 y1 = pixel_offset x2 y2 -> x1 = x2 /\ y1 = y2).
Proof.
  intros HN _ Hperm.
  assert (Hone : render_bands pow num_threads schedule spheres lights
                   camera_rotation camera_position canvasBuffer
                 = RenderSection pow (- Z.quot CANVAS_HEIGHT 2)
                     (Z.quot CANVAS_HEIGHT 2) spheres lights camera_rotation
                     camera_position canvasBuffer).
  { rewrite render_bands_paint.
    - rewrite RenderSection_paint by (unfold is_int; rewrite CANVAS_HEIGHT_eq;
                                      change (Z.quot 600 2) with 300; lia).
      apply paint_ext. intros k _. now apply bands_write_all_rows.
    - intros i Hi. apply band_int; [exact HN|].
      now apply (schedule_threads num_threads schedule i Hperm). }
  split; [exact Hone|]. split.
  - rewrite Hone. unfold render_bands. cbn [foldl].
    change (band 1 0) with (- Z.quot CANVAS_HEIGHT 2, Z.quot CANVAS_HEIGHT 2).
    reflexivity.
  - intros x1 y1 x2 y2 H1 H2 Heq.
    pose proof (offset_in_buffer x1 y1 H1) as Hb.
    destruct (offset_decode x1 y1 (Z.to_nat (pixel_offset x1 y1))) as [Hx1 Hy1].
    { unfold writes_to. rewrite H1. apply Z.eqb_eq. lia. }
    destruct (offset_decode x2 y2 (Z.to_nat (pixel_offset x1 y1))) as [Hx2 Hy2].
    { unfold writes_to. rewrite H2. apply Z.eqb_eq. lia. }
    split; congruence.
Qed.

Lemma C7_witness :
  render_bands pow_by_squaring 3 [2; 0; 1] SPHERES LIGHTS CAMERA_ROTATION
    CAMERA_POSITION (replicate (Z.to_nat (CANVAS_WIDTH * CANVAS_HEIGHT)) 0)
  = RenderSection pow_by_squaring (- Z.quot CANVAS_HEIGHT 2) (Z.quot CANVAS_HEIGHT 2)
      SPHERES LIGHTS CAMERA_ROTATION CAMERA_POSITION
      (replicate (Z.to_nat (CANVAS_WIDTH * CANVAS_HEIGHT)) 0).
Proof.
  refine (proj1 (C7_bands_render_as_one_pass pow_by_squaring 3 [2; 0; 1] SPHERES
                   LIGHTS CAMERA_ROTATION CAMERA_POSITION
                   (replicate (Z.to_nat (CANVAS_WIDTH * CANVAS_HEIGHT)) 0) _ _ _)).
  - lia.
  - exists 200. reflexivity.
  - change (seqZ 0 3) with [0; 1; 2].
    apply perm_trans with (l' := [0; 2; 1]); [apply perm_swap|].
    apply perm_skip, perm_swap.
Defined.

(** ** Signs of floats *)

Section Signs.
Variables prec emax : Z.

Lemma binary_round_aux_sign (s : bool) (m e : Z) (l : location) :
  has_sign s (binary_round_aux prec emax s m e l).
Proof.
  unfold binary_round_aux.
  destruct (shr_fexp prec emax m e l) as [mrs' e'].
  destruct (shr_fexp prec emax _ e' loc_Exact) as [mrs'' e''].
  destruct (shr_m mrs''); simpl; auto.
  destruct (e'' <=? emax - prec); simpl; auto.
Qed.

Lemma binary_round_sign (s : bool) (m : positive) (e : Z) :
  has_sign s (binary_round prec emax s m e).
Proof.
  unfold binary_round. destruct (shl_align _ _ _) as [mz ez].
  apply binary_round_aux_sign.
Qed.

Lemma binary_normalize_sign (s : bool) (m : positive) (e : Z) (szero : bool) :
  has_sign s (binary_normalize prec emax (cond_Zopp s (Zpos m)) e szero).
Proof. destruct s; simpl; apply binary_round_sign. Qed.

Lemma has_sign_any (x : spec_float) : exists s, has_sign s x.
Proof. destruct x as [s|s| |s m e]; simpl; eauto. exists false. exact I. Qed.

Lemma SFmul_sign (sx sy : bool) (x y0 : spec_float) :
  has_sign sx x -> has_sign sy y0 -> has_sign (xorb sx sy) (SFmul prec emax x y0).
Proof.
  destruct x as [s|s| |s m e], y0 as [s'|s'| |s' m' e']; simpl; intros; subst;
    auto using binary_round_aux_sign.
Qed.

Lemma SFdiv_sign (sx sy : bool) (x y0 : spec_float) :
  has_sign sx x -> has_sign sy y0 -> has_sign (xorb sx sy) (SFdiv prec emax x y0).
Proof.
  destruct x as [s|s| |s m e], y0 as [s'|s'| |s' m' e']; simpl; intros; subst; auto.
  destruct (SFdiv_core_binary _ _ _ _ _ _) as [[mz ez] lz].
  apply binary_round_aux_sign.
Qed.

Lemma SFsqrt_sign (x : spec_float) :
  sign_clear x -> sign_clear (SFsqrt prec emax x).
Proof.
  unfold sign_clear.
  destruct x as [s|s| |s m e]; simpl; intros; subst; simpl; auto.
  destruct (SFsqrt_core_binary _ _ _ _) as [[mz ez] lz].
  apply binary_round_aux_sign.
Qed.

Lemma SFadd_sign_clear (x y0 : spec_float) :
  sign_clear x -> not_negative y0 -> sign_clear (SFadd prec emax x y0).
Proof.
  unfold sign_clear.
  destruct x as [s|s| |s m e], y0 as [s'|s'| |s' m' e']; simpl; intros; subst;
    simpl; auto.
  - destruct s'; reflexivity.
  - apply binary_round_sign.
Qed.

Lemma not_negative_of_sign_clear (x : spec_float) : sign_clear x -> not_negative x.
Proof. destruct x; simpl; auto. Qed.

Lemma SFmul_not_negative (x y0 : spec_float) :
  not_negative x -> sign_clear y0 -> not_negative (SFmul prec emax x y0).
Proof.
  intros Hx Hy. destruct x as [s|s| |s m e].
  - destruct y0; simpl; auto.
  - apply not_negative_of_sign_clear. apply (SFmul_sign false false); assumption.
  - exact I.
  - apply not_negative_of_sign_clear. apply (SFmul_sign false false); assumption.
Qed.

Lemma SFdiv_not_negative (x y0 : spec_float) :
  not_negative x -> sign_clear y0 -> not_negative (SFdiv prec emax x y0).
Proof.
  intros Hx Hy. destruct x as [s|s| |s m e].
  - destruct y0; simpl; auto.
  - apply not_negative_of_sign_clear. apply (SFdiv_sign false false); assumption.
  - exact I.
  - apply not_negative_of_sign_clear. apply (SFdiv_sign false false); assumption.
Qed.

Lemma SFmul_square (x : spec_float) : sign_clear (SFmul prec emax x x).
Proof.
  destruct (has_sign_any x) as [s Hs].
  pose proof (SFmul_sign s s x x Hs Hs) as H.
  rewrite xorb_nilpotent in H. exact H.
Qed.
End Signs.

Lemma positive_sign_clear (a : float) : flt (F32.of_int 0) a = true -> sign_clear a.
Proof. destruct a as [s|[]| |[] m e]; simpl; intros H; try discriminate; reflexivity. Qed.

Lemma nonneg_not_negative (a : float) : fle (F32.of_int 0) a = true -> not_negative a.
Proof. destruct a as [s|[]| |[] m e]; simpl; intros H; try discriminate; auto. Qed.

Lemma sign_clear_nonneg (a : float) :
  sign_clear a -> a = S754_nan \/ fle (F32.of_int 0) a = true.
Proof. destruct a as [s|s| |s m e]; simpl; intros H; subst; auto. Qed.

Lemma of_float_sign (s : bool) (x : float) : has_sign s x -> has_sign s (F64.of_float x).
Proof.
  destruct x as [s'|s'| |s' m e]; simpl; auto. intros <-.
  apply binary_normalize_sign.
Qed.

Lemma of_float_not_negative (x : float) : not_negative x -> not_negative (F64.of_float x).
Proof.
  destruct x as [s'|s'| |s' m e]; simpl; auto. unfold sign_clear. simpl. intros ->.
  apply not_negative_of_sign_clear. apply (binary_normalize_sign _ _ false).
Qed.

Lemma of_double_sign (s : bool) (x : double) : has_sign s x -> has_sign s (F32.of_double x).
Proof.
  destruct x as [s'|s'| |s' m e]; simpl; auto. intros <-.
  apply binary_normalize_sign.
Qed.


(** The same, for the operators of the program. *)
Lemma fadd_sign_clear (a c : float) :
  sign_clear a -> not_negative c -> sign_clear (fadd a c).
Proof. exact (SFadd_sign_clear F32.prec F32.emax a c). Qed.

Lemma fmul_sign_clear (a c : float) :
  sign_clear a -> sign_clear c -> sign_clear (fmul a c).
Proof. exact (SFmul_sign F32.prec F32.emax false false a c). Qed.

Lemma fmul_square (a : float) : sign_clear (fmul a a).
Proof. exact (SFmul_square F32.prec F32.emax a). Qed.

Lemma fmul_not_negative (a c : float) :
  not_negative a -> sign_clear c -> not_negative (fmul a c).
Proof. exact (SFmul_not_negative F32.prec F32.emax a c). Qed.

Lemma fdiv_sign_clear (a c : float) :
  sign_clear a -> sign_clear c -> sign_clear (fdiv a c).
Proof. exact (SFdiv_sign F32.prec F32.emax false false a c). Qed.

Lemma fdiv_not_negative (a c : float) :
  not_negative a -> sign_clear c -> not_negative (fdiv a c).
Proof. exact (SFdiv_not_negative F32.prec F32.emax a c). Qed.

Lemma fsqrt_sign_clear (a : float) : sign_clear a -> sign_clear (fsqrt a).
Proof. exact (SFsqrt_sign F32.prec F32.emax a). Qed.

Lemma dadd_sign_clear (a c : double) :
  sign_clear a -> not_negative c -> sign_clear (F64.add a c).
Proof. exact (SFadd_sign_clear F64.prec F64.emax a c). Qed.

Lemma dmul_sign_clear (a c : double) :
  sign_clear a -> sign_clear c -> sign_clear (F64.mul a c).
Proof. exact (SFmul_sign F64.prec F64.emax false false a c). Qed.

Lemma dmul_square (a : double) : sign_clear (F64.mul a a).
Proof. exact (SFmul_square F64.prec F64.emax a). Qed.

Lemma dmul_not_negative (a c : double) :
  not_negative a -> sign_clear c -> not_negative (F64.mul a c).
Proof. exact (SFmul_not_negative F64.prec F64.emax a c). Qed.

Lemma of_float_sign_clear (a : float) : sign_clear a -> sign_clear (F64.of_float a).
Proof. exact (of_float_sign false a). Qed.

Lemma of_double_sign_clear (x : double) : sign_clear x -> sign_clear (F32.of_double x).
Proof. apply of_double_sign. Qed.

Lemma DotProduct_self_sign_clear (v : Vector3) : sign_clear (DotProduct v v).
Proof.
  unfold DotProduct.
  repeat (apply fadd_sign_clear; [|apply not_negative_of_sign_clear]);
    apply fmul_square.
Qed.

Lemma Length_sign_clear (v : Vector3) : sign_clear (Length v).
Proof. apply fsqrt_sign_clear, DotProduct_self_sign_clear. Qed.

Section LightingSign.

Variable pow : double -> double -> double.

Hypothesis pow_sign_clear :
  forall base exponent : double, sign_clear base -> sign_clear (pow base exponent).

Variables (point normal view : Vector3) (spheres : list Sphere).
Variables (specular0 : Z) (sphere_tag : SpherePtr).

Lemma diffuse_sign_clear (intensity0 : float) (light : Light) (vec_l : Vector3)
    (length_n : float) :
  sign_clear length_n -> fle (F32.of_int 0) (intensity light) = true ->
  sign_clear intensity0 ->
  sign_clear (diffuse intensity0 light normal vec_l length_n).
Proof.
  intros Hn Hl Hacc. unfold diffuse.
  destruct (flt (F32.of_int 0) (DotProduct normal vec_l)) eqn:Hpos; [|exact Hacc].
  apply fadd_sign_clear; [exact Hacc|].
  apply fdiv_not_negative.
  - apply fmul_not_negative; [now apply nonneg_not_negative|].
    now apply positive_sign_clear.
  - apply fmul_sign_clear; [exact Hn|apply Length_sign_clear].
Qed.

Lemma specular_reflection_sign_clear (intensity0 : float) (light : Light)
    (vec_l : Vector3) (length_v : float) :
  sign_clear length_v -> fle (F32.of_int 0) (intensity light) = true ->
  sign_clear intensity0 ->
  sign_clear (specular_reflection pow intensity0 light normal view vec_l length_v
                specular0).
Proof.
  intros Hv Hl Hacc. unfold specular_reflection.
  destruct (0 <=? specular0); [|exact Hacc].
  destruct (flt (F32.of_int 0)
              (DotProduct (ReflectRayDirection vec_l normal) view)) eqn:Hpos;
    [|exact Hacc].
  apply of_double_sign_clear, dadd_sign_clear.
  - now apply of_float_sign_clear.
  - apply dmul_not_negative.
    + now apply of_float_not_negative, nonneg_not_negative.
    + apply pow_sign_clear, of_float_sign_clear.
      apply fdiv_sign_clear; [now apply positive_sign_clear|].
      apply fmul_sign_clear; [apply Length_sign_clear|exact Hv].
Qed.

Lemma light_step_sign_clear (length_n length_v intensity0 : float) (light : Light) :
  sign_clear length_n -> sign_clear length_v ->
  fle (F32.of_int 0) (intensity light) = true ->
  sign_clear intensity0 ->
  sign_clear (light_step pow point normal view spheres specular0 sphere_tag
                length_n length_v intensity0 light).
Proof.
  intros Hn Hv Hl Hacc.
  assert (Hshade : forall vec_l t_max,
            sign_clear
              (if shadow_scan point vec_l t_max sphere_tag 0 spheres
               then intensity0
               else specular_reflection pow
                      (diffuse intensity0 light normal vec_l length_n) light
                      normal view vec_l length_v specular0)).
  { intros vec_l t_max. destruct (shadow_scan _ _ _ _ _ _); [exact Hacc|].
    apply specular_reflection_sign_clear; auto.
    now apply diffuse_sign_clear. }
  unfold light_step, light_vector. destruct (ltype light).
  - apply fadd_sign_clear; [exact Hacc|now apply nonneg_not_negative].
  - apply Hshade.
  - apply Hshade.
Qed.

Lemma ComputeLighting_sign_clear (lights : list Light) :
  (forall light, In light lights -> fle (F32.of_int 0) (intensity light) = true) ->
  sign_clear (ComputeLighting pow point normal view lights spheres specular0
                sphere_tag).
Proof.
  intros Hlights. unfold ComputeLighting.
  assert (Hfold : forall intensity0, sign_clear intensity0 ->
            sign_clear
              (foldl (light_step pow point normal view spheres specular0 sphere_tag
                        (Length normal) (Length view)) intensity0 lights)).
  { induction lights as [|light lights IH]; intros intensity0 Hacc; cbn [foldl].
    - exact Hacc.
    - apply IH; [intros l Hl; apply Hlights; now right|].
      apply light_step_sign_clear; auto using Length_sign_clear.
      apply Hlights. now left. }
  apply Hfold. reflexivity.
Qed.

End LightingSign.

(** The instance of [std::pow] keeps a clear sign clear. *)
Lemma pow_by_squaring_sign_clear (base exponent : double) :
  sign_clear base -> sign_clear (pow_by_squaring base exponent).
Proof.
  unfold pow_by_squaring. intros Hb.
  destruct (ftrunc exponent) as [[|p|p]|]; try exact I; [reflexivity|].
  revert base Hb. induction p as [p IH|p IH|]; intros base Hb; cbn [Pos.iter_op].
  - apply dmul_sign_clear; [exact Hb|]. apply IH, dmul_square.
  - apply IH, dmul_square.
  - exact Hb.
Qed.

(** C8, as the program has it.  When every light has a non-negative
    intensity, and [std::pow] returns a NaN or a value of clear sign on a
    base that is a NaN or has a clear sign, [ComputeLighting] never returns
    a negative intensity: its value is non-negative or a NaN.  The
    accumulator starts at zero and every term added to it is a NaN, a zero
    or positive. *)
Theorem C8_ComputeLighting_never_negative
    (pow : double -> double -> double) (point normal view : Vector3)
    (lights : list Light) (spheres : list Sphere) (specular0 : Z)
    (sphere_tag : SpherePtr) :
  (forall base exponent : double, sign_clear base -> sign_clear (pow base exponent)) ->
  (forall light, In light lights -> fle (F32.of_int 0) (intensity light) = true) ->
  ComputeLighting pow point normal view lights spheres specular0 sphere_tag
  = S754_nan
  \/ fle (F32.of_int 0)
        (ComputeLighting pow point normal view lights spheres specular0 sphere_tag)
      = true.
Proof.
  intros Hpow Hlights. apply sign_clear_nonneg.
  now apply ComputeLighting_sign_clear.
Qed.

Lemma C8_witness :
  ComputeLighting pow_by_squaring shadowed_point (vector_lit 0 1 0)
    (vector_lit 0 0 1) LIGHTS SPHERES 500 None = S754_nan
  \/ fle (F32.of_int 0)
        (ComputeLighting pow_by_squaring shadowed_point (vector_lit 0 1 0)
           (vector_lit 0 0 1) LIGHTS SPHERES 500 None) = true.
Proof.
  apply (C8_ComputeLighting_never_negative pow_by_squaring shadowed_point
           (vector_lit 0 1 0) (vector_lit 0 0 1) LIGHTS SPHERES 500 None).
  - exact pow_by_squaring_sign_clear.
  - intros light [<-|[<-|[<-|[]]]]; vm_compute; reflexivity.
Defined.

(** C8, as it is stated, fails: on a surface of unit normal, under one
    directional light of intensity 2 whose direction vector has length
    2^127, the product of the intensity and n_dot_l overflows to infinity,
    so does the length of the light vector, their quotient is a NaN, and
    the returned intensity is a NaN, which is not at least zero. *)
Lemma C8_counterexample :
  (forall light, In light [far_light] -> fle (F32.of_int 0) (intensity light) = true)
  /\ ComputeLighting pow_by_squaring (vector_lit 0 0 0) (vector_lit 1 0 0)
       (vector_lit 0 0 1) [far_light] [] 10 None = S754_nan
  /\ fle (F32.of_int 0)
        (ComputeLighting pow_by_squaring (vector_lit 0 0 0) (vector_lit 1 0 0)
           (vector_lit 0 0 1) [far_light] [] 10 None) = false.
Proof.
  split; [|split].
  - intros light [<-|[]]. vm_compute. reflexivity.
  - vm_compute. reflexivity.
  - vm_compute. reflexivity.
Qed.

(** ** The order of the two roots *)

(** *** Rounding is monotone *)

Lemma fexp32 (e : Z) : fexp F32.prec F32.emax e = Z.max (e - 24) (- 149).
Proof. reflexivity. Qed.

Lemma digits2_pos_spec (p : positive) :
  2 ^ (Zpos (digits2_pos p) - 1) <= Zpos p < 2 ^ Zpos (digits2_pos p).
Proof.
  induction p as [p IH|p IH|]; cbn [digits2_pos].
  - rewrite Pos2Z.inj_succ, (Pos2Z.inj_xI p).
    replace (Z.succ (Zpos (digits2_pos p)) - 1) with (Z.succ (Zpos (digits2_pos p) - 1)) by lia.
    rewrite !Z.pow_succ_r by lia. lia.
  - rewrite Pos2Z.inj_succ, (Pos2Z.inj_xO p).
    replace (Z.succ (Zpos (digits2_pos p)) - 1) with (Z.succ (Zpos (digits2_pos p) - 1)) by lia.
    rewrite !Z.pow_succ_r by lia. lia.
  - cbn. lia.
Qed.

Lemma Zdigits2_spec (m : Z) :
  0 < m -> 2 ^ (Zdigits2 m - 1) <= m < 2 ^ Zdigits2 m /\ 0 < Zdigits2 m.
Proof.
  destruct m as [|p|p]; try lia. intros _. cbn [Zdigits2].
  split; [apply digits2_pos_spec|lia].
Qed.

Lemma pow2_pos (k : Z) : 0 <= k -> 0 < 2 ^ k.
Proof. intros. apply Z.pow_pos_nonneg; lia. Qed.

Lemma pow2_split (a c : Z) : 0 <= a -> 0 <= c -> 2 ^ (a + c) = 2 ^ a * 2 ^ c.
Proof. intros. apply Z.pow_add_r; lia. Qed.

Lemma pow2_le (a c : Z) : 0 <= a <= c -> 2 ^ a <= 2 ^ c.
Proof. intros. apply Z.pow_le_mono_r; lia. Qed.

Lemma pow2_lt_inv (a c : Z) : 0 <= c -> 2 ^ a < 2 ^ c -> a < c.
Proof. intros Hc H. apply (Z.pow_lt_mono_r_iff 2); lia. Qed.

Lemma tracks_of_loc (A Dk m : Z) (l : location) :
  0 < Dk -> 0 <= A -> m = A / Dk -> l = loc_of A Dk ->
  tracks A Dk (shr_record_of_loc m l).
Proof.
  intros HD HA -> ->. unfold tracks. repeat split; try assumption.
  - now destruct (loc_of A Dk) as [|[]].
  - now destruct (loc_of A Dk) as [|[]].
Qed.

Lemma shr_1_tracks (A Dk : Z) (mrs : shr_record) :
  tracks A Dk mrs -> tracks A (2 * Dk) (shr_1 mrs).
Proof.
  destruct mrs as [m r s]. unfold tracks, loc_of. cbn [shr_m].
  intros (HD & HA & Hm & Hl).
  pose proof (Z.div_mod A Dk ltac:(lia)) as Hdm.
  pose proof (Z.mod_pos_bound A Dk HD) as Hrem.
  assert (Hq : 0 <= A / Dk) by (apply Z.div_pos; lia).
  assert (Hdiv : A / (2 * Dk) = A / Dk / 2).
  { rewrite (Z.mul_comm 2 Dk). symmetry. apply Z.div_div; lia. }
  assert (Hmod : A mod (2 * Dk) = A mod Dk + Dk * (A / Dk mod 2)).
  { rewrite (Z.mul_comm 2 Dk). apply Z.rem_mul_r; lia. }
  rewrite Hdiv, Hmod. clear Hdiv Hmod.
  set (q := A / Dk) in *. set (rem := A mod Dk) in *.
  pose proof (Z.div_mod q 2 ltac:(lia)) as Hq2.
  pose proof (Z.mod_pos_bound q 2 ltac:(lia)) as Hq2b.
  assert (Hrs : orb r s = negb (rem =? 0)).
  { revert Hl. cbn [loc_of_shr_record].
    destruct (Z.eqb_spec rem 0), r, s; cbn; congruence. }
  split; [lia|]. split; [lia|].
  subst m. clear Hl.
  destruct q as [|[p|p|]|p]; try lia; cbn [shr_1 shr_m loc_of_shr_record];
    rewrite Hrs.
  - change (0 / 2) with 0. change (0 mod 2) with 0.
    split; [reflexivity|].
    destruct (Z.eqb_spec rem 0), (Z.eqb_spec (rem + Dk * 0) 0); try lia; cbn [negb];
      [reflexivity|].
    destruct (Z.compare_spec (2 * (rem + Dk * 0)) (2 * Dk)); try lia; reflexivity.
  - (* q = 2p+1 *)
    rewrite (Pos2Z.inj_xI p) in *.
    replace ((2 * Z.pos p + 1) / 2) with (Z.pos p) by (apply Z.div_unique with 1; lia).
    replace ((2 * Z.pos p + 1) mod 2) with 1 by (apply Z.mod_unique with (Z.pos p); lia).
    split; [reflexivity|].
    destruct (Z.eqb_spec rem 0), (Z.eqb_spec (rem + Dk * 1) 0); try lia; cbn [negb];
      destruct (Z.compare_spec (2 * (rem + Dk * 1)) (2 * Dk)); try lia; reflexivity.
  - rewrite (Pos2Z.inj_xO p) in *.
    replace (2 * Z.pos p / 2) with (Z.pos p) by (apply Z.div_unique with 0; lia).
    replace ((2 * Z.pos p) mod 2) with 0 by (apply Z.mod_unique with (Z.pos p); lia).
    split; [reflexivity|].
    destruct (Z.eqb_spec rem 0), (Z.eqb_spec (rem + Dk * 0) 0); try lia; cbn [negb];
      [reflexivity|].
    destruct (Z.compare_spec (2 * (rem + Dk * 0)) (2 * Dk)); try lia; reflexivity.
  - change (1 / 2) with 0. change (1 mod 2) with 1.
    split; [reflexivity|].
    destruct (Z.eqb_spec rem 0), (Z.eqb_spec (rem + Dk * 1) 0); try lia; cbn [negb];
      destruct (Z.compare_spec (2 * (rem + Dk * 1)) (2 * Dk)); try lia; reflexivity.
Qed.

Lemma iter_shr_1_tracks (A : Z) (p : positive) :
  forall (Dk : Z) (mrs : shr_record),
    tracks A Dk mrs -> tracks A (Dk * 2 ^ Zpos p) (SpecFloat.iter_pos shr_1 p mrs).
Proof.
  induction p as [p IH|p IH|]; intros Dk mrs H; cbn [SpecFloat.iter_pos].
  - apply shr_1_tracks, IH, IH in H.
    replace (Dk * 2 ^ Z.pos p~1) with (2 * Dk * 2 ^ Z.pos p * 2 ^ Z.pos p); [exact H|].
    rewrite (Pos2Z.inj_xI p). rewrite (pow2_split (2 * Z.pos p) 1), Z.pow_1_r by lia.
    replace (2 * Z.pos p) with (Z.pos p + Z.pos p) by lia.
    rewrite pow2_split by lia. ring.
  - apply IH, IH in H.
    replace (Dk * 2 ^ Z.pos p~0) with (Dk * 2 ^ Z.pos p * 2 ^ Z.pos p); [exact H|].
    rewrite (Pos2Z.inj_xO p).
    replace (2 * Z.pos p) with (Z.pos p + Z.pos p) by lia.
    rewrite pow2_split by lia. ring.
  - apply shr_1_tracks in H. now rewrite Z.pow_1_r, Z.mul_comm.
Qed.

Lemma shr_tracks (A Dk : Z) (mrs : shr_record) (e n : Z) :
  tracks A Dk mrs -> 0 <= n ->
  tracks A (Dk * 2 ^ n) (shr mrs e n).1 /\ (shr mrs e n).2 = e + n.
Proof.
  intros H Hn. destruct n as [|p|p]; try lia; cbn [shr fst snd].
  - rewrite Z.pow_0_r, Z.mul_1_r. split; [exact H|lia].
  - split; [now apply iter_shr_1_tracks|reflexivity].
Qed.

(** The first shift of the rounding brings the mantissa to the exponent
    of the format: below 2^24, and at least 2^23 above the smallest
    exponent. *)
Lemma shr_fexp_stage (A Dk m e : Z) (l : location) :
  0 < Dk -> 0 <= A -> m = A / Dk -> l = loc_of A Dk ->
  e <= fexp F32.prec F32.emax (Zdigits2 m + e) ->
  exists (mrs : shr_record) (E : Z),
    shr_fexp F32.prec F32.emax m e l = (mrs, E)
    /\ e <= E /\ - 149 <= E
    /\ tracks A (Dk * 2 ^ (E - e)) mrs
    /\ 0 <= A / (Dk * 2 ^ (E - e)) < 2 ^ 24
    /\ (- 149 < E -> 2 ^ 23 <= A / (Dk * 2 ^ (E - e))).
Proof.
  intros HD HA Hm Hl He. rewrite fexp32 in He.
  set (E := Z.max (Zdigits2 m + e - 24) (- 149)) in *.
  pose proof (shr_tracks A Dk (shr_record_of_loc m l) e (E - e)
                (tracks_of_loc A Dk m l HD HA Hm Hl) ltac:(lia)) as [Ht He'].
  exists (shr (shr_record_of_loc m l) e (E - e)).1, E.
  assert (Hshr : shr_fexp F32.prec F32.emax m e l
                 = ((shr (shr_record_of_loc m l) e (E - e)).1, E)).
  { unfold shr_fexp. rewrite fexp32. fold E.
    destruct (shr (shr_record_of_loc m l) e (E - e)) as [mrs e'] eqn:Hs.
    cbn [fst snd] in *. f_equal. lia. }
  split; [exact Hshr|]. split; [lia|]. split; [lia|]. split; [exact Ht|].
  assert (Hn : 0 < 2 ^ (E - e)) by (apply pow2_pos; lia).
  assert (Hdd : A / (Dk * 2 ^ (E - e)) = m / 2 ^ (E - e)).
  { rewrite Hm. symmetry. apply Z.div_div; lia. }
  rewrite Hdd.
  assert (Hm0 : 0 <= m) by (rewrite Hm; apply Z.div_pos; lia).
  destruct (Z.eq_dec m 0) as [->|Hne].
  - rewrite Z.div_0_l by lia. cbn [Zdigits2] in E.
    split; [lia|]. intros HE. lia.
  - destruct (Zdigits2_spec m ltac:(lia)) as [[Hlo Hhi] Hdg].
    split; [split|].
    + apply Z.div_pos; lia.
    + apply Z.div_lt_upper_bound; [lia|].
      rewrite <- pow2_split by lia.
      assert (2 ^ Zdigits2 m <= 2 ^ (E - e + 24)) by (apply pow2_le; lia). lia.
    + intros HE. apply Z.div_le_lower_bound; [lia|].
      rewrite <- pow2_split by lia.
      replace (E - e + 23) with (Zdigits2 m - 1) by lia. exact Hlo.
Qed.

(** The second shift moves a mantissa that reached 2^24 to the next
    exponent and leaves any other one. *)
Lemma shr_fexp_renormalize (R E : Z) :
  0 <= R <= 2 ^ 24 -> - 149 <= E ->
  exists mrs : shr_record,
    shr_fexp F32.prec F32.emax R E loc_Exact = (mrs, (renormalized R E).2)
    /\ shr_m mrs = (renormalized R E).1.
Proof.
  intros HR HE. unfold renormalized, shr_fexp. rewrite fexp32.
  destruct (Z.eqb_spec R (2 ^ 24)) as [->|Hne]; cbn [fst snd].
  - change (Zdigits2 (2 ^ 24)) with 25.
    replace (Z.max (25 + E - 24) (- 149) - E) with 1 by lia.
    eexists. split; reflexivity.
  - assert (Hn : Z.max (Zdigits2 R + E - 24) (- 149) - E <= 0).
    { destruct (Z.eq_dec R 0) as [->|Hpos]; [cbn [Zdigits2]; lia|].
      destruct (Zdigits2_spec R ltac:(lia)) as [[Hlo Hhi] Hdg].
      assert (Zdigits2 R - 1 < 24) by (apply pow2_lt_inv; lia). lia. }
    exists (shr_record_of_loc R loc_Exact). split; [|reflexivity].
    destruct (Z.max (Zdigits2 R + E - 24) (- 149) - E) as [|p|p]; try lia;
      reflexivity.
Qed.

Lemma round_nearest_even_bounds (M : Z) (L : location) :
  M <= round_nearest_even M L <= M + 1.
Proof. destruct L as [|[]]; cbn; try destruct (Z.even M); lia. Qed.

(** What [binary_round_aux] returns for a fraction it is given with enough
    digits: the fraction is cut at the exponent of the format, rounded to
    the nearest integer, and renormalized. *)
Lemma binary_round_aux_spec (sx : bool) (A Dk m e : Z) (l : location) :
  0 < Dk -> 0 <= A -> m = A / Dk -> l = loc_of A Dk ->
  e <= fexp F32.prec F32.emax (Zdigits2 m + e) ->
  exists E : Z,
    e <= E /\ - 149 <= E
    /\ 0 <= A / (Dk * 2 ^ (E - e)) < 2 ^ 24
    /\ (- 149 < E -> 2 ^ 23 <= A / (Dk * 2 ^ (E - e)))
    /\ binary_round_aux F32.prec F32.emax sx m e l
       = rounded sx (renormalized (round_at A (Dk * 2 ^ (E - e))) E).1
                    (renormalized (round_at A (Dk * 2 ^ (E - e))) E).2.
Proof.
  intros HD HA Hm Hl He.
  destruct (shr_fexp_stage A Dk m e l HD HA Hm Hl He)
    as (mrs & E & Hs & HeE & HE & (_ & _ & Hsm & Hsl) & Hb & Hn).
  exists E. repeat (split; [assumption|]).
  unfold binary_round_aux. rewrite Hs, Hsm, Hsl. fold (round_at A (Dk * 2 ^ (E - e))).
  set (R := round_at A (Dk * 2 ^ (E - e))).
  assert (HR : 0 <= R <= 2 ^ 24).
  { pose proof (round_nearest_even_bounds (A / (Dk * 2 ^ (E - e)))
                  (loc_of A (Dk * 2 ^ (E - e)))) as Hrb.
    fold (round_at A (Dk * 2 ^ (E - e))) in Hrb. fold R in Hrb. lia. }
  destruct (shr_fexp_renormalize R E HR HE) as (mrs2 & Hs2 & Hm2).
  rewrite Hs2, Hm2. unfold rounded.
  destruct (renormalized R E).1; reflexivity.
Qed.

Lemma round_at_mono (K A1 A2 : Z) :
  0 < K -> 0 <= A1 <= A2 -> round_at A1 K <= round_at A2 K.
Proof.
  intros HK HA. unfold round_at, loc_of, round_nearest_even.
  pose proof (Z.div_mod A1 K ltac:(lia)) as H1.
  pose proof (Z.div_mod A2 K ltac:(lia)) as H2.
  pose proof (Z.mod_pos_bound A1 K HK) as B1.
  pose proof (Z.mod_pos_bound A2 K HK) as B2.
  assert (Hle : A1 / K <= A2 / K) by (apply Z.div_le_mono; lia).
  set (M1 := A1 / K) in *. set (M2 := A2 / K) in *.
  set (r1 := A1 mod K) in *. set (r2 := A2 mod K) in *.
  destruct (Z.eq_dec M1 M2) as [HM|HM].
  - rewrite <- HM in *. assert (Hr : r1 <= r2) by lia.
    destruct (Z.eqb_spec r1 0), (Z.eqb_spec r2 0); try lia;
      try (destruct (Z.compare_spec (2 * r1) K));
      try (destruct (Z.compare_spec (2 * r2) K));
      try (destruct (Z.even M1)); lia.
  - assert (M1 + 1 <= M2) by lia.
    destruct (Z.eqb_spec r1 0), (Z.eqb_spec r2 0);
      try (destruct (Z.compare_spec (2 * r1) K));
      try (destruct (Z.compare_spec (2 * r2) K));
      try (destruct (Z.even M1)); try (destruct (Z.even M2)); lia.
Qed.

Lemma round_at_bounds (A K : Z) : A / K <= round_at A K <= A / K + 1.
Proof. apply round_nearest_even_bounds. Qed.

Lemma renormalized_canonical (A K E : Z) :
  - 149 <= E -> 0 <= A / K < 2 ^ 24 -> (- 149 < E -> 2 ^ 23 <= A / K) ->
  canonical (renormalized (round_at A K) E).1 (renormalized (round_at A K) E).2.
Proof.
  intros HE Hb Hn. pose proof (round_at_bounds A K) as HR.
  unfold renormalized, canonical.
  destruct (Z.eqb_spec (round_at A K) (2 ^ 24)); cbn [fst snd]; lia.
Qed.

(** Rounding is monotone: of two fractions over a common denominator,
    given at exponents of their own, the smaller one rounds to the
    smaller pair. *)
Lemma renormalized_mono (D c A1 A2 E1 E2 : Z) :
  0 < D -> 0 <= A1 <= A2 -> c <= E1 -> c <= E2 ->
  - 149 <= E1 -> - 149 <= E2 ->
  0 <= A1 / (D * 2 ^ (E1 - c)) < 2 ^ 24 ->
  (- 149 < E1 -> 2 ^ 23 <= A1 / (D * 2 ^ (E1 - c))) ->
  0 <= A2 / (D * 2 ^ (E2 - c)) < 2 ^ 24 ->
  (- 149 < E2 -> 2 ^ 23 <= A2 / (D * 2 ^ (E2 - c))) ->
  pair_le (renormalized (round_at A1 (D * 2 ^ (E1 - c))) E1).1
          (renormalized (round_at A1 (D * 2 ^ (E1 - c))) E1).2
          (renormalized (round_at A2 (D * 2 ^ (E2 - c))) E2).1
          (renormalized (round_at A2 (D * 2 ^ (E2 - c))) E2).2.
Proof.
  intros HD HA Hc1 Hc2 HE1 HE2 Hb1 Hn1 Hb2 Hn2.
  set (K1 := D * 2 ^ (E1 - c)) in *. set (K2 := D * 2 ^ (E2 - c)) in *.
  assert (HK1 : 0 < K1) by (pose proof (pow2_pos (E1 - c)); subst K1; nia).
  assert (HK2 : 0 < K2) by (pose proof (pow2_pos (E2 - c)); subst K2; nia).
  pose proof (round_at_bounds A1 K1) as HR1.
  pose proof (round_at_bounds A2 K2) as HR2.
  pose proof (Z.mul_div_le A1 K1 HK1) as Hlo1.
  pose proof (Z.mul_succ_div_gt A1 K1 HK1) as Hhi1.
  pose proof (Z.mul_div_le A2 K2 HK2) as Hlo2.
  pose proof (Z.mul_succ_div_gt A2 K2 HK2) as Hhi2.
  assert (HE : E1 <= E2).
  { destruct (Z_le_gt_dec E1 E2) as [|Hgt]; [assumption|exfalso].
    assert (HK : K1 = K2 * 2 ^ (E1 - E2)).
    { subst K1 K2. rewrite <- Z.mul_assoc, <- pow2_split by lia.
      do 2 f_equal. lia. }
    assert (2 <= 2 ^ (E1 - E2)).
    { change 2 with (2 ^ 1) at 1. apply pow2_le. lia. }
    specialize (Hn1 ltac:(lia)).
    assert (2 ^ 24 * K2 <= A1); [|nia].
    apply Z.le_trans with (K1 * 2 ^ 23); [|nia].
    rewrite HK. change (2 ^ 24) with (2 * 2 ^ 23). nia. }
  unfold pair_le, renormalized.
  destruct (Z.eq_dec E1 E2) as [Heq|Hne].
  - assert (K1 = K2) by (subst K1 K2; now rewrite Heq).
    pose proof (round_at_mono K1 A1 A2 HK1 HA) as Hm.
    replace K2 with K1 in *.
    destruct (Z.eqb_spec (round_at A1 K1) (2 ^ 24)),
             (Z.eqb_spec (round_at A2 K1) (2 ^ 24)); cbn [fst snd]; lia.
  - specialize (Hn2 ltac:(lia)).
    destruct (Z.eqb_spec (round_at A1 K1) (2 ^ 24)),
             (Z.eqb_spec (round_at A2 K2) (2 ^ 24)); cbn [fst snd]; lia.
Qed.

(** The order of canonical pairs is the order of the floats. *)
Lemma rounded_le (R1 E1 R2 E2 : Z) :
  canonical R1 E1 -> canonical R2 E2 -> pair_le R1 E1 R2 E2 ->
  fle (rounded false R1 E1) (rounded false R2 E2) = true.
Proof.
  unfold canonical, pair_le, rounded, F32.leb, SFleb.
  intros (HR1 & HE1 & HN1) (HR2 & HE2 & HN2) Hle.
  destruct R1 as [|p1|p1], R2 as [|p2|p2]; try lia.
  - reflexivity.
  - destruct (E2 <=? 104); reflexivity.
  - destruct (Z.leb_spec E1 104), (Z.leb_spec E2 104); cbn [SFcompare];
      try reflexivity; try lia.
    destruct (Z.compare_spec E1 E2); try reflexivity; try lia.
    change (Pos.compare_cont Eq p1 p2) with (p1 ?= p2)%positive.
    destruct (Pos.compare_spec p1 p2); try reflexivity; lia.
Qed.

(** The order of canonical pairs is the order of their values. *)
Lemma pair_le_value (R1 E1 R2 E2 c : Z) :
  canonical R1 E1 -> canonical R2 E2 -> pair_le R1 E1 R2 E2 ->
  c <= E1 -> c <= E2 ->
  R1 * 2 ^ (E1 - c) <= R2 * 2 ^ (E2 - c).
Proof.
  unfold canonical, pair_le.
  intros (HR1 & HE1 & HN1) (HR2 & HE2 & HN2) Hle Hc1 Hc2.
  pose proof (pow2_pos (E1 - c) ltac:(lia)) as Hp.
  destruct Hle as [Hlt|[-> Hle]]; [|nia].
  replace (E2 - c) with (E1 - c + (E2 - E1)) by lia.
  rewrite pow2_split by lia.
  assert (2 <= 2 ^ (E2 - E1)).
  { change 2 with (2 ^ 1) at 1. apply pow2_le. lia. }
  specialize (HN2 ltac:(lia)).
  assert (R1 * 2 ^ (E1 - c) <= 2 ^ 24 * 2 ^ (E1 - c)) by nia.
  assert (2 ^ 24 * 2 ^ (E1 - c) <= R2 * (2 ^ (E1 - c) * 2 ^ (E2 - E1))); [|lia].
  replace (R2 * (2 ^ (E1 - c) * 2 ^ (E2 - E1)))
    with (R2 * 2 ^ (E2 - E1) * 2 ^ (E1 - c)) by ring.
  apply Z.mul_le_mono_nonneg_r; [lia|].
  change (2 ^ 24) with (2 ^ 23 * 2). nia.
Qed.

(** [binary_round_aux] is monotone on fractions over a common denominator. *)
Lemma binary_round_aux_mono (D c A1 A2 m1 e1 m2 e2 : Z) (l1 l2 : location) :
  0 < D -> 0 <= A1 <= A2 -> c <= e1 -> c <= e2 ->
  m1 = A1 / (D * 2 ^ (e1 - c)) -> l1 = loc_of A1 (D * 2 ^ (e1 - c)) ->
  e1 <= fexp F32.prec F32.emax (Zdigits2 m1 + e1) ->
  m2 = A2 / (D * 2 ^ (e2 - c)) -> l2 = loc_of A2 (D * 2 ^ (e2 - c)) ->
  e2 <= fexp F32.prec F32.emax (Zdigits2 m2 + e2) ->
  exists R1 E1 R2 E2 : Z,
    binary_round_aux F32.prec F32.emax false m1 e1 l1 = rounded false R1 E1
    /\ binary_round_aux F32.prec F32.emax false m2 e2 l2 = rounded false R2 E2
    /\ canonical R1 E1 /\ canonical R2 E2 /\ pair_le R1 E1 R2 E2.
Proof.
  intros HD HA Hc1 Hc2 Hm1 Hl1 He1 Hm2 Hl2 He2.
  assert (HD1 : 0 < D * 2 ^ (e1 - c)) by (pose proof (pow2_pos (e1 - c)); nia).
  assert (HD2 : 0 < D * 2 ^ (e2 - c)) by (pose proof (pow2_pos (e2 - c)); nia).
  destruct (binary_round_aux_spec false A1 _ m1 e1 l1 HD1 ltac:(lia) Hm1 Hl1 He1)
    as (E1 & HeE1 & HE1 & Hb1 & Hn1 & ->).
  destruct (binary_round_aux_spec false A2 _ m2 e2 l2 HD2 ltac:(lia) Hm2 Hl2 He2)
    as (E2 & HeE2 & HE2 & Hb2 & Hn2 & ->).
  assert (HK1 : D * 2 ^ (e1 - c) * 2 ^ (E1 - e1) = D * 2 ^ (E1 - c)).
  { rewrite <- Z.mul_assoc, <- pow2_split by lia. do 2 f_equal. lia. }
  assert (HK2 : D * 2 ^ (e2 - c) * 2 ^ (E2 - e2) = D * 2 ^ (E2 - c)).
  { rewrite <- Z.mul_assoc, <- pow2_split by lia. do 2 f_equal. lia. }
  rewrite HK1 in *. rewrite HK2 in *.
  eexists _, _, _, _. split; [reflexivity|]. split; [reflexivity|].
  split; [now apply renormalized_canonical|].
  split; [now apply renormalized_canonical|].
  apply renormalized_mono; auto; lia.
Qed.

Lemma canonical_zero (E : Z) : - 149 <= E -> E <= - 149 -> canonical 0 E.
Proof. unfold canonical. lia. Qed.

Lemma fle_zero_rounded (R E : Z) :
  canonical R E -> fle (S754_zero false) (rounded false R E) = true.
Proof.
  unfold canonical, rounded. intros (HR & _).
  destruct R as [|p|p]; try lia; [reflexivity|].
  destruct (E <=? 104); reflexivity.
Qed.

Lemma fle_rounded_infinity (R E : Z) :
  canonical R E -> fle (rounded false R E) (S754_infinity false) = true.
Proof.
  unfold canonical, rounded. intros (HR & _).
  destruct R as [|p|p]; try lia; [reflexivity|].
  destruct (E <=? 104); reflexivity.
Qed.

(** *** Alignment *)

Lemma iter_xO_spec (m d : positive) :
  Zpos (Pos.iter xO m d) = Zpos m * 2 ^ Zpos d
  /\ Zpos (digits2_pos (Pos.iter xO m d)) = Zpos (digits2_pos m) + Zpos d.
Proof.
  induction d as [|d [IH1 IH2]] using Pos.peano_ind.
  - cbn [Pos.iter digits2_pos]. rewrite Z.pow_1_r, (Pos2Z.inj_xO m), Pos2Z.inj_succ. lia.
  - rewrite Pos.iter_succ. cbn [digits2_pos].
    rewrite (Pos2Z.inj_xO (Pos.iter xO m d)), !Pos2Z.inj_succ, IH1, IH2.
    rewrite Z.pow_succ_r by lia. lia.
Qed.

Lemma shl_align_spec (mx : positive) (ex ex' : Z) :
  (shl_align mx ex ex').2 = Z.min ex ex'
  /\ Zpos (shl_align mx ex ex').1 = Zpos mx * 2 ^ (ex - Z.min ex ex')
  /\ Zpos (digits2_pos (shl_align mx ex ex').1) + (shl_align mx ex ex').2
     = Zpos (digits2_pos mx) + ex.
Proof.
  unfold shl_align. destruct (ex' - ex) as [|d|d] eqn:Hd; cbn [fst snd].
  - replace (Z.min ex ex') with ex by lia. rewrite Z.sub_diag, Z.pow_0_r. lia.
  - replace (Z.min ex ex') with ex by lia. rewrite Z.sub_diag, Z.pow_0_r. lia.
  - destruct (iter_xO_spec mx d) as [H1 H2].
    replace (Z.min ex ex') with ex' by lia.
    replace (ex - ex') with (Zpos d) by lia. lia.
Qed.

Lemma loc_of_exact (A K : Z) : A mod K = 0 -> loc_of A K = loc_Exact.
Proof. unfold loc_of. now intros ->. Qed.

(** [binary_round] is monotone in the mantissa. *)
Lemma binary_round_mono (P1 P2 : positive) (ez : Z) :
  (P1 <= P2)%positive ->
  exists R1 E1 R2 E2 : Z,
    binary_round F32.prec F32.emax false P1 ez = rounded false R1 E1
    /\ binary_round F32.prec F32.emax false P2 ez = rounded false R2 E2
    /\ canonical R1 E1 /\ canonical R2 E2 /\ pair_le R1 E1 R2 E2.
Proof.
  intros HP. unfold binary_round.
  pose proof (shl_align_spec P1 ez (fexp F32.prec F32.emax (Zpos (digits2_pos P1) + ez)))
    as (Ha1 & Hb1 & Hc1).
  pose proof (shl_align_spec P2 ez (fexp F32.prec F32.emax (Zpos (digits2_pos P2) + ez)))
    as (Ha2 & Hb2 & Hc2).
  destruct (shl_align P1 ez _) as [m1 e1]. destruct (shl_align P2 ez _) as [m2 e2].
  cbn [fst snd] in *.
  set (c := Z.min e1 e2).
  assert (Hp1 : 0 < 2 ^ (e1 - c)) by (apply pow2_pos; lia).
  assert (Hp2 : 0 < 2 ^ (e2 - c)) by (apply pow2_pos; lia).
  assert (HA1 : Zpos P1 * 2 ^ (ez - c) = Zpos m1 * 2 ^ (e1 - c)).
  { rewrite Hb1, <- Ha1, <- Z.mul_assoc, <- pow2_split by lia. do 2 f_equal. lia. }
  assert (HA2 : Zpos P2 * 2 ^ (ez - c) = Zpos m2 * 2 ^ (e2 - c)).
  { rewrite Hb2, <- Ha2, <- Z.mul_assoc, <- pow2_split by lia. do 2 f_equal. lia. }
  apply (binary_round_aux_mono 1 c (Zpos P1 * 2 ^ (ez - c)) (Zpos P2 * 2 ^ (ez - c)));
    rewrite ?Z.mul_1_l; try lia.
  - pose proof (pow2_pos (ez - c) ltac:(lia)). nia.
  - rewrite HA1, Z.div_mul by lia. reflexivity.
  - symmetry. apply loc_of_exact. rewrite HA1. apply Z.mod_mul. lia.
  - cbn [Zdigits2]. rewrite Hc1. lia.
  - rewrite HA2, Z.div_mul by lia. reflexivity.
  - symmetry. apply loc_of_exact. rewrite HA2. apply Z.mod_mul. lia.
  - cbn [Zdigits2]. rewrite Hc2. lia.
Qed.

(** *** Division *)

Lemma new_location_spec (K r : Z) :
  0 < K -> 0 <= r < K ->
  new_location K r = if r =? 0 then loc_Exact else loc_Inexact (2 * r ?= K).
Proof.
  intros HK Hr. unfold new_location, new_location_even, new_location_odd.
  destruct (Z.even K) eqn:Hev; destruct (Z.eqb_spec r 0); try reflexivity.
  f_equal.
  assert (Hodd : Z.odd K = true) by (rewrite <- Z.negb_even, Hev; reflexivity).
  apply Z.odd_spec in Hodd as [k Hk].
  destruct (Z.compare_spec (2 * r + 1) K), (Z.compare_spec (2 * r) K);
    try reflexivity; lia.
Qed.

Lemma loc_of_scale (A K t : Z) :
  0 < K -> 0 < t -> loc_of (A * t) (K * t) = loc_of A K /\ A * t / (K * t) = A / K.
Proof.
  intros HK Ht. split.
  - unfold loc_of. rewrite Z.mul_mod_distr_r by lia.
    destruct (Z.eqb_spec (A mod K) 0) as [->|Hne]; [reflexivity|].
    destruct (Z.eqb_spec (A mod K * t) 0); [nia|].
    f_equal.
    destruct (Z.compare_spec (2 * (A mod K * t)) (K * t)),
             (Z.compare_spec (2 * (A mod K)) K); try reflexivity; nia.
  - apply Z.div_mul_cancel_r; lia.
Qed.

(** The quotient [SFdiv] hands to the rounding: integer part and
    position of m1 * 2^s / m2, with enough digits. *)
Lemma SFdiv_core_binary_spec (m1 m2 : positive) (e1 e2 : Z) :
  exists s : Z,
    0 <= s
    /\ SFdiv_core_binary F32.prec F32.emax (Zpos m1) e1 (Zpos m2) e2
       = (Zpos m1 * 2 ^ s / Zpos m2, e1 - e2 - s,
          loc_of (Zpos m1 * 2 ^ s) (Zpos m2))
    /\ e1 - e2 - s
       <= fexp F32.prec F32.emax (Zdigits2 (Zpos m1 * 2 ^ s / Zpos m2) + (e1 - e2 - s)).
Proof.
  unfold SFdiv_core_binary. rewrite !fexp32.
  set (g := Zdigits2 (Zpos m1) + e1 - (Zdigits2 (Zpos m2) + e2)).
  set (e' := Z.min (Z.max (g - 24) (- 149)) (e1 - e2)).
  set (s := e1 - e2 - e').
  assert (Hs : 0 <= s) by lia.
  exists s. split; [exact Hs|].
  assert (Hm' : match s with
                | 0 => Zpos m1
                | Zpos _ => Z.shiftl (Zpos m1) s
                | Zneg _ => 0
                end = Zpos m1 * 2 ^ s).
  { destruct s as [|p|p] eqn:Hsp; try lia.
    apply Z.shiftl_mul_pow2. lia. }
  rewrite Hm'. set (m' := Zpos m1 * 2 ^ s) in *.
  replace (e1 - e2 - s) with e' by lia.
  assert (Hp : 0 < 2 ^ s) by (apply pow2_pos; lia).
  assert (Hm'0 : 0 <= m') by (subst m'; nia).
  split.
  - pose proof (Z.mod_pos_bound m' (Zpos m2) ltac:(lia)) as Hr.
    unfold loc_of. rewrite <- (new_location_spec (Zpos m2) (m' mod Zpos m2)) by lia.
    unfold Z.div, Z.modulo.
    destruct (Z.div_eucl m' (Zpos m2)) as [q r]. reflexivity.
  - rewrite fexp32. destruct (Z_le_gt_dec e' (- 149)) as [|Hgt]; [lia|].
    assert (He' : e' <= g - 24) by lia.
    destruct (Zdigits2_spec (Zpos m1) ltac:(lia)) as [[Hlo1 _] Hd1].
    destruct (Zdigits2_spec (Zpos m2) ltac:(lia)) as [[_ Hhi2] Hd2].
    set (d1 := Zdigits2 (Zpos m1)) in *. set (d2 := Zdigits2 (Zpos m2)) in *.
    assert (Hq : 2 ^ 23 <= m' / Zpos m2).
    { apply Z.div_le_lower_bound; [lia|].
      assert (H1 : 2 ^ (d1 - 1) * 2 ^ s <= m') by (subst m'; nia).
      rewrite <- pow2_split in H1 by lia.
      assert (H2 : 2 ^ (d2 + 23) <= 2 ^ (d1 - 1 + s)) by (apply pow2_le; lia).
      rewrite pow2_split in H2 by lia. nia. }
    destruct (Zdigits2_spec (m' / Zpos m2) ltac:(lia)) as [[_ Hhi] Hdq].
    assert (23 < Zdigits2 (m' / Zpos m2)) by (apply pow2_lt_inv; lia).
    lia.
Qed.

(** The quotient of a canonical finite number by a positive finite
    number is a canonical pair. *)
Lemma fdiv_rounded (p md : positive) (E ed : Z) :
  exists R' E' : Z,
    fdiv (S754_finite false p E) (S754_finite false md ed) = rounded false R' E'
    /\ canonical R' E'.
Proof.
  unfold F32.div, SFdiv.
  destruct (SFdiv_core_binary_spec p md E ed) as (s & Hs & -> & He).
  cbn [xorb].
  destruct (binary_round_aux_spec false (Zpos p * 2 ^ s) (Zpos md) _ _ _
              ltac:(lia) ltac:(pose proof (pow2_pos s Hs); nia) eq_refl eq_refl He)
    as (E0 & _ & HE0 & Hb & Hn & ->).
  eexists _, _. split; [reflexivity|]. now apply renormalized_canonical.
Qed.

(** Division by a positive finite number is monotone on canonical pairs. *)
Lemma fdiv_mono (R1 E1 R2 E2 : Z) (md : positive) (ed : Z) :
  canonical R1 E1 -> canonical R2 E2 -> pair_le R1 E1 R2 E2 ->
  fle (fdiv (rounded false R1 E1) (S754_finite false md ed))
      (fdiv (rounded false R2 E2) (S754_finite false md ed)) = true.
Proof.
  intros C1 C2 Hle.
  pose proof C1 as (HR1 & HE1 & HN1). pose proof C2 as (HR2 & HE2 & HN2).
  assert (HEle : E1 <= E2) by (unfold pair_le in Hle; lia).
  unfold rounded.
  destruct R1 as [|p1|p1]; try lia.
  { (* zero numerator *)
    change (fdiv (S754_zero false) (S754_finite false md ed)) with (S754_zero false).
    destruct R2 as [|p2|p2]; try lia; [reflexivity|].
    destruct (E2 <=? 104); [|reflexivity].
    destruct (fdiv_rounded p2 md E2 ed) as (R' & E' & -> & HC).
    now apply fle_zero_rounded. }
  destruct R2 as [|p2|p2]; try lia.
  { exfalso. unfold pair_le in Hle. lia. }
  destruct (Z.leb_spec E1 104), (Z.leb_spec E2 104); try lia.
  - (* both finite *)
    unfold F32.div, SFdiv.
    destruct (SFdiv_core_binary_spec p1 md E1 ed) as (s1 & Hs1 & -> & He1).
    destruct (SFdiv_core_binary_spec p2 md E2 ed) as (s2 & Hs2 & -> & He2).
    cbn [xorb].
    set (e1 := E1 - ed - s1) in *. set (e2 := E2 - ed - s2) in *.
    set (c := Z.min e1 e2).
    pose proof (pow2_pos s1 Hs1) as Hp1. pose proof (pow2_pos s2 Hs2) as Hp2.
    pose proof (pow2_pos (e1 - c) ltac:(lia)) as Hq1.
    pose proof (pow2_pos (e2 - c) ltac:(lia)) as Hq2.
    destruct (loc_of_scale (Zpos p1 * 2 ^ s1) (Zpos md) (2 ^ (e1 - c))
                ltac:(lia) Hq1) as [Hl1 Hd1].
    destruct (loc_of_scale (Zpos p2 * 2 ^ s2) (Zpos md) (2 ^ (e2 - c))
                ltac:(lia) Hq2) as [Hl2 Hd2].
    destruct (binary_round_aux_mono (Zpos md) c
                (Zpos p1 * 2 ^ s1 * 2 ^ (e1 - c)) (Zpos p2 * 2 ^ s2 * 2 ^ (e2 - c))
                (Zpos p1 * 2 ^ s1 / Zpos md) e1 (Zpos p2 * 2 ^ s2 / Zpos md) e2
                (loc_of (Zpos p1 * 2 ^ s1) (Zpos md))
                (loc_of (Zpos p2 * 2 ^ s2) (Zpos md)))
      as (R1' & E1' & R2' & E2' & -> & -> & C1' & C2' & Hle');
      try lia; try (symmetry; assumption); try assumption.
    + split; [nia|].
      pose proof (pair_le_value (Zpos p1) E1 (Zpos p2) E2 (ed + c) C1 C2 Hle
                    ltac:(lia) ltac:(lia)) as Hv.
      rewrite <- !Z.mul_assoc, <- !pow2_split by lia.
      replace (s1 + (e1 - c)) with (E1 - (ed + c)) by lia.
      replace (s2 + (e2 - c)) with (E2 - (ed + c)) by lia. exact Hv.
    + now apply rounded_le.
  - (* finite by infinity *)
    change (fdiv (S754_infinity false) (S754_finite false md ed))
      with (S754_infinity false).
    destruct (fdiv_rounded p1 md E1 ed) as (R' & E' & -> & HC).
    now apply fle_rounded_infinity.
  - reflexivity.
Qed.

(** *** Signs and order *)

Lemma binary_round_aux_opp (s : bool) (m e : Z) (l : location) :
  binary_round_aux F32.prec F32.emax (negb s) m e l
  = fneg (binary_round_aux F32.prec F32.emax s m e l).
Proof.
  unfold binary_round_aux.
  destruct (shr_fexp F32.prec F32.emax m e l) as [mrs' e'].
  destruct (shr_fexp F32.prec F32.emax _ e' loc_Exact) as [mrs'' e''].
  destruct (shr_m mrs''); try reflexivity.
  destruct (e'' <=? F32.emax - F32.prec); reflexivity.
Qed.

Lemma binary_round_opp (P : positive) (ez : Z) :
  binary_round F32.prec F32.emax true P ez
  = fneg (binary_round F32.prec F32.emax false P ez).
Proof.
  unfold binary_round. destruct (shl_align _ _ _) as [mz e].
  apply (binary_round_aux_opp false).
Qed.

Lemma fdiv_opp (a : float) (md : positive) (ed : Z) :
  fdiv (fneg a) (S754_finite false md ed) = fneg (fdiv a (S754_finite false md ed)).
Proof.
  destruct a as [[]|[]| |s m e]; try reflexivity.
  unfold F32.div, F32.neg, SFopp, SFdiv.
  destruct (SFdiv_core_binary _ _ _ _ _ _) as [[mz ez] lz].
  rewrite !xorb_false_r. apply binary_round_aux_opp.
Qed.

Lemma SFcompare_swap (a c : float) (r : comparison) :
  SFcompare a c = Some r -> SFcompare c a = Some (CompOpp r).
Proof.
  destruct a as [sa|sa| |sa ma ea], c as [sc|sc| |sc mc ec]; cbn [SFcompare];
    try discriminate;
    try (intros [= <-]; try destruct sa; try destruct sc; reflexivity).
  intros [= <-]. f_equal.
  change (Pos.compare_cont Eq ma mc) with (ma ?= mc)%positive.
  change (Pos.compare_cont Eq mc ma) with (mc ?= ma)%positive.
  rewrite (Z.compare_antisym ea ec), (Pos.compare_antisym ma mc).
  destruct sa, sc; try reflexivity;
    destruct (ea ?= ec); cbn [CompOpp]; try reflexivity;
    destruct (ma ?= mc)%positive; reflexivity.
Qed.

Lemma fle_flt (a c : float) : fle c a = true -> flt a c = false.
Proof.
  unfold F32.leb, F32.ltb, SFleb, SFltb.
  destruct (SFcompare c a) as [r|] eqn:Hc; [|discriminate].
  rewrite (SFcompare_swap c a r Hc). now destruct r.
Qed.

Lemma flt_false_cases (a c : float) :
  flt a c = false -> a = S754_nan \/ c = S754_nan \/ fle c a = true.
Proof.
  unfold F32.leb, F32.ltb, SFleb, SFltb.
  destruct (SFcompare a c) as [r|] eqn:Hc.
  - rewrite (SFcompare_swap a c r Hc). destruct r; try discriminate; auto.
  - intros _. destruct a as [sa|sa| |sa ma ea], c as [sc|sc| |sc mc ec];
      cbn [SFcompare] in Hc; try discriminate; auto.
Qed.

Lemma fle_opp (a c : float) : fle (fneg c) (fneg a) = fle a c.
Proof.
  unfold F32.leb, F32.neg, SFleb.
  destruct a as [sa|sa| |sa ma ea], c as [sc|sc| |sc mc ec]; cbn [SFopp SFcompare];
    try reflexivity; try (destruct sa; reflexivity); try (destruct sc; reflexivity);
    try (destruct sa, sc; reflexivity).
  change (Pos.compare_cont Eq ma mc) with (ma ?= mc)%positive.
  change (Pos.compare_cont Eq mc ma) with (mc ?= ma)%positive.
  rewrite (Z.compare_antisym ea ec), (Pos.compare_antisym ma mc).
  destruct sa, sc; cbn [negb]; try reflexivity;
    destruct (ea ?= ec); cbn [CompOpp]; try reflexivity;
    destruct (ma ?= mc)%positive; reflexivity.
Qed.

Lemma fle_opp_rounded (R1 E1 R2 E2 : Z) :
  canonical R1 E1 -> canonical R2 E2 ->
  fle (fneg (rounded false R1 E1)) (rounded false R2 E2) = true.
Proof.
  unfold canonical, rounded. intros (HR1 & _) (HR2 & _).
  destruct R1 as [|p1|p1], R2 as [|p2|p2]; try lia;
    try destruct (E1 <=? 104); try destruct (E2 <=? 104); reflexivity.
Qed.

Lemma binary_round_rounded (P : positive) (ez : Z) :
  exists R E : Z,
    binary_round F32.prec F32.emax false P ez = rounded false R E /\ canonical R E.
Proof.
  destruct (binary_round_mono P P ez ltac:(lia)) as (R & E & _ & _ & H & _ & C & _).
  eauto.
Qed.

Lemma fdiv_rounded_any (R E : Z) (md : positive) (ed : Z) :
  canonical R E ->
  exists R' E' : Z,
    fdiv (rounded false R E) (S754_finite false md ed) = rounded false R' E'
    /\ canonical R' E'.
Proof.
  intros C. pose proof C as (HR & HE & HN). unfold rounded.
  destruct R as [|p|p]; try lia.
  - exists 0, (- 149). split; [reflexivity|]. apply canonical_zero; lia.
  - destruct (E <=? 104).
    + apply fdiv_rounded.
    + exists (2 ^ 23), 105. split; [reflexivity|]. unfold canonical. lia.
Qed.

(** The quotient by a positive finite number of the float nearest to
    S * 2^ez is monotone in S. *)
Lemma quotient_mono (S1 S2 ez : Z) (md : positive) (ed : Z) :
  S1 <= S2 ->
  fle (fdiv (binary_normalize F32.prec F32.emax S1 ez false) (S754_finite false md ed))
      (fdiv (binary_normalize F32.prec F32.emax S2 ez false) (S754_finite false md ed))
  = true.
Proof.
  intros HS.
  assert (Hpos : forall P : positive,
            exists R E, fdiv (binary_round F32.prec F32.emax false P ez)
                          (S754_finite false md ed) = rounded false R E
                        /\ canonical R E).
  { intros P. destruct (binary_round_rounded P ez) as (R & E & -> & C).
    now apply fdiv_rounded_any. }
  destruct S1 as [|P1|P1], S2 as [|P2|P2]; try lia; cbn [binary_normalize].
  - reflexivity.
  - destruct (Hpos P2) as (R & E & -> & C).
    change (fdiv (S754_zero false) (S754_finite false md ed)) with (S754_zero false).
    now apply fle_zero_rounded.
  - destruct (binary_round_mono P1 P2 ez ltac:(lia))
      as (R1 & E1 & R2 & E2 & -> & -> & C1 & C2 & Hle).
    now apply fdiv_mono.
  - rewrite binary_round_opp, fdiv_opp.
    destruct (Hpos P1) as (R & E & -> & C).
    change (fdiv (S754_zero false) (S754_finite false md ed))
      with (rounded false 0 (- 149)).
    apply fle_opp_rounded; [exact C|]. apply canonical_zero; lia.
  - rewrite binary_round_opp, fdiv_opp.
    destruct (Hpos P1) as (R1 & E1 & -> & C1).
    destruct (Hpos P2) as (R2 & E2 & -> & C2).
    now apply fle_opp_rounded.
  - rewrite !binary_round_opp, !fdiv_opp, fle_opp.
    destruct (binary_round_mono P2 P1 ez ltac:(lia))
      as (R2 & E2 & R1 & E1 & -> & -> & C2 & C1 & Hle).
    now apply fdiv_mono.
Qed.

(** *** The two roots *)

Lemma fdiv_nan_r (a : float) : fdiv a S754_nan = S754_nan.
Proof. destruct a; reflexivity. Qed.

Lemma fdiv_zero_r (a : float) :
  fdiv a (S754_zero false)
  = match sign_of_nonzero a with
    | Some s => S754_infinity s
    | None => S754_nan
    end.
Proof. destruct a as [s|s| |s m e]; cbn; try reflexivity; now destruct s. Qed.

Lemma fdiv_infinity_r (a : float) :
  fdiv a (S754_infinity false) = S754_nan
  \/ exists s, fdiv a (S754_infinity false) = S754_zero s.
Proof. destruct a as [s|s| |s m e]; cbn; eauto. Qed.

Lemma flt_nan_r (a : float) : flt a S754_nan = false.
Proof. destruct a; reflexivity. Qed.

Lemma flt_infinity_l (a : float) : flt (S754_infinity false) a = false.
Proof. destruct a as [s|[]| |s m e]; reflexivity. Qed.

Lemma flt_signs (a c : float) : sign_clear a -> has_sign true c -> flt a c = false.
Proof.
  unfold sign_clear.
  destruct a as [sa|sa| |sa ma ea], c as [sc|sc| |sc mc ec]; cbn [has_sign];
    intros; subst; reflexivity.
Qed.

(** The sum and the difference of two finite numbers round the exact sum
    and the exact difference of their aligned mantissas. *)
Lemma add_sub_finite (sa : bool) (ma ms : positive) (ea es : Z) :
  exists S1 S2 : Z,
    S2 < S1
    /\ fadd (S754_finite sa ma ea) (S754_finite false ms es)
       = binary_normalize F32.prec F32.emax S1 (Z.min ea es) false
    /\ fsub (S754_finite sa ma ea) (S754_finite false ms es)
       = binary_normalize F32.prec F32.emax S2 (Z.min ea es) false.
Proof.
  exists (cond_Zopp sa (Zpos (shl_align ma ea (Z.min ea es)).1)
          + Zpos (shl_align ms es (Z.min ea es)).1),
         (cond_Zopp sa (Zpos (shl_align ma ea (Z.min ea es)).1)
          - Zpos (shl_align ms es (Z.min ea es)).1).
  split; [lia|]. split; reflexivity.
Qed.

Lemma binary_normalize_sign_of (S ez : Z) :
  match sign_of_nonzero (binary_normalize F32.prec F32.emax S ez false) with
  | Some true => S < 0
  | Some false => 0 < S
  | None => True
  end.
Proof.
  destruct S as [|P|P]; cbn [binary_normalize].
  - exact I.
  - pose proof (binary_round_sign F32.prec F32.emax false P ez) as H.
    destruct (binary_round F32.prec F32.emax false P ez) as [s|s| |s m e];
      cbn in *; subst; auto; lia.
  - pose proof (binary_round_sign F32.prec F32.emax true P ez) as H.
    destruct (binary_round F32.prec F32.emax true P ez) as [s|s| |s m e];
      cbn in *; subst; auto; lia.
Qed.

(** The sum is not negative where the difference is positive. *)
Lemma add_sub_sign (a s : float) :
  not_negative s ->
  sign_of_nonzero (fadd a s) = Some true ->
  sign_of_nonzero (fsub a s) = Some false -> False.
Proof.
  intros Hs.
  destruct s as [ss|ss| |ss ms es]; cbn in Hs; subst.
  - destruct a as [[]|sa| |sa ma ea], ss; cbn; congruence.
  - destruct a as [sa|[]| |sa ma ea]; cbn; congruence.
  - destruct a; cbn; congruence.
  - destruct a as [sa|sa| |sa ma ea]; try (cbn; congruence).
    destruct (add_sub_finite sa ma ms ea es) as (S1 & S2 & HS & -> & ->).
    pose proof (binary_normalize_sign_of S1 (Z.min ea es)) as H1.
    pose proof (binary_normalize_sign_of S2 (Z.min ea es)) as H2.
    intros E1 E2. rewrite E1 in H1. rewrite E2 in H2. lia.
Qed.

(** The root with the plus sign is never below the root with the minus
    sign: for a square root that is not negative and a divisor whose sign
    is clear, (a + s) / d < (a - s) / d is false. *)
Lemma plus_root_not_below (a s d : float) :
  not_negative s -> sign_clear d ->
  flt (fdiv (fadd a s) d) (fdiv (fsub a s) d) = false.
Proof.
  intros Hs Hd. destruct d as [sd|sd| |sd md ed]; cbn in Hd; subst.
  - rewrite !fdiv_zero_r. pose proof (add_sub_sign a s Hs) as Hsign.
    destruct (sign_of_nonzero (fadd a s)) as [[]|],
             (sign_of_nonzero (fsub a s)) as [[]|]; try reflexivity.
    exfalso. now apply Hsign.
  - destruct (fdiv_infinity_r (fadd a s)) as [->|[s1 ->]],
             (fdiv_infinity_r (fsub a s)) as [->|[s2 ->]]; reflexivity.
  - rewrite !fdiv_nan_r. reflexivity.
  - destruct s as [ss|ss| |ss ms es]; cbn in Hs; subst.
    + destruct a as [sa|sa| |sa ma ea].
      * destruct sa, ss; reflexivity.
      * apply flt_irrefl.
      * reflexivity.
      * apply flt_irrefl.
    + destruct a as [sa|[]| |sa ma ea]; try reflexivity; apply flt_infinity_l.
    + destruct a; reflexivity.
    + destruct a as [sa|sa| |sa ma ea].
      * apply flt_signs.
        -- apply fdiv_sign_clear; reflexivity.
        -- apply (SFdiv_sign F32.prec F32.emax true false); reflexivity.
      * apply flt_irrefl.
      * reflexivity.
      * destruct (add_sub_finite sa ma ms ea es) as (S1 & S2 & HS & -> & ->).
        apply fle_flt, quotient_mono. lia.
Qed.



(** * Further properties *)

(** ** Colours *)

Lemma clamp_channel (n : Z) : min_u 255 (max_u 0 n) = Z.min 255 (n mod 2 ^ 32).
Proof.
  unfold min_u, max_u, wrap_unsigned.
  change (0 mod 2 ^ 32) with 0. change (255 mod 2 ^ 32) with 255.
  pose proof (Z.mod_pos_bound n (2 ^ 32) eq_refl) as Hn.
  destruct (Z.ltb_spec (n mod 2 ^ 32) 0); [lia|].
  rewrite Z.mod_mod by discriminate.
  destruct (Z.ltb_spec 255 (n mod 2 ^ 32)); lia.
Qed.

Lemma Clamp_min (c : Color) :
  Col.Clamp c = mkColor (Z.min 255 (b c mod 2 ^ 32)) (Z.min 255 (g c mod 2 ^ 32))
                  (Z.min 255 (r c mod 2 ^ 32)).
Proof. unfold Col.Clamp. now rewrite !clamp_channel. Qed.

Lemma Clamp_range (c : Color) :
  0 <= b (Col.Clamp c) <= 255 /\ 0 <= g (Col.Clamp c) <= 255
  /\ 0 <= r (Col.Clamp c) <= 255.
Proof.
  rewrite Clamp_min. cbn [b g r].
  pose proof (Z.mod_pos_bound (b c) (2 ^ 32) eq_refl).
  pose proof (Z.mod_pos_bound (g c) (2 ^ 32) eq_refl).
  pose proof (Z.mod_pos_bound (r c) (2 ^ 32) eq_refl).
  lia.
Qed.

(** X1.  Every channel of a clamped colour lies between 0 and 255, and
    clamping a clamped colour changes nothing. *)
Theorem X1_Clamp_range_idempotent (c : Color) :
  (0 <= b (Col.Clamp c) <= 255 /\ 0 <= g (Col.Clamp c) <= 255
   /\ 0 <= r (Col.Clamp c) <= 255)
  /\ Col.Clamp (Col.Clamp c) = Col.Clamp c.
Proof.
  split; [apply Clamp_range|].
  destruct (Clamp_range c) as (Hb & Hg & Hr).
  rewrite (Clamp_min (Col.Clamp c)).
  rewrite !Z.mod_small by lia.
  destruct (Col.Clamp c) as [cb cg cr]. cbn [b g r] in *. f_equal; lia.
Qed.

(** X2.  On [unsigned] channels [Clamp] is the minimum with 255: the test
    against 0 never acts, so a channel that wrapped around below zero (a
    large [unsigned]) becomes 255, not 0; a colour whose channels are at
    most 255 is returned as it is. *)
Theorem X2_Clamp_saturates (c : Color) :
  0 <= b c < 2 ^ 32 -> 0 <= g c < 2 ^ 32 -> 0 <= r c < 2 ^ 32 ->
  Col.Clamp c = mkColor (Z.min 255 (b c)) (Z.min 255 (g c)) (Z.min 255 (r c))
  /\ (b c <= 255 -> g c <= 255 -> r c <= 255 -> Col.Clamp c = c).
Proof.
  intros Hb Hg Hr. rewrite Clamp_min.
  rewrite !Z.mod_small by assumption. split; [reflexivity|].
  intros. destruct c as [cb cg cr]. cbn [b g r] in *. f_equal; lia.
Qed.

Lemma X2_witness :
  Col.Clamp (mkColor 4294967295 7 300) = mkColor 255 7 255.
Proof.
  apply (proj1 (X2_Clamp_saturates (mkColor 4294967295 7 300)
                  ltac:(cbn; lia) ltac:(cbn; lia) ltac:(cbn; lia))).
Defined.

Lemma lor_shiftl_add (a c n : Z) :
  0 <= n -> 0 <= a < 2 ^ n -> 0 <= c -> Z.lor a (Z.shiftl c n) = a + c * 2 ^ n.
Proof.
  intros Hn Ha Hc.
  assert (Hdis : Z.land a (Z.shiftl c n) = 0).
  { apply Z.bits_inj'. intros m Hm. rewrite Z.land_spec, Z.bits_0.
    destruct (Z.lt_ge_cases m n) as [Hlt|Hge].
    - rewrite Z.shiftl_spec_low by assumption. apply andb_false_r.
    - destruct (Z.eq_dec a 0) as [->|Hnz]; [now rewrite Z.bits_0|].
      rewrite (Z.bits_above_log2 a m); [reflexivity|lia|].
      apply Z.log2_lt_pow2; [lia|].
      apply Z.lt_le_trans with (2 ^ n); [lia|].
      apply Z.pow_le_mono_r; lia. }
  rewrite <- Z.lxor_lor by exact Hdis.
  rewrite <- Z.add_nocarry_lxor by exact Hdis.
  now rewrite Z.shiftl_mul_pow2.
Qed.

Lemma byte_land (n : Z) : 0 <= n <= 255 -> Z.land n 255 = n.
Proof.
  intros H. change 255 with (Z.ones 8). rewrite Z.land_ones by lia.
  apply Z.mod_small. lia.
Qed.

Lemma colorref_sum (c : Color) :
  0 <= b c <= 255 -> 0 <= g c <= 255 -> 0 <= r c <= 255 ->
  colorref c = b c + g c * 2 ^ 8 + r c * 2 ^ 16.
Proof.
  intros Hb Hg Hr. unfold colorref, RGB. rewrite !byte_land by assumption.
  rewrite (lor_shiftl_add (b c) (g c) 8) by lia.
  rewrite (lor_shiftl_add _ (r c) 16) by lia. reflexivity.
Qed.

(** X3.  The [DWORD] that [PutPixel] stores for a clamped colour holds the
    three channels in its three low bytes, blue lowest, and nothing above
    them: the clamped colour can be read back from the buffer element. *)
Theorem X3_clamped_colour_round_trip (c : Color) :
  let stored := RGB (b (Col.Clamp c)) (g (Col.Clamp c)) (r (Col.Clamp c)) in
  Z.land stored 255 = b (Col.Clamp c)
  /\ Z.land (Z.shiftr stored 8) 255 = g (Col.Clamp c)
  /\ Z.land (Z.shiftr stored 16) 255 = r (Col.Clamp c)
  /\ 0 <= stored < 2 ^ 24.
Proof.
  intros stored.
  destruct (Clamp_range c) as (Hb & Hg & Hr).
  subst stored. fold (colorref (Col.Clamp c)).
  rewrite (colorref_sum _ Hb Hg Hr).
  change 255 with (Z.ones 8). rewrite !Z.land_ones, !Z.shiftr_div_pow2 by lia.
  change (Z.ones 8) with 255 in *.
  change (2 ^ 8) with 256. change (2 ^ 16) with 65536. change (2 ^ 24) with 16777216.
  repeat split; try lia; Z.div_mod_to_equations; lia.
Qed.

(** ** The canvas, again *)

(** X4.  [PutPixel] never changes the length of the buffer, and of two
    calls at one position the later one wins. *)
Theorem X4_PutPixel_length_overwrite (x0 y0 : Z) (c c' : Color) (canvasBuffer : Canvas) :
  length (PutPixel x0 y0 c canvasBuffer) = length canvasBuffer
  /\ PutPixel x0 y0 c (PutPixel x0 y0 c' canvasBuffer) = PutPixel x0 y0 c canvasBuffer.
Proof.
  unfold PutPixel.
  destruct ((0 <=? wrap_int (Z.quot CANVAS_WIDTH 2 + x0))
            && (wrap_int (Z.quot CANVAS_WIDTH 2 + x0) <? CANVAS_WIDTH)
            && (0 <=? wrap_int (Z.quot CANVAS_HEIGHT 2 - y0))
            && (wrap_int (Z.quot CANVAS_HEIGHT 2 - y0) <? CANVAS_HEIGHT)).
  - split; [apply length_insert|apply list_insert_insert_eq].
  - split; reflexivity.
Qed.

(** X5.  Two calls of [PutPixel] at different positions commute: the
    buffer they leave does not depend on their order. *)
Theorem X5_PutPixel_commute (x1 y1 x2 y2 : Z) (c1 c2 : Color) (canvasBuffer : Canvas) :
  is_int x1 -> is_int y1 -> is_int x2 -> is_int y2 ->
  (x1, y1) <> (x2, y2) ->
  PutPixel x1 y1 c1 (PutPixel x2 y2 c2 canvasBuffer)
  = PutPixel x2 y2 c2 (PutPixel x1 y1 c1 canvasBuffer).
Proof.
  intros Hx1 Hy1 Hx2 Hy2 Hne.
  rewrite !PutPixel_int by assumption.
  destruct (on_canvas x1 y1) eqn:E1, (on_canvas x2 y2) eqn:E2; try reflexivity.
  apply list_insert_insert_ne. intros Heq.
  pose proof (offset_in_buffer _ _ E1). pose proof (offset_in_buffer _ _ E2).
  assert (Hoff : pixel_offset x1 y1 = pixel_offset x2 y2) by lia.
  destruct (offset_decode x1 y1 (Z.to_nat (pixel_offset x1 y1))) as [A1 B1].
  { unfold writes_to. rewrite E1. apply Z.eqb_eq. lia. }
  destruct (offset_decode x2 y2 (Z.to_nat (pixel_offset x1 y1))) as [A2 B2].
  { unfold writes_to. rewrite E2. apply Z.eqb_eq. lia. }
  apply Hne. congruence.
Qed.

Lemma X5_witness :
  PutPixel 1 2 (mkColor 1 2 3) (PutPixel 5 (-7) (mkColor 9 9 9) [0; 0; 0])
  = PutPixel 5 (-7) (mkColor 9 9 9) (PutPixel 1 2 (mkColor 1 2 3) [0; 0; 0]).
Proof.
  apply (X5_PutPixel_commute 1 2 5 (-7)); try (unfold is_int; lia). discriminate.
Defined.

(** ** Vectors *)

Lemma fmul_comm (a c : float) : fmul a c = fmul c a.
Proof.
  unfold F32.mul.
  destruct a as [s|s| |s m e], c as [s'|s'| |s' m' e']; simpl;
    rewrite ?(xorb_comm s s'); try reflexivity.
  now rewrite (Pos.mul_comm m m'), (Z.add_comm e e').
Qed.

(** X6.  [DotProduct] is commutative, bit for bit: the products are taken
    in either order and summed in the same order. *)
Theorem X6_DotProduct_comm (v1 v2 : Vector3) : DotProduct v1 v2 = DotProduct v2 v1.
Proof.
  unfold DotProduct.
  now rewrite (fmul_comm (x v1)), (fmul_comm (y v1)), (fmul_comm (z v1)).
Qed.

(** X7.  [Length] never returns a negative number, nor the negative zero:
    its value is a NaN or a float that is at least zero with a clear sign. *)
Theorem X7_Length_never_negative (v : Vector3) :
  (Length v = S754_nan \/ fle (F32.of_int 0) (Length v) = true)
  /\ flt (Length v) (F32.of_int 0) = false
  /\ Length v <> S754_zero true.
Proof.
  pose proof (Length_sign_clear v) as H.
  destruct (Length v) as [s|s| |s m e]; simpl in H; subst; simpl;
    repeat split; auto; discriminate.
Qed.

Lemma flt_infinity_false (hi : float) : flt INFINITY hi = false.
Proof. destruct hi as [s|[]| |[] m e]; reflexivity. Qed.

(** X8.  A sphere whose discriminant is negative on a ray has no root that
    any pair of bounds accepts: the sentinel (INFINITY, INFINITY) is never
    taken for a hit, neither by [TraceRay] nor by the shadow test. *)
Theorem X8_negative_discriminant_never_hit
    (origin direction : Vector3) (sphere : Sphere) (min_t max_t : float) :
  flt (ray_discriminant origin direction sphere) (F32.of_int 0) = true ->
  valid_root origin direction min_t max_t sphere = false.
Proof.
  intros Hd. unfold valid_root, strictly_inside.
  rewrite (IntersectRaySphere_discriminant _ _ _ Hd). cbn [fst snd].
  now rewrite flt_infinity_false, andb_false_r.
Qed.

Lemma X8_witness :
  valid_root (vector_lit 0 0 0) (vector_lit 1 0 0) (F32.of_int 1) INFINITY
    (mkSphere (vector_lit 0 0 3) (F32.of_int 1) (mkColor 0 0 255) 500 (float_lit 2 10))
  = false.
Proof.
  apply X8_negative_discriminant_never_hit. vm_compute. reflexivity.
Defined.

(** ** The scan of [TraceRay], again *)

(** X9.  The scan of [TraceRay] leaves [closest_sphere] null exactly when
    no sphere other than the excluded one has a root strictly inside the
    bounds. *)
Theorem X9_scan_null_iff_no_valid_root
    (origin direction : Vector3) (min_t max_t : float) (spheres : list Sphere)
    (sphere_tag : SpherePtr) :
  (ClosestIntersection origin direction min_t max_t spheres sphere_tag).2 = None
  <-> (forall i sphere, spheres !! i = Some sphere -> sphere_tag <> Some i ->
         strictly_inside min_t max_t (IntersectRaySphere origin direction sphere).1
         = false
         /\ strictly_inside min_t max_t (IntersectRaySphere origin direction sphere).2
            = false).
Proof.
  rewrite ClosestIntersection_miss_iff. unfold valid_root.
  split; intros H i sphere Hi Htag; specialize (H i sphere Hi Htag).
  - now apply orb_false_iff.
  - now apply orb_false_iff.
Qed.

(** X10.  What the scan records is sound: the sphere is the element of the
    vector at the recorded address, it is not the excluded sphere, and the
    recorded distance is one of its two roots, finite or minus infinity,
    strictly between the bounds. *)
Theorem X10_scan_hit_is_sound
    (origin direction : Vector3) (min_t max_t : float) (spheres : list Sphere)
    (sphere_tag : SpherePtr) (closest_t : float) (i : nat) (sphere : Sphere) :
  ClosestIntersection origin direction min_t max_t spheres sphere_tag
  = (closest_t, Some (i, sphere)) ->
  spheres !! i = Some sphere
  /\ sphere_tag <> Some i
  /\ flt min_t closest_t = true /\ flt closest_t max_t = true
  /\ flt closest_t INFINITY = true
  /\ (closest_t = (IntersectRaySphere origin direction sphere).1
      \/ closest_t = (IntersectRaySphere origin direction sphere).2).
Proof.
  intros Hscan.
  destruct (ClosestIntersection_hit _ _ _ _ _ _ _ _ _ Hscan) as (Hi & Htag & Hin & Hroot).
  apply strictly_inside_spec in Hin as [Hlo Hhi].
  repeat split; auto. exact (flt_below_infinity _ _ Hhi).
Qed.

Lemma X10_witness :
  SPHERES !! 0%nat = Some red_sphere
  /\ flt (F32.of_int 1) (S754_finite false 12710945 (-22)) = true.
Proof.
  destruct (X10_scan_hit_is_sound CAMERA_POSITION ray_down (F32.of_int 1) INFINITY
              SPHERES None (S754_finite false 12710945 (-22)) 0 red_sphere)
    as (Hi & _ & Hlo & _).
  - vm_compute. reflexivity.
  - split; assumption.
Defined.

(** X11.  What the scan records is the closest: when a sphere other than
    the excluded one has a root strictly inside the bounds, a sphere is
    recorded and that root is not below the recorded distance. *)
Theorem X11_scan_hit_is_closest
    (origin direction : Vector3) (min_t max_t : float) (spheres : list Sphere)
    (sphere_tag : SpherePtr) (i : nat) (sphere : Sphere) (root : float) :
  spheres !! i = Some sphere -> sphere_tag <> Some i ->
  root = (IntersectRaySphere origin direction sphere).1
  \/ root = (IntersectRaySphere origin direction sphere).2 ->
  flt min_t root = true -> flt root max_t = true ->
  flt root (ClosestIntersection origin direction min_t max_t spheres sphere_tag).1
  = false
  /\ (ClosestIntersection origin direction min_t max_t spheres sphere_tag).2 <> None.
Proof.
  intros Hi Htag Hroot Hlo Hhi.
  assert (Hin : strictly_inside min_t max_t root = true).
  { apply strictly_inside_spec. now split. }
  split.
  - destruct (ClosestIntersection_closest origin direction min_t max_t sphere_tag
                spheres i sphere Hi Htag) as [H1 H2].
    destruct Hroot as [->| ->]; [now apply H1|now apply H2].
  - intros Hnone.
    pose proof (proj1 (ClosestIntersection_miss_iff origin direction min_t max_t
                         sphere_tag spheres) Hnone i sphere Hi Htag) as Hv.
    clear Hnone. rename Hv into Hnone. unfold valid_root in Hnone.
    apply orb_false_iff in Hnone as [H1 H2].
    destruct Hroot as [->| ->]; congruence.
Qed.

Lemma X11_witness :
  flt (IntersectRaySphere CAMERA_POSITION ray_down red_sphere).1
      (ClosestIntersection CAMERA_POSITION ray_down (F32.of_int 1) INFINITY SPHERES
         None).1 = false.
Proof.
  refine (proj1 (X11_scan_hit_is_closest CAMERA_POSITION ray_down (F32.of_int 1)
                   INFINITY SPHERES None 0 red_sphere
                   (IntersectRaySphere CAMERA_POSITION ray_down red_sphere).1
                   _ _ _ _ _)).
  - reflexivity.
  - discriminate.
  - left. reflexivity.
  - vm_compute. reflexivity.
  - vm_compute. reflexivity.
Defined.

(** ** The excluded sphere *)

Lemma closest_scan_ignores_tag (origin direction : Vector3) (min_t max_t : float)
    (j : nat) (other : Sphere) (spheres : list Sphere) :
  forall (idx k : nat) (closest_t : float) (closest_sphere : option (nat * Sphere)),
    (idx + k)%nat = j ->
    closest_scan origin direction min_t max_t (Some j) idx (<[k:=other]> spheres)
      closest_t closest_sphere
    = closest_scan origin direction min_t max_t (Some j) idx spheres
        closest_t closest_sphere.
Proof.
  induction spheres as [|sphere rest IH]; intros idx k ct cs Hj; [reflexivity|].
  destruct k as [|k].
  - change (<[0%nat:=other]> (sphere :: rest)) with (other :: rest).
    cbn [closest_scan].
    case_decide as Hne; [reflexivity|].
    exfalso. apply Hne. f_equal. lia.
  - change (<[S k:=other]> (sphere :: rest)) with (sphere :: <[k:=other]> rest).
    cbn [closest_scan]. case_decide; [apply IH; lia|].
    repeat match goal with
           | |- context [if ?c then _ else _] => destruct c
           end; cbv beta iota zeta; apply IH; lia.
Qed.

Lemma shadow_scan_ignores_tag (point vec_l : Vector3) (t_max : float)
    (j : nat) (other : Sphere) (spheres : list Sphere) :
  forall idx k : nat,
    (idx + k)%nat = j ->
    shadow_scan point vec_l t_max (Some j) idx (<[k:=other]> spheres)
    = shadow_scan point vec_l t_max (Some j) idx spheres.
Proof.
  induction spheres as [|sphere rest IH]; intros idx k Hj; [reflexivity|].
  destruct k as [|k].
  - change (<[0%nat:=other]> (sphere :: rest)) with (other :: rest).
    cbn [shadow_scan].
    case_decide as Hne; [reflexivity|].
    exfalso. apply Hne. f_equal. lia.
  - change (<[S k:=other]> (sphere :: rest)) with (sphere :: <[k:=other]> rest).
    cbn [shadow_scan]. case_decide; [apply IH; lia|].
    repeat match goal with
           | |- context [if ?c then _ else _] => destruct c
           end; try reflexivity; apply IH; lia.
Qed.

Lemma foldl_pointwise {A B : Type} (f f' : A -> B -> A) (l : list B) :
  (forall a x0, f a x0 = f' a x0) -> forall a, foldl f a l = foldl f' a l.
Proof.
  intros Hext. induction l as [|x0 l IH]; intros a; cbn [foldl]; [reflexivity|].
  now rewrite Hext, IH.
Qed.

(** X12.  The sphere at [sphere_tag] is never read: putting any other
    sphere in its place changes neither what the scan of [TraceRay] records
    nor the intensity [ComputeLighting] returns. *)
Theorem X12_excluded_sphere_is_never_read
    (pow : double -> double -> double) (origin direction : Vector3)
    (min_t max_t : float) (point normal view : Vector3) (lights : list Light)
    (spheres : list Sphere) (specular0 : Z) (i : nat) (other : Sphere) :
  ClosestIntersection origin direction min_t max_t (<[i:=other]> spheres) (Some i)
  = ClosestIntersection origin direction min_t max_t spheres (Some i)
  /\ ComputeLighting pow point normal view lights (<[i:=other]> spheres) specular0
       (Some i)
     = ComputeLighting pow point normal view lights spheres specular0 (Some i).
Proof.
  split.
  - unfold ClosestIntersection. now apply closest_scan_ignores_tag.
  - unfold ComputeLighting. apply foldl_pointwise. intros a light.
    unfold light_step. destruct (ltype light); [reflexivity| |];
      destruct (light_vector light point) as [vec_l t_max];
      now rewrite (shadow_scan_ignores_tag _ _ _ i other spheres 0 i).
Qed.

(** ** Lighting *)

(** X13.  With a negative specular exponent there is no specular term:
    the intensity depends neither on the view vector nor on [std::pow]. *)
Theorem X13_negative_specular_no_highlight
    (pow pow' : double -> double -> double) (point normal view view' : Vector3)
    (lights : list Light) (spheres : list Sphere) (specular0 : Z)
    (sphere_tag : SpherePtr) :
  specular0 < 0 ->
  ComputeLighting pow point normal view lights spheres specular0 sphere_tag
  = ComputeLighting pow' point normal view' lights spheres specular0 sphere_tag.
Proof.
  intros Hneg. unfold ComputeLighting. apply foldl_pointwise. intros a light.
  unfold light_step, specular_reflection.
  destruct (Z.leb_spec 0 specular0); [lia|]. reflexivity.
Qed.

Lemma X13_witness :
  ComputeLighting pow_by_squaring shadowed_point (vector_lit 0 1 0) (vector_lit 0 0 1)
    LIGHTS SPHERES (-1) None
  = ComputeLighting (fun _ _ => S754_nan) shadowed_point (vector_lit 0 1 0)
      (vector_lit 5 5 5) LIGHTS SPHERES (-1) None.
Proof.
  apply (X13_negative_specular_no_highlight pow_by_squaring (fun _ _ => S754_nan)).
  lia.
Defined.

(** X14.  Under ambient lights only, the intensity is the sum of their
    intensities, taken in order from zero: the point, the normal, the
    view, the spheres and the exponent play no part. *)
Theorem X14_ambient_only
    (pow : double -> double -> double) (point normal view : Vector3)
    (lights : list Light) (spheres : list Sphere) (specular0 : Z)
    (sphere_tag : SpherePtr) :
  (forall light, In light lights -> ltype light = AMBIENT) ->
  ComputeLighting pow point normal view lights spheres specular0 sphere_tag
  = foldl (fun acc light => fadd acc (intensity light)) F32.zero lights.
Proof.
  intros Hamb. unfold ComputeLighting. generalize F32.zero.
  induction lights as [|light lights IH]; intros acc; cbn [foldl]; [reflexivity|].
  rewrite IH by (intros l Hl; apply Hamb; now right).
  unfold light_step. rewrite (Hamb light) by now left. reflexivity.
Qed.

Lemma X14_witness :
  ComputeLighting pow_by_squaring shadowed_point (vector_lit 0 1 0) (vector_lit 0 0 1)
    [mkLight AMBIENT (float_lit 2 10) (mkVector3 INFINITY INFINITY INFINITY)]
    SPHERES 500 None
  = float_lit 2 10.
Proof.
  etransitivity.
  - apply (X14_ambient_only pow_by_squaring). intros light [<-|[]]. reflexivity.
  - vm_compute. reflexivity.
Defined.

(** ** Depth *)

(** X15.  The depth matters through reflections only: when no sphere of
    the scene has a positive [reflective], or when both depths are at most
    zero, [TraceRay] returns the same colour at both depths. *)
Theorem X15_depth_is_irrelevant
    (pow : double -> double -> double) (origin direction : Vector3)
    (min_t max_t : float) (spheres : list Sphere) (lights : list Light)
    (depth depth' : Z) (sphere_tag : SpherePtr) :
  (forall sphere, In sphere spheres -> fle (reflective sphere) (F32.of_int 0) = true)
  \/ (depth <= 0 /\ depth' <= 0) ->
  TraceRay pow origin direction min_t max_t spheres lights depth sphere_tag
  = TraceRay pow origin direction min_t max_t spheres lights depth' sphere_tag.
Proof.
  intros Hbase.
  destruct (ClosestIntersection origin direction min_t max_t spheres sphere_tag)
    as [t [[i sphere]|]] eqn:Hscan.
  - assert (Hb : forall d, (d = depth \/ d = depth') ->
              fle (reflective (i, sphere).2) (F32.of_int 0) || (d <=? 0) = true).
    { intros d Hd. apply orb_true_iff. destruct Hbase as [Hall|[H1 H2]].
      - left. apply Hall.
        apply ClosestIntersection_hit in Hscan as (Hi & _).
        apply list_elem_of_In. eapply list_elem_of_lookup_2, Hi.
      - right. apply Z.leb_le. destruct Hd; subst; assumption. }
    rewrite (TraceRay_local pow spheres lights _ _ _ _ depth _ _ _ Hscan)
      by (apply Hb; now left).
    rewrite (TraceRay_local pow spheres lights _ _ _ _ depth' _ _ _ Hscan)
      by (apply Hb; now right).
    reflexivity.
  - rewrite (TraceRay_miss pow spheres lights _ _ _ _ depth _ _ Hscan).
    now rewrite (TraceRay_miss pow spheres lights _ _ _ _ depth' _ _ Hscan).
Qed.

Lemma X15_witness :
  TraceRay pow_by_squaring CAMERA_POSITION ray_down (F32.of_int 1) INFINITY SPHERES
    LIGHTS 0 None
  = TraceRay pow_by_squaring CAMERA_POSITION ray_down (F32.of_int 1) INFINITY SPHERES
      LIGHTS (-5) None.
Proof.
  apply (X15_depth_is_irrelevant pow_by_squaring). right. lia.
Defined.

(** ** Sections and frames *)

(** X16.  Two sections that follow each other render as the one section
    over their rows. *)
Theorem X16_RenderSection_split
    (pow : double -> double -> double) (start_y mid_y end_y : Z)
    (spheres : list Sphere) (lights : list Light) (camera_rotation : Matrix3)
    (camera_position : Vector3) (canvasBuffer : Canvas) :
  start_y <= mid_y <= end_y ->
  RenderSection pow mid_y end_y spheres lights camera_rotation camera_position
    (RenderSection pow start_y mid_y spheres lights camera_rotation camera_position
       canvasBuffer)
  = RenderSection pow start_y end_y spheres lights camera_rotation camera_position
      canvasBuffer.
Proof.
  intros H. unfold RenderSection.
  replace (end_y - start_y) with ((mid_y - start_y) + (end_y - mid_y)) by lia.
  rewrite seqZ_app by lia. rewrite foldl_app.
  now replace (start_y + (mid_y - start_y)) with mid_y by lia.
Qed.

(** X17.  A section whose end is not above its start writes nothing. *)
Theorem X17_RenderSection_empty
    (pow : double -> double -> double) (start_y end_y : Z)
    (spheres : list Sphere) (lights : list Light) (camera_rotation : Matrix3)
    (camera_position : Vector3) (canvasBuffer : Canvas) :
  end_y <= start_y ->
  RenderSection pow start_y end_y spheres lights camera_rotation camera_position
    canvasBuffer = canvasBuffer.
Proof.
  intros H. unfold RenderSection, seqZ.
  replace (Z.to_nat (end_y - start_y)) with 0%nat by lia. reflexivity.
Qed.

Lemma X16_witness :
  RenderSection pow_by_squaring 0 10 SPHERES LIGHTS CAMERA_ROTATION CAMERA_POSITION
    (RenderSection pow_by_squaring (-10) 0 SPHERES LIGHTS CAMERA_ROTATION
       CAMERA_POSITION [0; 0; 0])
  = RenderSection pow_by_squaring (-10) 10 SPHERES LIGHTS CAMERA_ROTATION
      CAMERA_POSITION [0; 0; 0].
Proof.
  refine (X16_RenderSection_split pow_by_squaring (-10) 0 10 SPHERES LIGHTS
            CAMERA_ROTATION CAMERA_POSITION [0; 0; 0] _).
  lia.
Defined.

Lemma X17_witness :
  RenderSection pow_by_squaring 5 5 SPHERES LIGHTS CAMERA_ROTATION CAMERA_POSITION
    [0; 0; 0] = [0; 0; 0].
Proof.
  refine (X17_RenderSection_empty pow_by_squaring 5 5 SPHERES LIGHTS
            CAMERA_ROTATION CAMERA_POSITION [0; 0; 0] _).
  lia.
Defined.

Lemma in_columns (x0 : Z) : In x0 columns <-> -300 <= x0 < 300.
Proof.
  unfold columns. rewrite <- list_elem_of_In, elem_of_seqZ.
  change (Z.quot (- CANVAS_WIDTH) 2) with (-300).
  change (Z.quot CANVAS_WIDTH 2) with 300. lia.
Qed.

Lemma writes_to_spec (x0 y0 : Z) (k : nat) :
  writes_to x0 y0 k = true
  <-> (0 <= 300 + x0 < 600 /\ 0 <= 300 - y0 < 600)
      /\ Z.of_nat k = 300 + x0 + 600 * (300 - y0).
Proof.
  unfold writes_to. rewrite andb_true_iff, on_canvas_spec, Z.eqb_eq.
  unfold pixel_offset, device_x, device_y.
  rewrite CANVAS_WIDTH_eq, CANVAS_HEIGHT_eq. change (Z.quot 600 2) with 300.
  reflexivity.
Qed.

Lemma all_rows_write (k : nat) :
  rows_write (rows (- Z.quot CANVAS_HEIGHT 2) (Z.quot CANVAS_HEIGHT 2)) k = true
  <-> CANVAS_WIDTH <= Z.of_nat k < CANVAS_WIDTH * CANVAS_HEIGHT.
Proof.
  rewrite rows_write_spec, CANVAS_WIDTH_eq, CANVAS_HEIGHT_eq.
  change (Z.quot 600 2) with 300.
  split.
  - intros (y0 & x0 & Hy & Hx & Hw).
    apply in_rows in Hy. apply in_columns in Hx. apply writes_to_spec in Hw. lia.
  - intros Hk. exists (300 - Z.of_nat k / 600), (Z.of_nat k mod 600 - 300).
    rewrite in_rows, in_columns, writes_to_spec.
    Z.div_mod_to_equations. lia.
Qed.

(** X18.  A frame rendered by the threads of [WinMain], in any order, on a
    buffer of W * H elements: the first W elements (the top row of the
    device) are never written, and every other element holds the clamped
    colour of the ray through its position.  The canvas row y = -H/2, for
    which [PutPixel] finds the device row H, is computed and dropped. *)
Theorem X18_frame_skips_top_row
    (pow : double -> double -> double) (num_threads : Z) (schedule : list Z)
    (spheres : list Sphere) (lights : list Light) (camera_rotation : Matrix3)
    (camera_position : Vector3) (canvasBuffer : Canvas) :
  0 < num_threads < 2 ^ 32 ->
  Permutation schedule (seqZ 0 num_threads) ->
  length canvasBuffer = Z.to_nat (CANVAS_WIDTH * CANVAS_HEIGHT) ->
  let frame :=
    render_bands pow num_threads schedule spheres lights camera_rotation
      camera_position canvasBuffer in
  forall k : nat,
    (Z.of_nat k < CANVAS_WIDTH -> frame !! k = canvasBuffer !! k)
    /\ (CANVAS_WIDTH <= Z.of_nat k < CANVAS_WIDTH * CANVAS_HEIGHT ->
        frame !! k
        = Some (colorref
                  (Col.Clamp
                     (TraceRay pow camera_position
                        (MultiplyMV camera_rotation
                           (CanvasToViewport (x_of_offset k) (y_of_offset k)))
                        (F32.of_int 1) INFINITY spheres lights RECURSION_DEPTH None)))).
Proof.
  intros HN Hperm Hlen frame k. subst frame.
  rewrite render_bands_paint.
  2:{ intros i Hi. apply band_int; [exact HN|].
      now apply (schedule_threads num_threads schedule i Hperm). }
  rewrite paint_lookup, (bands_write_all_rows num_threads schedule k HN Hperm).
  pose proof (all_rows_write k) as Hrows.
  destruct (rows_write _ k) eqn:E.
  - assert (Hk : CANVAS_WIDTH <= Z.of_nat k < CANVAS_WIDTH * CANVAS_HEIGHT)
      by now apply Hrows.
    split; [lia|]. intros _.
    destruct (canvasBuffer !! k) as [old|] eqn:Hold; [reflexivity|].
    apply lookup_ge_None in Hold. lia.
  - split.
    + intros _. destruct (canvasBuffer !! k); reflexivity.
    + intros Hk. apply Hrows in Hk. discriminate.
Qed.

Lemma X18_witness :
  render_bands pow_by_squaring 3 [2; 0; 1] SPHERES LIGHTS CAMERA_ROTATION
    CAMERA_POSITION (replicate (Z.to_nat (CANVAS_WIDTH * CANVAS_HEIGHT)) 7) !! 0%nat
  = replicate (Z.to_nat (CANVAS_WIDTH * CANVAS_HEIGHT)) 7 !! 0%nat.
Proof.
  refine (proj1 (X18_frame_skips_top_row pow_by_squaring 3 [2; 0; 1] SPHERES LIGHTS
                   CAMERA_ROTATION CAMERA_POSITION
                   (replicate (Z.to_nat (CANVAS_WIDTH * CANVAS_HEIGHT)) 7) _ _ _
                   0%nat) _).
  - lia.
  - change (seqZ 0 3) with [0; 1; 2].
    apply perm_trans with (l' := [0; 2; 1]); [apply perm_swap|].
    apply perm_skip, perm_swap.
  - apply length_replicate.
  - reflexivity.
Defined.

(** X19.  The bands [WinMain] hands to its threads follow each other
    without gap or overlap from -H/2 to H/2: each ends where the next one
    starts, all but the last have H / N rows, and the last has the
    remaining rows, fewer than H / N + N. *)
Theorem X19_bands_are_contiguous (num_threads : Z) :
  0 < num_threads < 2 ^ 32 ->
  (band num_threads 0).1 = - Z.quot CANVAS_HEIGHT 2
  /\ (band num_threads (num_threads - 1)).2 = Z.quot CANVAS_HEIGHT 2
  /\ (forall i, 0 <= i < num_threads - 1 ->
        (band num_threads i).2 = (band num_threads (i + 1)).1
        /\ (band num_threads i).2 - (band num_threads i).1
           = CANVAS_HEIGHT / num_threads)
  /\ CANVAS_HEIGHT / num_threads
     <= (band num_threads (num_threads - 1)).2 - (band num_threads (num_threads - 1)).1
     < CANVAS_HEIGHT / num_threads + num_threads.
Proof.
  intros HN.
  assert (Hsw : 0 <= CANVAS_HEIGHT / num_threads
                /\ CANVAS_HEIGHT / num_threads * num_threads <= CANVAS_HEIGHT
                   < (CANVAS_HEIGHT / num_threads + 1) * num_threads).
  { pose proof (Z.div_mod CANVAS_HEIGHT num_threads ltac:(lia)).
    pose proof (Z.mod_pos_bound CANVAS_HEIGHT num_threads ltac:(lia)).
    split; [apply Z.div_pos; rewrite ?CANVAS_HEIGHT_eq; lia|]. nia. }
  rewrite !band_eq by lia. cbn [fst snd].
  rewrite Z.eqb_refl.
  revert Hsw. rewrite CANVAS_HEIGHT_eq. change (Z.quot 600 2) with 300.
  set (sw := 600 / num_threads). intros Hsw.
  split; [lia|]. split; [reflexivity|]. split.
  - intros i Hi. rewrite !band_eq by lia. cbn [fst snd].
    rewrite CANVAS_HEIGHT_eq. change (Z.quot 600 2) with 300. fold sw.
    destruct (Z.eqb_spec i (num_threads - 1)); [lia|]. lia.
  - nia.
Qed.

Lemma X19_witness :
  (band 16 0).1 = - Z.quot CANVAS_HEIGHT 2.
Proof.
  refine (proj1 (X19_bands_are_contiguous 16 _)). lia.
Defined.

(** ** Colour arithmetic *)

Lemma holds_from_spec (P : Z -> bool) (n : nat) :
  forall m : Z,
    holds_from P n m = true ->
    forall k : Z, m <= k < m + Z.of_nat n -> P k = true.
Proof.
  induction n as [|n IH]; intros m Hall k Hk; [lia|].
  cbn [holds_from] in Hall. apply andb_true_iff in Hall as [Hm Hall].
  destruct (Z.eq_dec k m) as [->|Hne]; [exact Hm|].
  apply (IH (m + 1) Hall). lia.
Qed.

Lemma to_unsigned_times_one :
  holds_from (fun n => float_to_unsigned (fmul (F32.of_int 1) (F32.of_int n)) =? n)
    (Z.to_nat 65536) 0 = true.
Proof. vm_compute. reflexivity. Qed.

Lemma to_unsigned_times_zero (n : Z) :
  float_to_unsigned (fmul F32.zero (F32.of_int n)) = 0.
Proof.
  unfold F32.mul, F32.zero.
  destruct (F32.of_int n) as [s|s| |s m e]; reflexivity.
Qed.

(** X20.  Scaling a colour whose channels are below 65536 by 1.0 returns
    it unchanged, and scaling it by 0.0 returns black. *)
Theorem X20_Multiply_unit_and_zero (c : Color) :
  0 <= b c < 65536 -> 0 <= g c < 65536 -> 0 <= r c < 65536 ->
  Col.Multiply (F32.of_int 1) c = c
  /\ Col.Multiply F32.zero c = BACKGROUND_COLOR.
Proof.
  intros Hb Hg Hr.
  assert (Hone : forall n, 0 <= n < 65536 ->
            float_to_unsigned (fmul (F32.of_int 1) (F32.of_int n)) = n).
  { intros n Hn.
    apply Z.eqb_eq, (holds_from_spec _ _ _ to_unsigned_times_one). lia. }
  unfold Col.Multiply. split.
  - rewrite !Hone by assumption. now destruct c.
  - now rewrite !to_unsigned_times_zero.
Qed.

Lemma X20_witness :
  Col.Multiply (F32.of_int 1) (mkColor 0 255 300) = mkColor 0 255 300.
Proof.
  refine (proj1 (X20_Multiply_unit_and_zero (mkColor 0 255 300) _ _ _)); cbn; lia.
Defined.

(** X21.  The sum of colours is commutative and associative (channels
    wrap around modulo 2^32), and black is neutral on [unsigned] channels. *)
Theorem X21_Color_Add_laws (c1 c2 c3 : Color) :
  Col.Add c1 c2 = Col.Add c2 c1
  /\ Col.Add (Col.Add c1 c2) c3 = Col.Add c1 (Col.Add c2 c3)
  /\ Col.Add c1 BACKGROUND_COLOR
     = mkColor (b c1 mod 2 ^ 32) (g c1 mod 2 ^ 32) (r c1 mod 2 ^ 32).
Proof.
  unfold Col.Add, wrap_unsigned, BACKGROUND_COLOR. cbn [b g r].
  split; [|split].
  - now rewrite (Z.add_comm (b c1)), (Z.add_comm (g c1)), (Z.add_comm (r c1)).
  - f_equal; rewrite Zplus_mod_idemp_l, Zplus_mod_idemp_r; f_equal; lia.
  - now rewrite !Z.add_0_r.
Qed.

(** ** The rasteriser *)

Lemma interpolate_loop_app (n : nat) :
  forall (d a : float) (ds : list float),
    interpolate_loop n d a ds = ds ++ interpolate_loop n d a [].
Proof.
  induction n as [|n IH]; intros d a ds; cbn [interpolate_loop].
  - now rewrite app_nil_r.
  - rewrite (IH _ _ (ds ++ [d])), (IH _ _ ([] ++ [d])).
    now rewrite <- app_assoc.
Qed.

Lemma interpolate_loop_length (n : nat) :
  forall (d a : float) (ds : list float),
    length (interpolate_loop n d a ds) = (length ds + n)%nat.
Proof.
  induction n as [|n IH]; intros d a ds; cbn [interpolate_loop]; [lia|].
  rewrite IH, length_app. cbn [length]. lia.
Qed.

Lemma interpolate_loop_head (n : nat) (d a : float) :
  head (interpolate_loop (S n) d a []) = Some d.
Proof.
  cbn [interpolate_loop]. now rewrite interpolate_loop_app.
Qed.

(** X22.  [Interpolate], called on [int] bounds with [i1] below the
    largest [int] (on the largest one the loop of the program never
    ends), appends to [ds] and keeps what the vector held.  It appends
    nothing when [i1 < i0], the value [d0] twice when [i0 = i1], and
    [i1 - i0 + 1] values that start with [d0] when [i0 < i1]. *)
Theorem X22_Interpolate_appends (i0 d0 i1 d1 : Z) (ds : list float) :
  is_int i0 -> is_int i1 -> i1 <> 2 ^ 31 - 1 ->
  exists new : list float,
    Interpolate i0 d0 i1 d1 ds = ds ++ new
    /\ (i1 < i0 -> new = [])
    /\ (i0 = i1 -> new = [F32.of_int d0; F32.of_int d0])
    /\ (i0 < i1 -> length new = Z.to_nat (i1 - i0 + 1)
                   /\ head new = Some (F32.of_int d0)).
Proof.
  intros _ _ _. unfold Interpolate.
  set (a := fdiv _ _). rewrite interpolate_loop_app.
  destruct (Z.eqb_spec i0 i1) as [->|Hne].
  - replace (i1 - i1 + 1) with 1 by lia.
    exists [F32.of_int d0; F32.of_int d0]. rewrite <- app_assoc.
    repeat split; try lia.
  - exists (interpolate_loop (Z.to_nat (i1 - i0 + 1)) (F32.of_int d0) a []).
    split; [reflexivity|]. split; [|split].
    + intros Hlt. now replace (Z.to_nat (i1 - i0 + 1)) with 0%nat by lia.
    + intros ->. congruence.
    + intros Hlt. split; [now rewrite interpolate_loop_length|].
      replace (Z.to_nat (i1 - i0 + 1)) with (S (Z.to_nat (i1 - i0))) by lia.
      apply interpolate_loop_head.
Qed.

Lemma X22_witness :
  exists new : list float,
    Interpolate 0 0 10 3 [F32.of_int 7] = [F32.of_int 7] ++ new
    /\ (10 < 0 -> new = [])
    /\ (0 = 10 -> new = [F32.of_int 0; F32.of_int 0])
    /\ (0 < 10 -> length new = Z.to_nat (10 - 0 + 1)
                  /\ head new = Some (F32.of_int 0)).
Proof.
  apply (X22_Interpolate_appends 0 0 10 3 [F32.of_int 7]); unfold is_int; lia.
Defined.

Lemma float_to_int_int (x0 : float) : is_int (float_to_int x0).
Proof.
  unfold float_to_int, is_int. destruct (ftrunc x0) as [n|]; [|lia].
  destruct (Z.leb_spec (- 2 ^ 31) n), (Z.ltb_spec n (2 ^ 31)); cbn [andb]; lia.
Qed.

Lemma vec_get_index {A : Type} (v : list A) (k : nat) :
  Z.of_nat k < 2 ^ 31 -> vec_get v (Z.lor (wrap_int (Z.of_nat k)) 0) = v !! k.
Proof.
  intros Hk. rewrite wrap_int_id by (unfold is_int; lia).
  rewrite Z.lor_0_r. unfold vec_get.
  destruct (Z.leb_spec 0 (Z.of_nat k)); [|lia]. now rewrite Nat2Z.id.
Qed.

(** The drawing loop of [DrawLine] plots one pixel for each value of the
    loop variable, pairing it with the value of [ds] at the same rank. *)
Lemma plot_loop_horizontal (first : Z) (ds : list float) (color0 : Color) (n : nat) :
  forall (k : nat) (canvasBuffer : Canvas),
    - 2 ^ 30 <= first -> first + Z.of_nat (k + n) < 2 ^ 30 ->
    (k + n <= length ds)%nat ->
    plot_loop true n (first + Z.of_nat k) first ds color0 canvasBuffer
    = Some (foldl (plot color0) canvasBuffer
              (zip (seqZ (first + Z.of_nat k) (Z.of_nat n))
                   (float_to_int <$> drop k ds))).
Proof.
  induction n as [|n IH]; intros k canvasBuffer Hlo Hhi Hlen;
    cbn [plot_loop]; [reflexivity|].
  replace (first + Z.of_nat k - first) with (Z.of_nat k) by lia.
  rewrite vec_get_index by lia.
  destruct (ds !! k) as [d|] eqn:Hd;
    [|apply lookup_ge_None in Hd; lia].
  rewrite (drop_S _ _ _ Hd).
  rewrite (seqZ_cons (first + Z.of_nat k) (Z.of_nat (S n))) by lia.
  cbn [fmap list_fmap zip zip_with foldl].
  rewrite wrap_int_id by (unfold is_int; lia).
  replace (first + Z.of_nat k + 1) with (first + Z.of_nat (S k)) by lia.
  rewrite IH by lia.
  replace (Z.pred (Z.of_nat (S n))) with (Z.of_nat n) by lia.
  replace (Z.succ (first + Z.of_nat k)) with (first + Z.of_nat (S k)) by lia.
  reflexivity.
Qed.

Lemma plot_loop_vertical (first : Z) (ds : list float) (color0 : Color) (n : nat) :
  forall (k : nat) (canvasBuffer : Canvas),
    - 2 ^ 30 <= first -> first + Z.of_nat (k + n) < 2 ^ 30 ->
    (k + n <= length ds)%nat ->
    plot_loop false n (first + Z.of_nat k) first ds color0 canvasBuffer
    = Some (foldl (plot color0) canvasBuffer
              (zip (float_to_int <$> drop k ds)
                   (seqZ (first + Z.of_nat k) (Z.of_nat n)))).
Proof.
  induction n as [|n IH]; intros k canvasBuffer Hlo Hhi Hlen;
    cbn [plot_loop].
  { cbn [Z.of_nat]. rewrite seqZ_nil by lia.
    now destruct (float_to_int <$> drop k ds). }
  replace (first + Z.of_nat k - first) with (Z.of_nat k) by lia.
  rewrite vec_get_index by lia.
  destruct (ds !! k) as [d|] eqn:Hd;
    [|apply lookup_ge_None in Hd; lia].
  rewrite (drop_S _ _ _ Hd).
  rewrite (seqZ_cons (first + Z.of_nat k) (Z.of_nat (S n))) by lia.
  cbn [fmap list_fmap zip zip_with foldl].
  rewrite wrap_int_id by (unfold is_int; lia).
  replace (first + Z.of_nat k + 1) with (first + Z.of_nat (S k)) by lia.
  rewrite IH by lia.
  replace (Z.pred (Z.of_nat (S n))) with (Z.of_nat n) by lia.
  replace (Z.succ (first + Z.of_nat k)) with (first + Z.of_nat (S k)) by lia.
  reflexivity.
Qed.

Lemma Interpolate_length (i0 d0 i1 d1 : Z) :
  i0 <= i1 ->
  (Z.to_nat (i1 - i0 + 1) <= length (Interpolate i0 d0 i1 d1 []))%nat.
Proof.
  intros Hle. unfold Interpolate. rewrite interpolate_loop_length.
  lia.
Qed.

Lemma small_wrap (p0 p1 : PointOnCanvas) :
  small_point p0 -> small_point p1 ->
  wrap_int (px p1 - px p0) = px p1 - px p0
  /\ wrap_int (py p1 - py p0) = py p1 - py p0.
Proof.
  unfold small_point. intros H0 H1.
  split; apply wrap_int_id; unfold is_int; lia.
Qed.

(** The points as [DrawLine] leaves them are in drawing order. *)
Lemma line_order_ordered (p0 p1 : PointOnCanvas) :
  small_point p0 -> small_point p1 ->
  line_swaps (line_order p0 p1).1 (line_order p0 p1).2 = false
  /\ line_horizontal (line_order p0 p1).1 (line_order p0 p1).2
     = line_horizontal p0 p1.
Proof.
  intros H0 H1. unfold line_order, line_swaps, line_horizontal.
  destruct (small_wrap p0 p1 H0 H1) as [-> ->].
  destruct (Z.ltb_spec (Z.abs (py p1 - py p0)) (Z.abs (px p1 - px p0))) as [Hh|Hh].
  - destruct (Z.ltb_spec (px p1 - px p0) 0) as [Hs|Hs]; cbn [fst snd].
    + destruct (small_wrap p1 p0 H1 H0) as [-> ->].
      destruct (Z.ltb_spec (Z.abs (py p0 - py p1)) (Z.abs (px p0 - px p1)));
        [|lia].
      split; [|reflexivity]. apply Z.ltb_ge. lia.
    + destruct (small_wrap p0 p1 H0 H1) as [-> ->].
      destruct (Z.ltb_spec (Z.abs (py p1 - py p0)) (Z.abs (px p1 - px p0)));
        [|lia].
      split; [|reflexivity]. apply Z.ltb_ge. lia.
  - destruct (Z.ltb_spec (py p1 - py p0) 0) as [Hs|Hs]; cbn [fst snd].
    + destruct (small_wrap p1 p0 H1 H0) as [-> ->].
      destruct (Z.ltb_spec (Z.abs (py p0 - py p1)) (Z.abs (px p0 - px p1)));
        [lia|].
      split; [|reflexivity]. apply Z.ltb_ge. lia.
    + destruct (small_wrap p0 p1 H0 H1) as [-> ->].
      destruct (Z.ltb_spec (Z.abs (py p1 - py p0)) (Z.abs (px p1 - px p0)));
        [lia|].
      split; [|reflexivity]. apply Z.ltb_ge. lia.
Qed.

Lemma line_order_small (p0 p1 : PointOnCanvas) :
  small_point p0 -> small_point p1 ->
  small_point (line_order p0 p1).1 /\ small_point (line_order p0 p1).2.
Proof.
  intros H0 H1. unfold line_order. now destruct (line_swaps p0 p1).
Qed.

(** [DrawLine] on two points in drawing order. *)
Lemma DrawLine_ordered (p0 p1 : PointOnCanvas) (color0 : Color) (canvasBuffer : Canvas) :
  small_point p0 -> small_point p1 -> line_swaps p0 p1 = false ->
  DrawLine p0 p1 color0 canvasBuffer
  = Some (p0, p1, foldl (plot color0) canvasBuffer (line_positions p0 p1)).
Proof.
  intros H0 H1. unfold line_swaps, line_horizontal, DrawLine, line_positions.
  cbv zeta. unfold line_horizontal.
  destruct (small_wrap p0 p1 H0 H1) as [-> ->].
  unfold small_point in H0, H1.
  destruct (Z.ltb_spec (Z.abs (py p1 - py p0)) (Z.abs (px p1 - px p0))) as [Hh|Hh];
    intros Hs; rewrite Hs; apply Z.ltb_ge in Hs.
  - pose proof (plot_loop_horizontal (px p0)
                  (Interpolate (px p0) (py p0) (px p1) (py p1) []) color0
                  (Z.to_nat (px p1 - px p0 + 1)) 0 canvasBuffer) as Hloop.
    pose proof (Interpolate_length (px p0) (py p0) (px p1) (py p1)) as Hlen.
    cbn [Z.of_nat] in Hloop. rewrite Z.add_0_r in Hloop.
    rewrite Hloop by lia. rewrite drop_0, Z2Nat.id by lia. reflexivity.
  - pose proof (plot_loop_vertical (py p0)
                  (Interpolate (py p0) (px p0) (py p1) (px p1) []) color0
                  (Z.to_nat (py p1 - py p0 + 1)) 0 canvasBuffer) as Hloop.
    pose proof (Interpolate_length (py p0) (px p0) (py p1) (px p1)) as Hlen.
    cbn [Z.of_nat] in Hloop. rewrite Z.add_0_r in Hloop.
    rewrite Hloop by lia. rewrite drop_0, Z2Nat.id by lia. reflexivity.
Qed.

(** [DrawLine] on any two points: it exchanges them when they are not in
    drawing order, then draws. *)
Lemma DrawLine_spec (p0 p1 : PointOnCanvas) (color0 : Color) (canvasBuffer : Canvas) :
  small_point p0 -> small_point p1 ->
  DrawLine p0 p1 color0 canvasBuffer
  = Some ((line_order p0 p1).1, (line_order p0 p1).2,
          foldl (plot color0) canvasBuffer
            (line_positions (line_order p0 p1).1 (line_order p0 p1).2)).
Proof.
  intros H0 H1.
  destruct (line_swaps p0 p1) eqn:Hs.
  - pose proof (line_order_ordered p0 p1 H0 H1) as [Hord _].
    unfold line_order in *. rewrite Hs in *. cbn [fst snd] in *.
    rewrite <- (DrawLine_ordered p1 p0 color0 canvasBuffer H1 H0 Hord).
    unfold line_swaps, line_horizontal in Hs, Hord. unfold DrawLine. cbv zeta.
    destruct (small_wrap p0 p1 H0 H1) as [E1 E2].
    destruct (small_wrap p1 p0 H1 H0) as [E3 E4].
    rewrite E1, E2, E3, E4 in *.
    destruct (Z.ltb_spec (Z.abs (py p1 - py p0)) (Z.abs (px p1 - px p0)));
      destruct (Z.ltb_spec (Z.abs (py p0 - py p1)) (Z.abs (px p0 - px p1)));
      try lia; rewrite Hs, Hord; reflexivity.
  - unfold line_order. rewrite Hs. cbn [fst snd].
    now apply DrawLine_ordered.
Qed.

(** An [int] of small magnitude survives the conversion to [float] and
    back. *)
Lemma float_to_int_of_int (n : Z) :
  - 32768 <= n <= 32768 -> float_to_int (F32.of_int n) = n.
Proof.
  intros Hn.
  assert (Hall : holds_from (fun m => float_to_int (F32.of_int m) =? m)
                   (Z.to_nat 65537) (- 32768) = true) by (vm_compute; reflexivity).
  apply Z.eqb_eq, (holds_from_spec _ _ _ Hall). lia.
Qed.

(** A run of [PutPixel] calls paints the offsets its positions write. *)
Lemma fold_plot_paint (color0 : Color) (ps : list (Z * Z)) :
  Forall (fun p => is_int p.1 /\ is_int p.2) ps ->
  forall canvasBuffer : Canvas,
    foldl (plot color0) canvasBuffer ps
    = paint (positions_write ps) (fun _ => colorref color0) canvasBuffer.
Proof.
  induction 1 as [|p ps [Hx Hy] _ IH]; intros canvasBuffer; cbn [foldl].
  - symmetry. apply paint_nothing.
  - rewrite IH. unfold plot.
    rewrite (PutPixel_paint p.1 p.2 color0 (fun _ => colorref color0))
      by auto.
    rewrite paint_paint. apply paint_ext. intros k _. reflexivity.
Qed.

Lemma line_positions_int (p0 p1 : PointOnCanvas) :
  small_point p0 -> small_point p1 ->
  Forall (fun p => is_int p.1 /\ is_int p.2) (line_positions p0 p1).
Proof.
  unfold small_point. intros H0 H1. apply list.Forall_forall. intros [x1 y1] Hin.
  unfold line_positions in Hin. cbn [fst snd].
  destruct (line_horizontal p0 p1).
  - pose proof (elem_of_zip_l _ _ _ _ Hin) as Hl.
    pose proof (elem_of_zip_r _ _ _ _ Hin) as Hr.
    apply elem_of_seqZ in Hl. apply list_elem_of_fmap in Hr as (d & -> & _).
    split; [unfold is_int; lia|apply float_to_int_int].
  - pose proof (elem_of_zip_l _ _ _ _ Hin) as Hl.
    pose proof (elem_of_zip_r _ _ _ _ Hin) as Hr.
    apply elem_of_seqZ in Hr. apply list_elem_of_fmap in Hl as (d & -> & _).
    split; [apply float_to_int_int|unfold is_int; lia].
Qed.

(** [DrawLine] paints the offsets of its positions with the colour. *)
Lemma DrawLine_paint (p0 p1 : PointOnCanvas) (color0 : Color) (canvasBuffer : Canvas) :
  small_point p0 -> small_point p1 ->
  DrawLine p0 p1 color0 canvasBuffer
  = Some ((line_order p0 p1).1, (line_order p0 p1).2,
          paint (positions_write
                   (line_positions (line_order p0 p1).1 (line_order p0 p1).2))
            (fun _ => colorref color0) canvasBuffer).
Proof.
  intros H0 H1. rewrite DrawLine_spec by assumption.
  destruct (line_order_small p0 p1 H0 H1) as [Hq0 Hq1].
  now rewrite (fold_plot_paint color0 _ (line_positions_int _ _ Hq0 Hq1)).
Qed.

Lemma zip_fst_seqZ {A : Type} (first len : Z) (l : list A) :
  (Z.to_nat len <= length l)%nat -> (zip (seqZ first len) l).*1 = seqZ first len.
Proof.
  intros Hlen. apply fst_zip. now rewrite length_seqZ.
Qed.

Lemma zip_snd_seqZ {A : Type} (first len : Z) (l : list A) :
  (Z.to_nat len <= length l)%nat -> (zip l (seqZ first len)).*2 = seqZ first len.
Proof.
  intros Hlen. apply snd_zip. now rewrite length_seqZ.
Qed.

Lemma Interpolate_head (i0 d0 i1 d1 : Z) :
  i0 <= i1 -> head (Interpolate i0 d0 i1 d1 []) = Some (F32.of_int d0).
Proof.
  intros Hle. unfold Interpolate.
  destruct (Z.eqb_spec i0 i1) as [->|Hne].
  - replace (i1 - i1 + 1) with 1 by lia. reflexivity.
  - replace (Z.to_nat (i1 - i0 + 1)) with (S (Z.to_nat (i1 - i0))) by lia.
    apply interpolate_loop_head.
Qed.

(** The increments of [Interpolate] are rounded, so a line need not end in
    its second point: the line from (0, 0) to (10, 3) ends at (10, 2). *)
Example DrawLine_can_miss_its_end :
  list.last (line_positions (mkPoint 0 0) (mkPoint 10 3)) = Some (10, 2).
Proof. vm_compute. reflexivity. Qed.

(** X23.  On two points with coordinates of magnitude at most 32768
    [DrawLine] reads [ds] inside its bounds and returns.  It leaves the two
    points in drawing order.  For a line wider than it is tall it plots one
    pixel in each column from the first point's to the second point's; for
    any other line, one pixel in each row.  The first pixel is the first
    point. *)
Theorem X23_DrawLine_one_pixel_per_step (p0 p1 : PointOnCanvas) (color0 : Color)
    (canvasBuffer : Canvas) :
  small_point p0 -> small_point p1 ->
  let q0 := (line_order p0 p1).1 in
  let q1 := (line_order p0 p1).2 in
  exists ps : list (Z * Z),
    DrawLine p0 p1 color0 canvasBuffer
    = Some (q0, q1, foldl (plot color0) canvasBuffer ps)
    /\ (if line_horizontal p0 p1
        then ps.*1 = seqZ (px q0) (px q1 - px q0 + 1) /\ px q0 < px q1
        else ps.*2 = seqZ (py q0) (py q1 - py q0 + 1) /\ py q0 <= py q1)
    /\ head ps = Some (px q0, py q0).
Proof.
  intros H0 H1 q0 q1.
  exists (line_positions q0 q1). split; [now apply DrawLine_spec|].
  destruct (line_order_ordered p0 p1 H0 H1) as [Hord Hhor].
  destruct (line_order_small p0 p1 H0 H1) as [Hq0 Hq1].
  fold q0 q1 in Hord, Hhor, Hq0, Hq1. clearbody q0 q1.
  rewrite <- Hhor. unfold line_positions.
  unfold line_swaps in Hord. unfold line_horizontal in *.
  destruct (small_wrap q0 q1 Hq0 Hq1) as [E1 E2]. rewrite E1, E2 in *.
  unfold small_point in Hq0, Hq1.
  destruct (Z.ltb_spec (Z.abs (py q1 - py q0)) (Z.abs (px q1 - px q0))) as [Hh|Hh];
    apply Z.ltb_ge in Hord.
  - pose proof (Interpolate_length (px q0) (py q0) (px q1) (py q1)) as Hlen.
    pose proof (Interpolate_head (px q0) (py q0) (px q1) (py q1)) as Hhead.
    split; [split; [|lia]|].
    + apply zip_fst_seqZ. rewrite length_fmap. apply Hlen. lia.
    + destruct (Interpolate (px q0) (py q0) (px q1) (py q1) []) as [|d ds];
        [discriminate Hhead; lia|].
      injection (Hhead ltac:(lia)) as ->.
      rewrite (seqZ_cons (px q0)) by lia. cbn [fmap list_fmap zip zip_with head].
      rewrite float_to_int_of_int by lia. now destruct q0.
  - pose proof (Interpolate_length (py q0) (px q0) (py q1) (px q1)) as Hlen.
    pose proof (Interpolate_head (py q0) (px q0) (py q1) (px q1)) as Hhead.
    split; [split; [|lia]|].
    + apply zip_snd_seqZ. rewrite length_fmap. apply Hlen. lia.
    + destruct (Interpolate (py q0) (px q0) (py q1) (px q1) []) as [|d ds];
        [discriminate Hhead; lia|].
      injection (Hhead ltac:(lia)) as ->.
      rewrite (seqZ_cons (py q0)) by lia. cbn [fmap list_fmap zip zip_with head].
      rewrite float_to_int_of_int by lia. now destruct q0.
Qed.

Lemma X23_witness :
  exists ps : list (Z * Z),
    DrawLine (mkPoint 3 1) (mkPoint 0 0) (mkColor 1 2 3) [0; 0; 0]
    = Some (mkPoint 0 0, mkPoint 3 1, foldl (plot (mkColor 1 2 3)) [0; 0; 0] ps)
    /\ (ps.*1 = seqZ 0 4 /\ 0 < 3)
    /\ head ps = Some (0, 0).
Proof.
  apply (X23_DrawLine_one_pixel_per_step (mkPoint 3 1) (mkPoint 0 0)
           (mkColor 1 2 3) [0; 0; 0]);
    unfold small_point; cbn [px py]; lia.
Defined.

(** X24.  [DrawLine] keeps the size of the canvas and stores nothing but
    the colour it is given: every entry of the canvas is afterwards what
    it was before or the [COLORREF] of the colour. *)
Theorem X24_DrawLine_frame (p0 p1 : PointOnCanvas) (color0 : Color)
    (canvasBuffer : Canvas) :
  small_point p0 -> small_point p1 ->
  exists (q0 q1 : PointOnCanvas) (buffer : Canvas),
    DrawLine p0 p1 color0 canvasBuffer = Some (q0, q1, buffer)
    /\ length buffer = length canvasBuffer
    /\ forall k : nat,
         buffer !! k = canvasBuffer !! k
         \/ buffer !! k = Some (colorref color0).
Proof.
  intros H0 H1. eexists _, _, _. split; [now apply DrawLine_paint|].
  split; [apply paint_length|].
  intros k. rewrite paint_lookup.
  destruct (canvasBuffer !! k) as [old|]; [|now left].
  cbn [fmap option_fmap option_map].
  destruct (positions_write _ k); [now right|now left].
Qed.

Lemma X24_witness :
  exists (q0 q1 : PointOnCanvas) (buffer : Canvas),
    DrawLine (mkPoint 3 1) (mkPoint 0 0) (mkColor 1 2 3) [0; 0; 0]
    = Some (q0, q1, buffer)
    /\ length buffer = length [0; 0; 0]
    /\ forall k : nat,
         buffer !! k = [0; 0; 0] !! k
         \/ buffer !! k = Some (colorref (mkColor 1 2 3)).
Proof.
  apply (X24_DrawLine_frame (mkPoint 3 1) (mkPoint 0 0) (mkColor 1 2 3) [0; 0; 0]);
    unfold small_point; cbn [px py]; lia.
Defined.

(** X25.  When the second [DrawLine] call of [DrawWireframeTriangle]
    exchanges its two points, the triangle loses an edge: through the
    references the third call is given the two points of the first call
    again, draws the first edge a second time and changes nothing, so the
    canvas is the one the first two calls leave. *)
Theorem X25_wireframe_loses_an_edge (p0 p1 p2 : PointOnCanvas) (color0 : Color)
    (canvasBuffer : Canvas) :
  small_point p0 -> small_point p1 -> small_point p2 ->
  line_swaps (line_order p0 p1).2 p2 = true ->
  exists (q0 q1 : PointOnCanvas) (buffer1 buffer2 : Canvas),
    DrawLine p0 p1 color0 canvasBuffer = Some (q0, q1, buffer1)
    /\ DrawLine q1 p2 color0 buffer1 = Some (p2, q1, buffer2)
    /\ DrawLine q0 q1 color0 buffer2 = Some (q0, q1, buffer2)
    /\ DrawWireframeTriangle p0 p1 p2 color0 canvasBuffer
       = Some (q0, p2, q1, buffer2).
Proof.
  intros H0 H1 H2 Hswap.
  destruct (line_order_small p0 p1 H0 H1) as [Hq0 Hq1].
  destruct (line_order_ordered p0 p1 H0 H1) as [Hord _].
  pose proof (DrawLine_paint p0 p1 color0 canvasBuffer H0 H1) as D1.
  set (q0 := (line_order p0 p1).1) in *.
  set (q1 := (line_order p0 p1).2) in *. clearbody q0 q1.
  set (buffer1 := paint _ _ canvasBuffer) in D1.
  pose proof (DrawLine_paint q1 p2 color0 buffer1 Hq1 H2) as D2.
  assert (Ho2 : line_order q1 p2 = (p2, q1)) by (unfold line_order; now rewrite Hswap).
  rewrite Ho2 in D2. cbn [fst snd] in D2.
  set (buffer2 := paint _ _ buffer1) in D2.
  pose proof (DrawLine_paint q0 q1 color0 buffer2 Hq0 Hq1) as D3.
  assert (Ho3 : line_order q0 q1 = (q0, q1)) by (unfold line_order; now rewrite Hord).
  rewrite Ho3 in D3. cbn [fst snd] in D3.
  assert (Hsame : paint (positions_write (line_positions q0 q1))
                    (fun _ => colorref color0) buffer2 = buffer2).
  { unfold buffer2, buffer1. rewrite !paint_paint. apply paint_ext.
    intros k _. destruct (positions_write (line_positions q0 q1) k),
      (positions_write (line_positions p2 q1) k); reflexivity. }
  rewrite Hsame in D3.
  exists q0, q1, buffer1, buffer2. repeat split; try assumption.
  unfold DrawWireframeTriangle. rewrite D1, D2, D3. reflexivity.
Qed.

Lemma X25_witness :
  exists (q0 q1 : PointOnCanvas) (buffer1 buffer2 : Canvas),
    DrawLine (mkPoint 0 0) (mkPoint 10 0) (mkColor 1 2 3) [0; 0; 0]
    = Some (q0, q1, buffer1)
    /\ DrawLine q1 (mkPoint 5 (-5)) (mkColor 1 2 3) buffer1
       = Some (mkPoint 5 (-5), q1, buffer2)
    /\ DrawLine q0 q1 (mkColor 1 2 3) buffer2 = Some (q0, q1, buffer2)
    /\ DrawWireframeTriangle (mkPoint 0 0) (mkPoint 10 0) (mkPoint 5 (-5))
         (mkColor 1 2 3) [0; 0; 0]
       = Some (q0, mkPoint 5 (-5), q1, buffer2).
Proof.
  apply (X25_wireframe_loses_an_edge (mkPoint 0 0) (mkPoint 10 0) (mkPoint 5 (-5))
           (mkColor 1 2 3) [0; 0; 0]);
    try (unfold small_point; cbn [px py]; lia).
  reflexivity.
Defined.

(** X26.  [DrawFilledTriangle] never fills a triangle.  Its third call of
    [Interpolate] appends to [x01] where [x02] is meant, so [x02] stays
    empty and the read [x02[m]] that chooses the left side falls outside
    the vector, whatever the three points are. *)
Theorem X26_DrawFilledTriangle_reads_empty_vector (p0 p1 p2 : PointOnCanvas)
    (color0 : Color) (canvasBuffer : Canvas) :
  DrawFilledTriangle p0 p1 p2 color0 canvasBuffer = None.
Proof.
  unfold DrawFilledTriangle.
  destruct (py p1 <? py p0);
    match goal with |- context [if ?c then _ else _] => destruct c end;
    match goal with |- context [if ?c then _ else _] => destruct c end;
    cbv zeta;
    match goal with |- context [pop_back ?v] => destruct (pop_back v) end;
    reflexivity.
Qed.

(** ** The background fill *)

Lemma fold_column_paint (color0 : Color) (x0 : Z) (ys : list Z) :
  is_int x0 -> (forall y0, In y0 ys -> is_int y0) ->
  forall canvasBuffer : Canvas,
    foldl (fun buf y0 => PutPixel x0 y0 color0 buf) canvasBuffer ys
    = paint (fun k => existsb (fun y0 => writes_to x0 y0 k) ys)
        (fun _ => colorref color0) canvasBuffer.
Proof.
  intros Hx. induction ys as [|y0 ys IH]; intros Hys canvasBuffer;
    cbn [foldl existsb].
  - symmetry. apply paint_nothing.
  - rewrite IH by (intros y1 Hy1; apply Hys; now right).
    rewrite (PutPixel_paint x0 y0 color0 (fun _ => colorref color0))
      by (auto; apply Hys; now left).
    now rewrite paint_paint.
Qed.

Lemma fold_columns_paint (color0 : Color) (ys xs : list Z) :
  (forall y0, In y0 ys -> is_int y0) -> (forall x0, In x0 xs -> is_int x0) ->
  forall canvasBuffer : Canvas,
    foldl (fun buf x0 => foldl (fun buf y0 => PutPixel x0 y0 color0 buf) buf ys)
      canvasBuffer xs
    = paint (fun k => existsb (fun x0 => existsb (fun y0 => writes_to x0 y0 k) ys) xs)
        (fun _ => colorref color0) canvasBuffer.
Proof.
  intros Hys. induction xs as [|x0 xs IH]; intros Hxs canvasBuffer;
    cbn [foldl existsb].
  - symmetry. apply paint_nothing.
  - rewrite IH by (intros x1 Hx1; apply Hxs; now right).
    rewrite (fold_column_paint color0 x0 ys) by (auto; apply Hxs; now left).
    now rewrite paint_paint.
Qed.

(** X27.  The loop of [WinMain] that fills the canvas with the background
    colour misses the top row of the device: on a buffer of W * H elements
    it leaves the first W elements as they were and stores the colour in
    every other element.  It calls [PutPixel] for y = -H/2, which falls
    below the canvas, and never for y = H/2. *)
Theorem X27_background_fill_skips_top_row (color0 : Color) (canvasBuffer : Canvas) :
  length canvasBuffer = Z.to_nat (CANVAS_WIDTH * CANVAS_HEIGHT) ->
  let cleared := fill_background color0 canvasBuffer in
  forall k : nat,
    (Z.of_nat k < CANVAS_WIDTH -> cleared !! k = canvasBuffer !! k)
    /\ (CANVAS_WIDTH <= Z.of_nat k < CANVAS_WIDTH * CANVAS_HEIGHT ->
        cleared !! k = Some (colorref color0)).
Proof.
  intros Hlen cleared k. subst cleared. unfold fill_background.
  rewrite fold_columns_paint.
  2:{ intros y0. rewrite <- list_elem_of_In, elem_of_seqZ.
      change (Z.quot (- CANVAS_HEIGHT) 2) with (-300).
      change (Z.quot CANVAS_HEIGHT 2) with 300. unfold is_int. lia. }
  2:{ apply columns_int. }
  rewrite paint_lookup.
  set (written := existsb _ _).
  assert (Hw : written = true
               <-> CANVAS_WIDTH <= Z.of_nat k < CANVAS_WIDTH * CANVAS_HEIGHT).
  { subst written. rewrite existsb_exists. fold columns.
    change (Z.quot (- CANVAS_HEIGHT) 2) with (-300).
    change (Z.quot CANVAS_HEIGHT 2) with 300.
    rewrite CANVAS_WIDTH_eq, CANVAS_HEIGHT_eq.
    split.
    - intros (x0 & Hx & Hy). apply existsb_exists in Hy as (y0 & Hy & Hwr).
      apply in_columns in Hx. apply writes_to_spec in Hwr.
      rewrite <- list_elem_of_In, elem_of_seqZ in Hy. lia.
    - intros Hk. exists (Z.of_nat k mod 600 - 300). rewrite in_columns.
      split; [Z.div_mod_to_equations; lia|].
      apply existsb_exists. exists (300 - Z.of_nat k / 600).
      rewrite <- list_elem_of_In, elem_of_seqZ, writes_to_spec.
      Z.div_mod_to_equations. lia. }
  destruct written.
  - assert (Hk : CANVAS_WIDTH <= Z.of_nat k < CANVAS_WIDTH * CANVAS_HEIGHT)
      by now apply Hw.
    split; [lia|]. intros _.
    destruct (canvasBuffer !! k) as [old|] eqn:Hold; [reflexivity|].
    apply lookup_ge_None in Hold. lia.
  - split.
    + intros _. destruct (canvasBuffer !! k); reflexivity.
    + intros Hk. apply Hw in Hk. discriminate.
Qed.

Lemma X27_witness :
  fill_background (mkColor 255 255 255)
    (replicate (Z.to_nat (CANVAS_WIDTH * CANVAS_HEIGHT)) 0) !! 0%nat
  = replicate (Z.to_nat (CANVAS_WIDTH * CANVAS_HEIGHT)) 0 !! 0%nat.
Proof.
  refine (proj1 (X27_background_fill_skips_top_row (mkColor 255 255 255)
                   (replicate (Z.to_nat (CANVAS_WIDTH * CANVAS_HEIGHT)) 0) _
                   0%nat) _).
  - apply length_replicate.
  - reflexivity.
Defined.
